(** * wordlelab: feedback patterns, partitions and the expected-steps solvers

    A shallow embedding of the JavaScript sources of the repository
    (main.js, dp_solver.js, dp_top_blocks.js, dp_top200.js and the table
    generator) together with the properties stated about them.

    Modelling conventions.
    - A JS string is a [string]; [w[i]] is [char_at w i : option ascii],
      where [None] stands for [undefined] (index past the end).
    - The arrays [res] and [used] are lists updated in place with
      [<[i:=x]>]; the object [cnt] used as a dictionary is a [gmap].
    - A JS [Map] keeps its keys in insertion order and is iterated in that
      order, so it is an association list.
    - JS numbers holding expected values are exact rationals ([Qc]) extended
      with [Infinity]; rounding of IEEE doubles is not modelled.
    - Recursion that JS runs on its call stack is given fuel; running out of
      fuel is the outcome [None] of the solver monad. *)

From Stdlib Require Import Ascii String QArith Qcanon Qround Lqa.
From stdpp Require Import base list strings gmap numbers sorting pretty.

Set Warnings "-clear-no-such-hyp".

Local Open Scope string_scope.
Local Open Scope nat_scope.
Local Open Scope list_scope.

(** ** The feedback computation *)

Module Feedback.

(** [w[i]] on a JS string. *)
Definition char_at (w : string) (i : nat) : option ascii := String.get i w.

(** [res.join('')] on an array of one-character strings. *)
Definition join_chars (res : list ascii) : string := string_of_list_ascii res.

Section loops.
Context {L : Type} `{Countable L}.
Implicit Types (g a : nat → L) (res : list ascii) (used : list bool).
Implicit Types (cnt : gmap L nat).

(** *** main.js, [pattern]: per-letter counts *)

(** Body of the first loop: greens, and counting of the other answer
    letters. *)
Definition pattern_greens g a (st : list ascii * gmap L nat) (i : nat)
    : list ascii * gmap L nat :=
  let '(res, cnt) := st in
  if decide (a i = g i) then (<[i:="2"%char]> res, cnt)
  else (res, <[a i := default 0 (cnt !! a i) + 1]> cnt).

(** Body of the second loop: yellows. *)
Definition pattern_yellows g (st : list ascii * gmap L nat) (i : nat)
    : list ascii * gmap L nat :=
  let '(res, cnt) := st in
  if decide (res !! i = Some "2"%char) then (res, cnt)
  else
    let ch := g i in
    if decide (0 < default 0 (cnt !! ch))
    then (<[i:="1"%char]> res, <[ch := default 0 (cnt !! ch) - 1]> cnt)
    else (res, cnt).

Definition pattern_res g a : list ascii :=
  let st := (replicate 5 "0"%char, (∅ : gmap L nat)) in
  let st := foldl (pattern_greens g a) st (seq 0 5) in
  let st := foldl (pattern_yellows g) st (seq 0 5) in
  st.1.

(** *** dp_solver.js [patternOf], dp_top_blocks.js [patternFor]:
    a [used] array over the answer positions *)

(** Body of the first loop: greens. *)
Definition used_greens g a (st : list ascii * list bool) (i : nat)
    : list ascii * list bool :=
  let '(res, used) := st in
  if decide (g i = a i) then (<[i:="2"%char]> res, <[i:=true]> used)
  else (res, used).

(** The inner loop over [j]: the first answer position that is not used
    and carries [ch] is marked used; [None] when the loop ends without
    a [break]. *)
Fixpoint claim_unused a (ch : L) (js : list nat) used : option (list bool) :=
  match js with
  | [] => None
  | j :: js' =>
      if negb (default false (used !! j)) && bool_decide (a j = ch)
      then Some (<[j:=true]> used)
      else claim_unused a ch js' used
  end.

(** Body of the second loop, written with [continue] in [patternOf] and
    with [if (res[i] !== '2')] in [patternFor]. *)
Definition used_yellows g a (st : list ascii * list bool) (i : nat)
    : list ascii * list bool :=
  let '(res, used) := st in
  if decide (res !! i = Some "2"%char) then (res, used)
  else
    let ch := g i in
    match claim_unused a ch (seq 0 5) used with
    | Some used' => (<[i:="1"%char]> res, used')
    | None => (res, used)
    end.

Definition used_res g a : list ascii :=
  let st := (replicate 5 "0"%char, replicate 5 false) in
  let st := foldl (used_greens g a) st (seq 0 5) in
  let st := foldl (used_yellows g a) st (seq 0 5) in
  st.1.

(** *** table generator [patternFor]: [used] for the greens, then counts *)

(** Body of the loop that counts the answer letters left after the
    greens. *)
Definition tally_unused a (used : list bool) cnt (i : nat) : gmap L nat :=
  if negb (default false (used !! i))
  then <[a i := default 0 (cnt !! a i) + 1]> cnt
  else cnt.

(** Body of the last loop: only cells still ['0'] are looked at. *)
Definition tally_yellows g (st : list ascii * gmap L nat) (i : nat)
    : list ascii * gmap L nat :=
  let '(res, cnt) := st in
  if decide (res !! i = Some "0"%char) then
    let c := g i in
    if decide (0 < default 0 (cnt !! c))
    then (<[i:="1"%char]> res, <[c := default 0 (cnt !! c) - 1]> cnt)
    else (res, cnt)
  else (res, cnt).

Definition tally_res g a : list ascii :=
  let n := 5 in
  let st := (replicate n "0"%char, replicate n false) in
  let '(res, used) := foldl (used_greens g a) st (seq 0 n) in
  let counts := foldl (tally_unused a used) (∅ : gmap L nat) (seq 0 n) in
  let st := foldl (tally_yellows g) (res, counts) (seq 0 n) in
  st.1.
End loops.

(** main.js *)
Definition pattern (guess answer : string) : string :=
  join_chars (pattern_res (char_at guess) (char_at answer)).

(** dp_solver.js *)
Definition patternOf (guess answer : string) : string :=
  join_chars (used_res (char_at guess) (char_at answer)).

(** dp_top_blocks.js, dp_top200.js, dp_ext.js *)
Definition patternFor (g a : string) : string :=
  join_chars (used_res (char_at g) (char_at a)).

(** The table generator has a [patternFor] of its own. *)
Module TableGen.
Definition patternFor (guess answer : string) : string :=
  join_chars (tally_res (char_at guess) (char_at answer)).
End TableGen.

Example pattern_allow_llama : pattern "allow" "llama" = "12100".
Proof. vm_compute. reflexivity. Qed.
Example patternOf_allow_llama : patternOf "allow" "llama" = "12100".
Proof. vm_compute. reflexivity. Qed.
Example tablegen_allow_llama : TableGen.patternFor "allow" "llama" = "12100".
Proof. vm_compute. reflexivity. Qed.
Example pattern_speed_abide : pattern "speed" "abide" = "00101".
Proof. vm_compute. reflexivity. Qed.
Example pattern_abide_speed : pattern "abide" "speed" = "00011".
Proof. vm_compute. reflexivity. Qed.

(** *** The two-pass algorithm as the specification words it

    Pass 1 marks the positions where guess and secret agree and collects
    per-letter counts of the secret letters not matched.  Pass 2 scans the
    guess from the left: an unresolved letter is present-elsewhere when
    its letter has a remaining count, which is then decremented, and
    absent otherwise. *)

Inductive mark := Absent | Present | Correct.

#[global] Instance mark_eq_dec : EqDecision mark.
Proof. solve_decision. Defined.

Definition encode_mark (m : mark) : ascii :=
  match m with
  | Absent => "0"%char
  | Present => "1"%char
  | Correct => "2"%char
  end.

#[global] Instance encode_mark_inj : Inj (=) (=) encode_mark.
Proof. by intros [] []. Qed.

Section spec.
Context {L : Type} `{EqDecision L}.

Fixpoint unmatched_count (c : L) (gl al : list L) : nat :=
  match gl, al with
  | x :: gl', y :: al' =>
      (if decide (x ≠ y ∧ y = c) then 1 else 0) + unmatched_count c gl' al'
  | _, _ => 0
  end.

Definition take_one (x : L) (rem : L → nat) : L → nat :=
  λ c, if decide (c = x) then rem c - 1 else rem c.

Fixpoint spec_second_pass (gl al : list L) (rem : L → nat) : list mark :=
  match gl, al with
  | x :: gl', y :: al' =>
      if decide (x = y) then Correct :: spec_second_pass gl' al' rem
      else if decide (0 < rem x)
           then Present :: spec_second_pass gl' al' (take_one x rem)
           else Absent :: spec_second_pass gl' al' rem
  | _, _ => []
  end.

Definition spec_compute (gl al : list L) : list mark :=
  spec_second_pass gl al (λ c, unmatched_count c gl al).
End spec.

(** The five cells [w[0]], ..., [w[4]] that the loops read. *)
Definition cells {L} (w : nat → L) : list L := w <$> seq 0 5.

Definition spec_pattern (guess answer : string) : string :=
  join_chars (encode_mark <$>
    spec_compute (cells (char_at guess)) (cells (char_at answer))).

(** *** From the index loops to recursion over the cells

    A loop [for (i = 0; i < 5; i++)] whose body rewrites at most [res[i]]
    is a left-to-right scan of the cells threading the rest of the state. *)

Section scan.
Context {L St : Type}.

Fixpoint scan (f : L → L → ascii → St → ascii * St)
    (gl al : list L) (res : list ascii) (st : St) : list ascii * St :=
  match gl, al, res with
  | x :: gl', y :: al', r :: res' =>
      let '(r', st') := f x y r st in
      let '(out, st'') := scan f gl' al' res' st' in
      (r' :: out, st'')
  | _, _, _ => ([], st)
  end.

Lemma foldl_scan f (g a : nat → L) (step : list ascii * St → nat → list ascii * St) :
  (∀ res st i r, res !! i = Some r →
     step (res, st) i
     = (<[i := (f (g i) (a i) r st).1]> res, (f (g i) (a i) r st).2)) →
  ∀ n k pre res st, length pre = k → length res = n →
    foldl step (pre ++ res, st) (seq k n)
    = let '(out, st') := scan f (g <$> seq k n) (a <$> seq k n) res st in
      (pre ++ out, st').
Proof.
  intros Hstep n. induction n as [|n IH]; intros k pre res st Hk Hn.
  - destruct res; [|done]. simpl. by rewrite app_nil_r.
  - destruct res as [|r res]; [done|]. simpl in Hn.
    cbn [seq foldl fmap list_fmap scan].
    rewrite (Hstep _ _ _ r); last by rewrite list_lookup_middle.
    destruct (f (g k) (a k) r st) as [r' st'] eqn:Hf. cbn [fst snd].
    rewrite insert_app_r_alt; last lia.
    replace (k - length pre) with 0 by lia. cbn [insert list_insert].
    rewrite (cons_middle r' pre res), app_assoc.
    rewrite (IH (S k) (pre ++ [r']) res st'); [|rewrite length_app; simpl; lia|lia].
    change (list_fmap nat L g (seq (S k) n)) with (g <$> seq (S k) n).
    change (list_fmap nat L a (seq (S k) n)) with (a <$> seq (S k) n).
    destruct (scan f (g <$> seq (S k) n) (a <$> seq (S k) n) res st') as [out st''].
    by rewrite <-app_assoc.
Qed.

Lemma scan_length f gl al res st :
  length gl = length res → length al = length res →
  length (scan f gl al res st).1 = length res.
Proof.
  revert al res st. induction gl as [|x gl IH]; intros [|y al] [|r res] st; try done.
  simpl. intros ??. destruct (f x y r st) as [r' st'].
  specialize (IH al res st'). destruct (scan f gl al res st') as [out st''].
  simpl in *. f_equal. apply IH; lia.
Qed.
End scan.

(** *** The loops of the three implementations as scans *)

Section cells.
Context {L : Type} `{Countable L}.
Implicit Types (g a : nat → L) (gl al : list L) (cnt : gmap L nat).

Definition count_cell (x y : L) (r : ascii) cnt : ascii * gmap L nat :=
  if decide (r = "2"%char) then (r, cnt)
  else if decide (0 < default 0 (cnt !! x))
       then ("1"%char, <[x := default 0 (cnt !! x) - 1]> cnt)
       else (r, cnt).

Definition used_cell a (x y : L) (r : ascii) (used : list bool)
    : ascii * list bool :=
  if decide (r = "2"%char) then (r, used)
  else match claim_unused a x (seq 0 5) used with
       | Some used' => ("1"%char, used')
       | None => (r, used)
       end.

Definition tally_cell (x y : L) (r : ascii) cnt : ascii * gmap L nat :=
  if decide (r = "0"%char) then
    if decide (0 < default 0 (cnt !! x))
    then ("1"%char, <[x := default 0 (cnt !! x) - 1]> cnt)
    else (r, cnt)
  else (r, cnt).

Lemma pattern_yellows_cell g a res cnt i r :
  res !! i = Some r →
  pattern_yellows g (res, cnt) i
  = (<[i := (count_cell (g i) (a i) r cnt).1]> res, (count_cell (g i) (a i) r cnt).2).
Proof.
  intros Hr. unfold pattern_yellows, count_cell. rewrite Hr.
  repeat case_decide; simplify_eq; simpl; try (rewrite list_insert_id by done); done.
Qed.

Lemma used_yellows_cell g a res used i r :
  res !! i = Some r →
  used_yellows g a (res, used) i
  = (<[i := (used_cell a (g i) (a i) r used).1]> res, (used_cell a (g i) (a i) r used).2).
Proof.
  intros Hr. unfold used_yellows, used_cell. rewrite Hr.
  destruct (claim_unused a (g i) (seq 0 5) used);
    repeat case_decide; simplify_eq; simpl;
    try (rewrite list_insert_id by done); done.
Qed.

Lemma tally_yellows_cell g a res cnt i r :
  res !! i = Some r →
  tally_yellows g (res, cnt) i
  = (<[i := (tally_cell (g i) (a i) r cnt).1]> res, (tally_cell (g i) (a i) r cnt).2).
Proof.
  intros Hr. unfold tally_yellows, tally_cell. rewrite Hr.
  repeat case_decide; simplify_eq; simpl; try (rewrite list_insert_id by done); done.
Qed.

(** State after the first loop. *)
Definition marks_ag gl al : list ascii :=
  zip_with (λ x y, if decide (y = x) then "2"%char else "0"%char) gl al.
Definition marks_ga gl al : list ascii :=
  zip_with (λ x y, if decide (x = y) then "2"%char else "0"%char) gl al.
Definition used_ga gl al : list bool :=
  zip_with (λ x y, if decide (x = y) then true else false) gl al.

Fixpoint tally_ag gl al cnt : gmap L nat :=
  match gl, al with
  | x :: gl', y :: al' =>
      tally_ag gl' al'
        (if decide (y = x) then cnt else <[y := default 0 (cnt !! y) + 1]> cnt)
  | _, _ => cnt
  end.
Fixpoint tally_ga gl al cnt : gmap L nat :=
  match gl, al with
  | x :: gl', y :: al' =>
      tally_ga gl' al'
        (if decide (x = y) then cnt else <[y := default 0 (cnt !! y) + 1]> cnt)
  | _, _ => cnt
  end.

Lemma pattern_greens_cells g a :
  foldl (pattern_greens g a) (replicate 5 "0"%char, ∅) (seq 0 5)
  = (marks_ag (cells g) (cells a), tally_ag (cells g) (cells a) ∅).
Proof.
  unfold cells, marks_ag, pattern_greens. cbn.
  repeat case_decide; reflexivity.
Qed.

Lemma used_greens_cells g a :
  foldl (used_greens g a) (replicate 5 "0"%char, replicate 5 false) (seq 0 5)
  = (marks_ga (cells g) (cells a), used_ga (cells g) (cells a)).
Proof.
  unfold cells, marks_ga, used_ga, used_greens. cbn.
  repeat case_decide; reflexivity.
Qed.

Lemma tally_unused_cells g a :
  foldl (tally_unused a (used_ga (cells g) (cells a))) ∅ (seq 0 5)
  = tally_ga (cells g) (cells a) ∅.
Proof.
  unfold cells, used_ga, tally_unused. cbn.
  repeat case_decide; reflexivity.
Qed.

Lemma cells_length {X} (w : nat → X) : length (cells w) = 5.
Proof. reflexivity. Qed.

Lemma marks_ag_length gl al : length gl = length al → length (marks_ag gl al) = length gl.
Proof. intros. unfold marks_ag. rewrite length_zip_with. lia. Qed.
Lemma marks_ga_length gl al : length gl = length al → length (marks_ga gl al) = length gl.
Proof. intros. unfold marks_ga. rewrite length_zip_with. lia. Qed.

Lemma pattern_res_scan g a :
  pattern_res g a
  = (scan count_cell (cells g) (cells a)
       (marks_ag (cells g) (cells a)) (tally_ag (cells g) (cells a) ∅)).1.
Proof.
  unfold pattern_res. cbn zeta. rewrite pattern_greens_cells.
  pose proof (foldl_scan count_cell g a (pattern_yellows g)
    (λ res st i r, pattern_yellows_cell g a res st i r) 5 0 []
    (marks_ag (cells g) (cells a)) (tally_ag (cells g) (cells a) ∅)
    eq_refl eq_refl) as E.
  rewrite app_nil_l in E. rewrite E. fold (cells g) (cells a).
  by destruct (scan _ _ _ _ _).
Qed.

Lemma used_res_scan g a :
  used_res g a
  = (scan (used_cell a) (cells g) (cells a)
       (marks_ga (cells g) (cells a)) (used_ga (cells g) (cells a))).1.
Proof.
  unfold used_res. cbn zeta. rewrite used_greens_cells.
  pose proof (foldl_scan (used_cell a) g a (used_yellows g a)
    (λ res st i r, used_yellows_cell g a res st i r) 5 0 []
    (marks_ga (cells g) (cells a)) (used_ga (cells g) (cells a))
    eq_refl eq_refl) as E.
  rewrite app_nil_l in E. rewrite E. fold (cells g) (cells a).
  by destruct (scan _ _ _ _ _).
Qed.

Lemma tally_res_scan g a :
  tally_res g a
  = (scan tally_cell (cells g) (cells a)
       (marks_ga (cells g) (cells a)) (tally_ga (cells g) (cells a) ∅)).1.
Proof.
  unfold tally_res. cbn zeta. rewrite used_greens_cells, tally_unused_cells.
  pose proof (foldl_scan tally_cell g a (tally_yellows g)
    (λ res st i r, tally_yellows_cell g a res st i r) 5 0 []
    (marks_ga (cells g) (cells a)) (tally_ga (cells g) (cells a) ∅)
    eq_refl eq_refl) as E.
  rewrite app_nil_l in E. rewrite E. fold (cells g) (cells a).
  by destruct (scan _ _ _ _ _).
Qed.
End cells.

(** *** Each implementation computes the specified code *)

Section refine.
Context {L : Type} `{Countable L}.
Implicit Types (g a : nat → L) (gl al : list L) (cnt : gmap L nat).
Implicit Types (rem : L → nat) (used : list bool).

Lemma tally_ag_lookup c gl al cnt :
  default 0 (tally_ag gl al cnt !! c)
  = default 0 (cnt !! c) + unmatched_count c gl al.
Proof.
  revert al cnt. induction gl as [|x gl IH]; intros [|y al] cnt; simpl; try lia.
  rewrite IH. destruct (decide (x ≠ y ∧ y = c)) as [[Hxy ->]|Hn].
  - rewrite decide_False by congruence. rewrite lookup_insert_eq. simpl. lia.
  - destruct (decide (x = y)) as [->|Hxy].
    + rewrite decide_True by done. lia.
    + rewrite decide_False by congruence.
      rewrite lookup_insert_ne by naive_solver. lia.
Qed.

Lemma tally_ga_lookup c gl al cnt :
  default 0 (tally_ga gl al cnt !! c)
  = default 0 (cnt !! c) + unmatched_count c gl al.
Proof.
  revert al cnt. induction gl as [|x gl IH]; intros [|y al] cnt; simpl; try lia.
  rewrite IH. destruct (decide (x ≠ y ∧ y = c)) as [[Hxy ->]|Hn].
  - rewrite decide_False by congruence. rewrite lookup_insert_eq. simpl. lia.
  - destruct (decide (x = y)) as [->|Hxy].
    + lia.
    + rewrite lookup_insert_ne by naive_solver. lia.
Qed.

Lemma count_scan_spec gl al cnt rem :
  (∀ c, default 0 (cnt !! c) = rem c) →
  (scan count_cell gl al (marks_ag gl al) cnt).1
  = encode_mark <$> spec_second_pass gl al rem.
Proof.
  revert al cnt rem. induction gl as [|x gl IH]; intros [|y al] cnt rem Hrem;
    try done.
  cbn [marks_ag zip_with scan spec_second_pass]. unfold count_cell.
  rewrite Hrem.
  destruct (decide (y = x)) as [->|Hne].
  - rewrite decide_True by done. rewrite decide_True by done.
    specialize (IH al cnt rem Hrem). unfold marks_ag in IH.
    destruct (scan _ gl al _ cnt). simpl in *. by rewrite IH.
  - rewrite decide_False by done. rewrite (decide_False (P := x = y)) by done.
    destruct (decide (0 < rem x)).
    + specialize (IH al (<[x:=rem x - 1]> cnt) (take_one x rem)).
      unfold marks_ag in IH.
      destruct (scan _ gl al _ (<[x:=rem x - 1]> cnt)). simpl in *.
      rewrite IH; [done|]. intros c. unfold take_one. case_decide; subst.
      * by rewrite lookup_insert_eq.
      * rewrite lookup_insert_ne by done. apply Hrem.
    + specialize (IH al cnt rem Hrem). unfold marks_ag in IH.
      destruct (scan _ gl al _ cnt). simpl in *. by rewrite IH.
Qed.

Lemma tally_scan_spec gl al cnt rem :
  (∀ c, default 0 (cnt !! c) = rem c) →
  (scan tally_cell gl al (marks_ga gl al) cnt).1
  = encode_mark <$> spec_second_pass gl al rem.
Proof.
  revert al cnt rem. induction gl as [|x gl IH]; intros [|y al] cnt rem Hrem;
    try done.
  cbn [marks_ga zip_with scan spec_second_pass]. unfold tally_cell.
  rewrite Hrem.
  destruct (decide (x = y)) as [->|Hne].
  - rewrite decide_False by done.
    specialize (IH al cnt rem Hrem). unfold marks_ga in IH.
    destruct (scan _ gl al _ cnt). simpl in *. by rewrite IH.
  - rewrite decide_True by done.
    destruct (decide (0 < rem x)).
    + specialize (IH al (<[x:=rem x - 1]> cnt) (take_one x rem)).
      unfold marks_ga in IH.
      destruct (scan _ gl al _ (<[x:=rem x - 1]> cnt)). simpl in *.
      rewrite IH; [done|]. intros c. unfold take_one. case_decide; subst.
      * by rewrite lookup_insert_eq.
      * rewrite lookup_insert_ne by done. apply Hrem.
    + specialize (IH al cnt rem Hrem). unfold marks_ga in IH.
      destruct (scan _ gl al _ cnt). simpl in *. by rewrite IH.
Qed.

(** Answer positions still free in the [used] array, per letter. *)
Fixpoint free_count (c : L) al used : nat :=
  match al, used with
  | y :: al', u :: used' =>
      (if negb u && bool_decide (y = c) then 1 else 0) + free_count c al' used'
  | _, _ => 0
  end.

Lemma free_count_used_ga c gl al :
  length gl = length al →
  free_count c al (used_ga gl al) = unmatched_count c gl al.
Proof.
  revert al. induction gl as [|x gl IH]; intros [|y al] Hlen; try done.
  simpl in *. rewrite IH by lia.
  destruct (decide (x = y)) as [->|Hxy]; simpl.
  - by rewrite decide_False by naive_solver.
  - destruct (decide (y = c)) as [->|Hyc].
    + by rewrite bool_decide_eq_true_2, decide_True.
    + by rewrite bool_decide_eq_false_2, decide_False by naive_solver.
Qed.

Lemma claim_unused_spec a ch n : ∀ k pre used,
  length pre = k → length used = n →
  match claim_unused a ch (seq k n) (pre ++ used) with
  | None => free_count ch (a <$> seq k n) used = 0
  | Some u' =>
      ∃ used', u' = pre ++ used' ∧ length used' = n ∧
        ∀ c, free_count c (a <$> seq k n) used'
             + (if decide (c = ch) then 1 else 0)
             = free_count c (a <$> seq k n) used
  end.
Proof.
  induction n as [|n IH]; intros k pre used Hk Hn.
  - by destruct used.
  - destruct used as [|u used]; [done|]. simpl in Hn.
    cbn [seq claim_unused fmap list_fmap free_count].
    rewrite list_lookup_middle by done. cbn [default].
    destruct u; cbn [negb andb].
    + specialize (IH (S k) (pre ++ [true]) used).
      rewrite <-app_assoc in IH. cbn [app] in IH.
      destruct (claim_unused a ch (seq (S k) n) (pre ++ true :: used)).
      * destruct IH as (used' & -> & Hlen & Hc); [rewrite length_app; simpl; lia|lia|].
        exists (true :: used'). rewrite <-app_assoc. repeat split; [simpl; lia|].
        intros c. simpl. apply Hc.
      * simpl. apply IH; [rewrite length_app; simpl; lia|lia].
    + case_bool_decide as Hch.
      * exists (true :: used). repeat split.
        -- rewrite insert_app_r_alt by lia. by replace (k - length pre) with 0 by lia.
        -- simpl. lia.
        -- intros c. simpl. subst ch.
           case_bool_decide; case_decide; try congruence; lia.
      * specialize (IH (S k) (pre ++ [false]) used).
        rewrite <-app_assoc in IH. cbn [app] in IH.
        destruct (claim_unused a ch (seq (S k) n) (pre ++ false :: used)).
        -- destruct IH as (used' & -> & Hlen & Hc); [rewrite length_app; simpl; lia|lia|].
           exists (false :: used'). rewrite <-app_assoc. repeat split; [simpl; lia|].
           intros c. simpl. specialize (Hc c). lia.
        -- simpl. apply IH; [rewrite length_app; simpl; lia|lia].
Qed.

Lemma used_scan_spec a gl al used rem :
  length used = 5 →
  (∀ c, free_count c (cells a) used = rem c) →
  (scan (used_cell a) gl al (marks_ga gl al) used).1
  = encode_mark <$> spec_second_pass gl al rem.
Proof.
  revert al used rem. induction gl as [|x gl IH]; intros [|y al] used rem Hlen Hrem;
    try done.
  cbn [marks_ga zip_with scan spec_second_pass]. unfold used_cell.
  destruct (decide (x = y)) as [->|Hne].
  - rewrite decide_True by done.
    specialize (IH al used rem Hlen Hrem). unfold marks_ga in IH.
    destruct (scan _ gl al _ used). simpl in *. by rewrite IH.
  - rewrite decide_False by done.
    pose proof (claim_unused_spec a x 5 0 [] used eq_refl Hlen) as Hclaim.
    rewrite app_nil_l in Hclaim. fold (cells a) in Hclaim.
    destruct (claim_unused a x (seq 0 5) used) as [u'|].
    + destruct Hclaim as (used' & -> & Hlen' & Hc). rewrite app_nil_l.
      rewrite decide_True; last first.
      { specialize (Hc x). rewrite decide_True in Hc by done.
        rewrite <-Hrem. lia. }
      specialize (IH al used' (take_one x rem) Hlen'). unfold marks_ga in IH.
      destruct (scan _ gl al _ used'). simpl in *.
      rewrite IH; [done|]. intros c. unfold take_one. specialize (Hc c).
      rewrite <-Hrem. case_decide; lia.
    + rewrite decide_False by (rewrite <-Hrem; lia).
      specialize (IH al used rem Hlen Hrem). unfold marks_ga in IH.
      destruct (scan _ gl al _ used). simpl in *. by rewrite IH.
Qed.

Lemma pattern_res_spec g a :
  pattern_res g a = encode_mark <$> spec_compute (cells g) (cells a).
Proof.
  rewrite pattern_res_scan. apply count_scan_spec.
  intros c. by rewrite tally_ag_lookup, lookup_empty.
Qed.

Lemma used_res_spec g a :
  used_res g a = encode_mark <$> spec_compute (cells g) (cells a).
Proof.
  rewrite used_res_scan. apply used_scan_spec; [done|].
  intros c. by apply free_count_used_ga.
Qed.

Lemma tally_res_spec g a :
  tally_res g a = encode_mark <$> spec_compute (cells g) (cells a).
Proof.
  rewrite tally_res_scan. apply tally_scan_spec.
  intros c. by rewrite tally_ga_lookup, lookup_empty.
Qed.
End refine.

(** *** Properties of the specified code *)

(** Number of positions at which two aligned sequences satisfy [P]. *)
Fixpoint count2 {A B} (P : A → B → Prop) `{∀ x y, Decision (P x y)}
    (l1 : list A) (l2 : list B) : nat :=
  match l1, l2 with
  | x :: l1', y :: l2' => (if decide (P x y) then 1 else 0) + count2 P l1' l2'
  | _, _ => 0
  end.

Section spec_facts.
Context {L : Type} `{EqDecision L}.
Implicit Types (gl al : list L) (rem : L → nat).

Lemma spec_second_pass_length gl al rem :
  length gl = length al → length (spec_second_pass gl al rem) = length gl.
Proof.
  revert al rem. induction gl as [|x gl IH]; intros [|y al] rem Hlen; try done.
  simpl in *. repeat case_decide; simpl; rewrite IH; lia.
Qed.

Lemma spec_second_pass_all_correct gl al rem :
  length gl = length al →
  spec_second_pass gl al rem = replicate (length gl) Correct ↔ gl = al.
Proof.
  revert al rem. induction gl as [|x gl IH]; intros [|y al] rem Hlen; try done.
  simpl in *. split.
  - repeat case_decide; intros [=]; subst. f_equal. eapply IH; [lia|done].
  - intros [= -> ->]. rewrite decide_True by done. f_equal. by apply IH.
Qed.

Lemma spec_second_pass_present c gl al rem :
  count2 (λ x m, x = c ∧ m = Present) gl (spec_second_pass gl al rem) ≤ rem c.
Proof.
  revert al rem. induction gl as [|x gl IH]; intros [|y al] rem; simpl; try lia.
  destruct (decide (x = y)) as [->|Hxy]; simpl.
  - rewrite decide_False by naive_solver. apply IH.
  - destruct (decide (0 < rem x)); simpl.
    + specialize (IH al (take_one x rem)). unfold take_one in IH at 2.
      destruct (decide (x = c)) as [->|Hxc].
      * rewrite decide_True by done. rewrite decide_True in IH by done. lia.
      * rewrite decide_False by naive_solver.
        rewrite decide_False in IH by done. lia.
    + rewrite decide_False by naive_solver. apply IH.
Qed.

Lemma unmatched_count_count2 c gl al :
  unmatched_count c gl al = count2 (λ x y, x ≠ y ∧ y = c) gl al.
Proof.
  revert al. induction gl as [|x gl IH]; intros [|y al]; simpl; try done.
  by rewrite IH.
Qed.

Lemma unmatched_count_le c gl al :
  unmatched_count c gl al ≤ length (filter (λ y, y = c) al).
Proof.
  revert al. induction gl as [|x gl IH]; intros [|y al]; simpl; try lia.
  specialize (IH al). rewrite filter_cons.
  repeat case_decide; simpl; naive_solver lia.
Qed.
End spec_facts.

(** *** Strings of five letters *)

Lemma char_at_join res i : char_at (join_chars res) i = res !! i.
Proof.
  unfold char_at, join_chars. revert i.
  induction res as [|r res IH]; intros [|i]; simpl; auto.
Qed.

Lemma cells_join res :
  length res = 5 → cells (char_at (join_chars res)) = Some <$> res.
Proof.
  intros Hlen. unfold cells. cbn [seq fmap list_fmap]. rewrite !char_at_join.
  do 5 (destruct res as [|? res]; [done|]). by destruct res.
Qed.

Lemma cells_string w :
  String.length w = 5 → cells (char_at w) = Some <$> list_ascii_of_string w.
Proof.
  intros Hlen. do 5 (destruct w as [|? w]; [done|]). by destruct w.
Qed.

Lemma cells_inj (g a : string) :
  String.length g = 5 → String.length a = 5 →
  cells (char_at g) = cells (char_at a) → g = a.
Proof.
  intros Hg Ha. rewrite !cells_string by done. intros Heq.
  apply (inj (fmap Some)) in Heq.
  rewrite <-(string_of_list_ascii_of_string g), <-(string_of_list_ascii_of_string a).
  by rewrite Heq.
Qed.

Lemma join_chars_inj res1 res2 : join_chars res1 = join_chars res2 → res1 = res2.
Proof.
  unfold join_chars. intros Heq.
  rewrite <-(list_ascii_of_string_of_list_ascii res1),
          <-(list_ascii_of_string_of_list_ascii res2).
  by rewrite Heq.
Qed.

Lemma spec_pattern_all_correct (g a : string) :
  String.length g = 5 → String.length a = 5 →
  spec_pattern g a = "22222" ↔ g = a.
Proof.
  intros Hg Ha. unfold spec_pattern, spec_compute.
  change "22222" with (join_chars (encode_mark <$> replicate 5 Correct)).
  split.
  - intros Heq%join_chars_inj. apply cells_inj; [done..|].
    apply (inj (fmap encode_mark)) in Heq.
    by apply spec_second_pass_all_correct in Heq.
  - intros ->. f_equal. f_equal.
    by apply (spec_second_pass_all_correct (cells (char_at a))).
Qed.

Lemma pattern_spec guess answer : pattern guess answer = spec_pattern guess answer.
Proof. unfold pattern, spec_pattern. by rewrite pattern_res_spec. Qed.
Lemma patternOf_spec guess answer : patternOf guess answer = spec_pattern guess answer.
Proof. unfold patternOf, spec_pattern. by rewrite used_res_spec. Qed.
Lemma patternFor_spec g a : patternFor g a = spec_pattern g a.
Proof. unfold patternFor, spec_pattern. by rewrite used_res_spec. Qed.
Lemma tablegen_patternFor_spec guess answer :
  TableGen.patternFor guess answer = spec_pattern guess answer.
Proof. unfold TableGen.patternFor, spec_pattern. by rewrite tally_res_spec. Qed.

(** Guess positions holding [c] that the code [pat] marks ['1']. *)
Definition yellow_count (c : ascii) (guess pat : string) : nat :=
  count2 (λ x m, x = Some c ∧ m = Some "1"%char)
    (cells (char_at guess)) (cells (char_at pat)).

(** Secret positions holding [c] that the guess does not match. *)
Definition unmatched_in_secret (c : ascii) (guess answer : string) : nat :=
  count2 (λ x y, x ≠ y ∧ y = Some c)
    (cells (char_at guess)) (cells (char_at answer)).

(** Occurrences of [c] in the secret. *)
Definition occurrences (c : ascii) (answer : string) : nat :=
  length (filter (λ y, y = Some c) (cells (char_at answer))).

Lemma count2_fmap_r {A B C} (P : A → C → Prop) `{∀ x y, Decision (P x y)}
    (f : B → C) (l1 : list A) (l2 : list B) :
  count2 P l1 (f <$> l2) = count2 (λ x y, P x (f y)) l1 l2.
Proof.
  revert l2. induction l1 as [|x l1 IH]; intros [|y l2]; simpl; try done.
  by rewrite IH.
Qed.

Lemma count2_ext {A B} (P Q : A → B → Prop)
    `{∀ x y, Decision (P x y)} `{∀ x y, Decision (Q x y)} l1 l2 :
  (∀ x y, P x y ↔ Q x y) → count2 P l1 l2 = count2 Q l1 l2.
Proof.
  intros HPQ. revert l2. induction l1 as [|x l1 IH]; intros [|y l2]; simpl; try done.
  rewrite IH. f_equal. repeat case_decide; naive_solver.
Qed.

Lemma spec_pattern_yellows c guess answer :
  yellow_count c guess (spec_pattern guess answer)
  ≤ unmatched_in_secret c guess answer.
Proof.
  unfold yellow_count, unmatched_in_secret, spec_pattern.
  rewrite cells_join; last first.
  { rewrite length_fmap. unfold spec_compute.
    by rewrite spec_second_pass_length. }
  rewrite <-list_fmap_compose, count2_fmap_r.
  rewrite <-unmatched_count_count2.
  pose proof (spec_second_pass_present (Some c) (cells (char_at guess))
    (cells (char_at answer))
    (λ c', unmatched_count c' (cells (char_at guess)) (cells (char_at answer))))
    as Hle.
  cbv beta in Hle. etrans; [|exact Hle].
  unfold spec_compute. apply Nat.eq_le_incl, count2_ext.
  intros x m. simpl. split; intros [-> Hm]; split; try done.
  - by destruct m.
  - by subst.
Qed.

(** The specified code does not depend on how letters are represented. *)
Lemma unmatched_count_fmap {A B} `{EqDecision A, EqDecision B} (f : A → B)
    `{!Inj (=) (=) f} c (gl al : list A) :
  unmatched_count (f c) (f <$> gl) (f <$> al) = unmatched_count c gl al.
Proof.
  revert al. induction gl as [|x gl IH]; intros [|y al]; simpl; try done.
  rewrite IH. f_equal.
  destruct (decide (x ≠ y ∧ y = c)) as [[Hxy ->]|Hn].
  - rewrite decide_True; [done|]. split; [|done]. by intros ?%(inj f).
  - rewrite decide_False; [done|]. intros [Hxy Hyc%(inj f)]. apply Hn.
    split; [|done]. by intros ->.
Qed.

Lemma spec_second_pass_fmap {A B} `{EqDecision A, EqDecision B} (f : A → B)
    `{!Inj (=) (=) f} (gl al : list A) (rem : A → nat) (rem' : B → nat) :
  (∀ c, rem' (f c) = rem c) →
  spec_second_pass (f <$> gl) (f <$> al) rem' = spec_second_pass gl al rem.
Proof.
  revert al rem rem'. induction gl as [|x gl IH]; intros [|y al] rem rem' Hrem;
    simpl; try done.
  rewrite Hrem. destruct (decide (x = y)) as [->|Hxy].
  - rewrite decide_True by done. f_equal. by apply IH.
  - rewrite decide_False by (by intros ?%(inj f)).
    destruct (decide (0 < rem x)); f_equal; [|by apply IH].
    apply IH. intros c. unfold take_one.
    destruct (decide (c = x)) as [->|Hc].
    + by rewrite decide_True, Hrem.
    + rewrite decide_False by (by intros ?%(inj f)). apply Hrem.
Qed.

Lemma spec_compute_fmap {A B} `{EqDecision A, EqDecision B} (f : A → B)
    `{!Inj (=) (=) f} (gl al : list A) :
  spec_compute (f <$> gl) (f <$> al) = spec_compute gl al.
Proof.
  unfold spec_compute. apply spec_second_pass_fmap; [done|].
  intros c. by apply unmatched_count_fmap.
Qed.

(** On five-letter words the code is the two-pass algorithm run on the
    letters of the words. *)
Lemma spec_pattern_letters guess answer :
  String.length guess = 5 → String.length answer = 5 →
  spec_pattern guess answer
  = join_chars (encode_mark <$>
      spec_compute (list_ascii_of_string guess) (list_ascii_of_string answer)).
Proof.
  intros Hg Ha. unfold spec_pattern. rewrite !cells_string by done.
  by rewrite (spec_compute_fmap Some).
Qed.

Lemma unmatched_in_secret_le c guess answer :
  unmatched_in_secret c guess answer ≤ occurrences c answer.
Proof.
  unfold unmatched_in_secret, occurrences.
  rewrite <-unmatched_count_count2. apply unmatched_count_le.
Qed.

End Feedback.

(** ** JS [Map] with string keys *)

Module JsMap.
Section jsmap.
Context {V : Type}.
Implicit Types (m : list (string * V)) (k : string) (v : V).

(** [m.get(k)]; [None] is [undefined]. *)
Fixpoint get k m : option V :=
  match m with
  | [] => None
  | (q, w) :: m' => if decide (q = k) then Some w else get k m'
  end.

(** [m.set(k, v)]: an existing key keeps its place, a new one goes last. *)
Fixpoint set k v m : list (string * V) :=
  match m with
  | [] => [(k, v)]
  | (q, w) :: m' => if decide (q = k) then (q, v) :: m' else (q, w) :: set k v m'
  end.

(** [m.size] *)
Definition size m : nat := length m.
End jsmap.
End JsMap.

(** ** Partition of a candidate set by feedback code *)

Module Partition.
Import Feedback.

(** A JS [Map] from pattern strings to arrays, in insertion order. *)
Definition buckets (A : Type) : Type := list (string * list A).

Section map.
Context {A : Type}.
Implicit Types (m : buckets A) (p k : string) (x : A) (arr : list A).

(** [Array.from(map.keys())] and [Array.from(map.values())] *)
Definition map_keys m : list string := m.*1.
Definition map_values m : list (list A) := m.*2.

(** The loop body
    [let arr = map.get(p); if (!arr) { arr = []; map.set(p, arr); } arr.push(x);]
    The array is shared with the map, so the push lands in the bucket. *)
Fixpoint bucket_push p x m : buckets A :=
  match m with
  | [] => [(p, [x])]
  | (q, arr) :: m' =>
      if decide (q = p) then (q, arr ++ [x]) :: m'
      else (q, arr) :: bucket_push p x m'
  end.

(** [for (const ans of S) { const p = code(ans); ... }] *)
Definition partition_with (code : A → string) (S : list A) : buckets A :=
  foldl (λ map ans, bucket_push (code ans) ans map) [] S.
End map.

(** main.js *)
Definition partitionByPattern (S : list string) (guess : string) : buckets string :=
  partition_with (λ ans, pattern guess ans) S.

(** dp_solver.js; [patternMatrix] is the precomputed table. *)
Definition partitionState (patternMatrix : nat → nat → string)
    (SIndices : list nat) (guessIdx : nat) : buckets nat :=
  let row := patternMatrix guessIdx in
  partition_with (λ ansIdx, row ansIdx) SIndices.

Example partitionByPattern_ex :
  partitionByPattern ["abide"; "speed"; "crane"; "abode"] "abide"
  = [("22222", ["abide"]); ("00011", ["speed"]); ("10002", ["crane"]);
     ("22022", ["abode"])].
Proof. vm_compute. reflexivity. Qed.

Section map_facts.
Context {A : Type}.
Implicit Types (m : buckets A) (p k : string) (x : A) (arr : list A).
Implicit Types (code : A → string) (S : list A).

Lemma map_get_push p x m k :
  JsMap.get k (bucket_push p x m)
  = if decide (k = p) then Some (default [] (JsMap.get p m) ++ [x])
    else JsMap.get k m.
Proof.
  induction m as [|[q arr] m IH]; simpl.
  - repeat case_decide; naive_solver.
  - destruct (decide (q = p)) as [->|Hqp]; simpl.
    + repeat case_decide; naive_solver.
    + rewrite IH. repeat case_decide; naive_solver.
Qed.

Lemma map_keys_push p x m :
  map_keys (bucket_push p x m)
  = if decide (p ∈ map_keys m) then map_keys m else map_keys m ++ [p].
Proof.
  unfold map_keys. induction m as [|[q arr] m IH]; [done|].
  cbn [bucket_push]. destruct (decide (q = p)) as [->|Hqp].
  - rewrite !fmap_cons. cbn [fst]. rewrite decide_True; [done|]. left.
  - rewrite !fmap_cons. cbn [fst]. rewrite IH. destruct (decide (p ∈ m.*1)).
    + rewrite decide_True; [done|]. by right.
    + rewrite decide_False; [done|]. rewrite elem_of_cons. naive_solver.
Qed.

Lemma map_get_Some_elem k arr m : JsMap.get k m = Some arr → (k, arr) ∈ m.
Proof.
  induction m as [|[q a] m IH]; simpl; [done|].
  case_decide; [intros [= <-]; subst; left|intros ?; right; auto].
Qed.

Lemma map_get_None k m : JsMap.get k m = None ↔ k ∉ map_keys m.
Proof.
  unfold map_keys. induction m as [|[q a] m IH]; simpl.
  - split; [intros _ ?%elem_of_nil; done|done].
  - rewrite elem_of_cons. case_decide; naive_solver.
Qed.

Lemma elem_map_get k arr m : NoDup (map_keys m) → (k, arr) ∈ m → JsMap.get k m = Some arr.
Proof.
  unfold map_keys. induction m as [|[q a] m IH]; simpl.
  - by intros _ ?%elem_of_nil.
  - intros [Hq Hnd]%NoDup_cons [[= -> ->]|Hin]%elem_of_cons.
    + by rewrite decide_True.
    + rewrite decide_False; [auto|]. intros ->. apply Hq.
      apply list_elem_of_fmap. by exists (k, arr).
Qed.

Lemma partition_with_snoc code S x :
  partition_with code (S ++ [x]) = bucket_push (code x) x (partition_with code S).
Proof. unfold partition_with. by rewrite foldl_app. Qed.

(** The bucket of a code holds, in order, the elements with that code. *)
Lemma partition_with_get code S k :
  default [] (JsMap.get k (partition_with code S)) = filter (λ x, code x = k) S.
Proof.
  induction S as [|x S IH] using rev_ind; [done|].
  rewrite partition_with_snoc, map_get_push, filter_app, filter_cons, filter_nil.
  destruct (decide (k = code x)) as [->|Hk].
  - rewrite decide_True by done. simpl. by rewrite IH.
  - rewrite decide_False by done. by rewrite app_nil_r.
Qed.

Lemma partition_with_keys code S k :
  k ∈ map_keys (partition_with code S) ↔ ∃ x, x ∈ S ∧ code x = k.
Proof.
  induction S as [|x S IH] using rev_ind.
  - split; [by intros ?%elem_of_nil|]. intros (x & ?%elem_of_nil & _). done.
  - rewrite partition_with_snoc, map_keys_push.
    setoid_rewrite elem_of_app. setoid_rewrite list_elem_of_singleton.
    case_decide as Hin.
    + rewrite IH. split; [naive_solver|].
      intros (y & [Hy| ->] & Hcode); [naive_solver|].
      subst k. by apply IH.
    + rewrite elem_of_app, list_elem_of_singleton, IH. naive_solver.
Qed.

Lemma partition_with_NoDup code S : NoDup (map_keys (partition_with code S)).
Proof.
  induction S as [|x S IH] using rev_ind; [constructor|].
  rewrite partition_with_snoc, map_keys_push. case_decide; [done|].
  apply NoDup_app. split_and!; [done| |apply NoDup_singleton].
  intros k Hk ->%list_elem_of_singleton. done.
Qed.

Lemma partition_with_elem code S k arr :
  (k, arr) ∈ partition_with code S →
  arr = filter (λ x, code x = k) S ∧ arr ≠ [].
Proof.
  intros Hin.
  pose proof (elem_map_get _ _ _ (partition_with_NoDup code S) Hin) as Hget.
  pose proof (partition_with_get code S k) as Hf. rewrite Hget in Hf. simpl in Hf.
  split; [done|]. subst arr.
  assert (k ∈ map_keys (partition_with code S)) as (x & Hx & Hc)%partition_with_keys.
  { apply list_elem_of_fmap. by exists (k, filter (λ x, code x = k) S). }
  intros Hnil. assert (x ∈ filter (λ x, code x = k) S) as Hxin.
  { by apply list_elem_of_filter. }
  rewrite Hnil in Hxin. by apply elem_of_nil in Hxin.
Qed.

Lemma bucket_push_sizes p x m :
  sum_list (length <$> map_values (bucket_push p x m))
  = S (sum_list (length <$> map_values m)).
Proof.
  unfold map_values. induction m as [|[q arr] m IH]; [done|].
  cbn [bucket_push]. case_decide; rewrite !fmap_cons; cbn [snd sum_list].
  - rewrite length_app. simpl. lia.
  - rewrite IH. lia.
Qed.

Lemma partition_with_sizes code S :
  sum_list (length <$> map_values (partition_with code S)) = length S.
Proof.
  induction S as [|x S IH] using rev_ind; [done|].
  rewrite partition_with_snoc, bucket_push_sizes, IH, length_app. simpl. lia.
Qed.
End map_facts.

End Partition.

(** ** JS numbers: exact rationals and [Infinity] *)

Module Num.
Local Open Scope Qc_scope.

Inductive num := Fin (q : Qc) | Inf.

#[global] Instance num_eq_dec : EqDecision num.
Proof. solve_decision. Defined.

(** [x + y], [x * y] and [m / n] on array lengths; [NaN] is not
    represented, and the solvers never form [Infinity * 0] or [0 / 0]. *)
Definition add (x y : num) : num :=
  match x, y with
  | Fin a, Fin b => Fin (a + b)
  | _, _ => Inf
  end.

Definition mul (x y : num) : num :=
  match x, y with
  | Fin a, Fin b => Fin (a * b)
  | _, _ => Inf
  end.

Definition of_nat (n : nat) : num := Fin (Qc_of_Z (Z.of_nat n)).

Definition div_nat (m n : nat) : num :=
  if decide (n = 0%nat) then Inf
  else Fin (Qc_of_Z (Z.of_nat m) / Qc_of_Z (Z.of_nat n)).

(** [x < y] and [x >= y] *)
Definition lt (x y : num) : bool :=
  match x, y with
  | Fin a, Fin b => bool_decide (a < b)
  | Fin _, Inf => true
  | Inf, _ => false
  end.

Definition ge (x y : num) : bool :=
  match x, y with
  | Fin a, Fin b => bool_decide (b ≤ a)
  | Inf, _ => true
  | Fin _, Inf => false
  end.

Definition zero : num := Fin 0.
Definition one : num := Fin 1.

End Num.

Declare Scope num_scope.
Delimit Scope num_scope with num.
Bind Scope num_scope with Num.num.
Notation "x + y" := (Num.add x y) : num_scope.
Notation "x * y" := (Num.mul x y) : num_scope.
Notation "m // n" := (Num.div_nat m n) (at level 40, no associativity) : num_scope.
Notation "x <? y" := (Num.lt x y) : num_scope.
Notation "x >=? y" := (Num.ge x y) (at level 70) : num_scope.
Notation "0" := Num.zero : num_scope.
Notation "1" := Num.one : num_scope.

(** ** State and fuel: the monad the solvers run in *)

Module Run.

Definition M (Σ A : Type) : Type := Σ → option (A * Σ).

Definition ret {Σ A} (a : A) : M Σ A := λ σ, Some (a, σ).

Definition bind {Σ A B} (c : M Σ A) (k : A → M Σ B) : M Σ B :=
  λ σ, match c σ with
       | Some (a, σ') => k a σ'
       | None => None
       end.

(** The call stack is exhausted. *)
Definition out_of_fuel {Σ A} : M Σ A := λ _, None.

Definition get_state {Σ} : M Σ Σ := λ σ, Some (σ, σ).
Definition update {Σ} (f : Σ → Σ) : M Σ unit := λ σ, Some (tt, f σ).

(** Outcome of one round of a loop body. *)
Inductive ctl (A : Type) := Continue (a : A) | Break (a : A).
Arguments Continue {A} a.
Arguments Break {A} a.

(** [for (const x of xs) { ... }] over a loop-carried value, with [break]. *)
Fixpoint for_of {Σ X A} (xs : list X) (acc : A) (body : A → X → M Σ (ctl A))
    : M Σ A :=
  match xs with
  | [] => ret acc
  | x :: xs' =>
      bind (body acc x) (λ r,
        match r with
        | Continue a => for_of xs' a body
        | Break a => ret a
        end)
  end.

End Run.

Notation "'let*' x := c 'in' k" := (Run.bind c (λ x, k))
  (at level 10, x name, c at level 100, k at level 200).

(** ** Cache keys: [cands.join(',')] *)

Module Key.

(** [cands.join(',')] on an array of indices. *)
Fixpoint join_comma (cands : list nat) : string :=
  match cands with
  | [] => ""
  | x :: cands' =>
      match cands' with
      | [] => pretty x
      | _ :: _ => pretty x +:+ "," +:+ join_comma cands'
      end
  end.

Example join_comma_ex : join_comma [0; 5; 17] = "0,5,17".
Proof. vm_compute. reflexivity. Qed.

Fixpoint comma_free (s : string) : Prop :=
  match s with
  | EmptyString => True
  | String c s' => c ≠ ","%char ∧ comma_free s'
  end.

Lemma pretty_N_go_comma_free x s : comma_free s → comma_free (pretty_N_go x s).
Proof.
  revert s. induction (N.lt_wf_0 x) as [x _ IH]; intros s Hs.
  assert (x = 0 ∨ 0 < x)%N as [->|?] by lia.
  - by rewrite pretty_N_go_0.
  - rewrite pretty_N_go_step by done. apply IH.
    { by apply N.div_lt. }
    split; [|done]. unfold pretty_N_char. by repeat case_match.
Qed.

Lemma pretty_N_go_length x s : String.length s ≤ String.length (pretty_N_go x s).
Proof.
  revert s. induction (N.lt_wf_0 x) as [x _ IH]; intros s.
  assert (x = 0 ∨ 0 < x)%N as [->|?] by lia; [by rewrite pretty_N_go_0|].
  rewrite pretty_N_go_step by done.
  etrans; [|by eapply IH, N.div_lt]. simpl. lia.
Qed.

Lemma pretty_nat_comma_free (n : nat) : comma_free (pretty n).
Proof.
  unfold pretty, pretty_nat, pretty, pretty_N. case_decide; [by compute|].
  by apply pretty_N_go_comma_free.
Qed.

Lemma pretty_nat_nonempty (n : nat) : pretty n ≠ "".
Proof.
  unfold pretty, pretty_nat, pretty, pretty_N. case_decide; [done|].
  intros Heq. assert (0 < N.of_nat n)%N by lia.
  pose proof (pretty_N_go_length (N.of_nat n `div` 10)
    (String (pretty_N_char (N.of_nat n `mod` 10)) "")) as Hlen.
  rewrite <-pretty_N_go_step, Heq in Hlen by done. simpl in Hlen. lia.
Qed.

Lemma append_nil s : "" +:+ s = s.
Proof. reflexivity. Qed.
Lemma append_cons c s r : String c s +:+ r = String c (s +:+ r).
Proof. reflexivity. Qed.

Lemma comma_free_split s1 s2 r1 r2 :
  comma_free s1 → comma_free s2 →
  s1 +:+ "," +:+ r1 = s2 +:+ "," +:+ r2 → s1 = s2 ∧ r1 = r2.
Proof.
  revert s2. induction s1 as [|c s1 IH]; intros [|d s2];
    repeat (rewrite append_nil || rewrite append_cons); simpl.
  - by intros _ _ [= ->].
  - intros _ [Hd _] [= <- _]. done.
  - intros [Hc _] _ [= -> _]. done.
  - intros [_ H1] [_ H2] [= -> Heq]. destruct (IH s2 H1 H2 Heq) as [-> ->]. done.
Qed.

Lemma comma_free_app s r : comma_free (s +:+ "," +:+ r) → False.
Proof.
  induction s as [|c s IH]; repeat (rewrite append_nil || rewrite append_cons); simpl.
  - by intros [? _].
  - intros [_ ?]. auto.
Qed.

Lemma join_comma_one x : join_comma [x] = pretty x.
Proof. reflexivity. Qed.
Lemma join_comma_more x y l :
  join_comma (x :: y :: l) = pretty x +:+ "," +:+ join_comma (y :: l).
Proof. reflexivity. Qed.

Lemma append_nonempty s r : s ≠ "" → s +:+ r ≠ "".
Proof. destruct s; [done|]. by rewrite append_cons. Qed.

#[global] Instance join_comma_inj : Inj (=) (=) join_comma.
Proof.
  intros l1. induction l1 as [|x l1 IH]; intros l2 Heq.
  - destruct l2 as [|y [|y' l2]]; [done|..].
    + rewrite join_comma_one in Heq. by destruct (pretty_nat_nonempty y).
    + rewrite join_comma_more in Heq.
      by destruct (append_nonempty (pretty y) ("," +:+ join_comma (y' :: l2))
                     (pretty_nat_nonempty y)).
  - destruct l1 as [|x' l1], l2 as [|y [|y' l2]];
      rewrite ?join_comma_one, ?join_comma_more in Heq.
    + by destruct (pretty_nat_nonempty x).
    + by apply (inj pretty) in Heq as ->.
    + destruct (comma_free_app (pretty y) (join_comma (y' :: l2))).
      rewrite <-Heq. apply pretty_nat_comma_free.
    + by destruct (append_nonempty (pretty x) ("," +:+ join_comma (x' :: l1))
                     (pretty_nat_nonempty x)).
    + destruct (comma_free_app (pretty x) (join_comma (x' :: l1))).
      rewrite Heq. apply pretty_nat_comma_free.
    + apply comma_free_split in Heq as [Hxy Hl]; [|apply pretty_nat_comma_free..].
      apply (inj pretty) in Hxy as ->. by rewrite (IH _ Hl).
Qed.

End Key.

(** ** The pattern table

    [PAT[i][j] = patternFor(WORDS[i], WORDS[j])], filled once for all pairs
    of indices below [WORDS.length] and only read afterwards.  The table is
    the function below; it is only ever read at indices in range. *)

Definition word_at (WORDS : list string) (i : nat) : string :=
  default "" (WORDS !! i).

Definition pattern_table (patternFn : string → string → string)
    (WORDS : list string) : nat → nat → string :=
  λ i j, patternFn (word_at WORDS i) (word_at WORDS j).

(** A universe of distinct five-letter words. *)
Definition universe (WORDS : list string) : Prop :=
  NoDup WORDS ∧ Forall (λ w, String.length w = 5) WORDS.

Lemma pattern_table_diag patternFn WORDS :
  (∀ g a, patternFn g a = Feedback.spec_pattern g a) →
  universe WORDS →
  ∀ g a, g < length WORDS → a < length WORDS →
    pattern_table patternFn WORDS g a = "22222" ↔ g = a.
Proof.
  intros Hfn [Hnd Hlen] g a Hg Ha. unfold pattern_table, word_at. rewrite Hfn.
  destruct (lookup_lt_is_Some_2 WORDS g Hg) as [wg Hwg].
  destruct (lookup_lt_is_Some_2 WORDS a Ha) as [wa Hwa].
  rewrite Hwg, Hwa. simpl.
  rewrite Feedback.spec_pattern_all_correct.
  - split; [intros ->; by eapply NoDup_lookup|]. intros ->. congruence.
  - eapply (proj1 (Forall_forall _ _)) in Hlen; [done|].
    by eapply list_elem_of_lookup_2.
  - eapply (proj1 (Forall_forall _ _)) in Hlen; [done|].
    by eapply list_elem_of_lookup_2.
Qed.

(** ** dp_top_blocks.js: bounded memo, closed policy *)

Module DpTopBlocks.
Import Num Run Partition Key.
Local Open Scope num_scope.

Definition MAX_MEMO_ENTRIES : N := 8000000.
Definition EVICT_FRACTION : Qc := Q2Qc (1 # 10).

Definition memo_t : Type := list (string * num).

(** A cache in front of the solver: how a key is looked up and how a
    result is stored. *)
Record cache := Cache {
  cache_get : string → memo_t → option num;
  cache_put : string → num → memo_t → memo_t;
}.

(** [Math.max(1, Math.floor(max_entries * evict_fraction))] *)
Definition evict_count (max_entries : N) (evict_fraction : Qc) : N :=
  N.max 1 (Z.to_N (Qfloor (Qc_of_Z (Z.of_N max_entries) * evict_fraction)%Qc)).

(** [for (const k of memo.keys()) { memo.delete(k); removed++;
    if (removed >= toRemove) break; }]: the keys come oldest first. *)
Fixpoint evict_oldest (toRemove removed : N) (memo : memo_t) : memo_t :=
  match memo with
  | [] => []
  | _ :: memo' =>
      let removed := (removed + 1)%N in
      if (toRemove <=? removed)%N then memo'
      else evict_oldest toRemove removed memo'
  end.

(** [memoStore]: when the map is full, the oldest entries are deleted
    before the new one is set. *)
Definition memoStore (max_entries : N) (evict_fraction : Qc)
    (key : string) (value : num) (memo : memo_t) : memo_t :=
  let memo :=
    if (max_entries <=? N.of_nat (JsMap.size memo))%N then
      let toRemove := evict_count max_entries evict_fraction in
      evict_oldest toRemove 0 memo
    else memo in
  JsMap.set key value memo.

(** The cache of the script, a plain [Map], and no cache at all. *)
Definition bounded_cache (max_entries : N) (evict_fraction : Qc) : cache :=
  Cache JsMap.get (memoStore max_entries evict_fraction).
Definition unbounded_cache : cache := Cache JsMap.get JsMap.set.
Definition no_cache : cache := Cache (λ _ _, None) (λ _ _ memo, memo).

Section solver.
Variable N : nat.
Variable PAT : nat → nat → string.
Variable c : cache.
(** [prune] switches the branch-and-bound test; the script has it on. *)
Variable prune : bool.

Fixpoint solveTail_with (fuel : nat) (cands : list nat) : M memo_t num :=
  let len := length cands in
  if decide (len ≤ 0)%nat then ret 0
  else if decide (len = 1%nat) then ret 1
  else
    let key := join_comma cands in
    let* cached := (λ memo, Some (cache_get c key memo, memo)) in
    match cached with
    | Some v => ret v
    | None =>
        match fuel with
        | O => out_of_fuel
        | S fuel =>
            let size := len in
            let* bestE := for_of cands Inf (λ bestE gIdx,
              let buckets := partition_with (PAT gIdx) cands in
              let* expectedTail := for_of (map_values buckets) 0 (λ expectedTail arr,
                let bucketSize := length arr in
                let prob := bucketSize // size in
                let* subE := solveTail_with fuel arr in
                let expectedTail := expectedTail + prob * subE in
                if prune && (1 + expectedTail >=? bestE)
                then ret (Break expectedTail)
                else ret (Continue expectedTail)) in
              let totalE := 1 + expectedTail in
              if totalE <? bestE then ret (Continue totalE)
              else ret (Continue bestE)) in
            let* _ := update (cache_put c key bestE) in
            ret bestE
        end
    end.

Definition solveWithFixedRoot_with (fuel : nat) (gIdx : nat) : M memo_t num :=
  let size := N in
  let buckets := partition_with (PAT gIdx) (seq 0%nat N) in
  let* expectedTail := for_of (map_values buckets) 0 (λ expectedTail arr,
    let bucketSize := length arr in
    let prob := bucketSize // size in
    let* subE := solveTail_with fuel arr in
    ret (Continue (expectedTail + prob * subE))) in
  ret (1 + expectedTail).
End solver.

Definition solveTail (PAT : nat → nat → string) : nat → list nat → M memo_t num :=
  solveTail_with PAT (bounded_cache MAX_MEMO_ENTRIES EVICT_FRACTION) true.

Definition solveWithFixedRoot (N : nat) (PAT : nat → nat → string)
    : nat → nat → M memo_t num :=
  solveWithFixedRoot_with N PAT (bounded_cache MAX_MEMO_ENTRIES EVICT_FRACTION) true.

Definition demo_words : list string := ["abide"; "speed"; "crane"; "abode"; "spend"].

Example solveTail_demo :
  fst <$> solveTail (pattern_table Feedback.patternFor demo_words) 5%nat [0; 1; 2; 3; 4]%nat []
  = Some (Fin (Q2Qc (12 # 5))).
Proof. vm_compute. reflexivity. Qed.

End DpTopBlocks.

(** ** main.js, the top-K script: plain memo, closed policy *)

Module MainJs.
Import Num Run Partition Key.
Local Open Scope num_scope.

(** The two module-level maps [memo] and [choice]. *)
Record state := State {
  memo : list (string * num);
  choice : list (string * Z);
}.

Section solver.
Variable PAT : nat → nat → string.
(** [prune] switches the branch-and-bound test; the script has it on. *)
Variable prune : bool.

Fixpoint solveState_with (fuel : nat) (cands : list nat) : M state num :=
  let len := length cands in
  if decide (len ≤ 0)%nat then ret 0
  else if decide (len = 1%nat) then ret 1
  else
    let key := join_comma cands in
    let* cached := (λ σ, Some (JsMap.get key (memo σ), σ)) in
    match cached with
    | Some v => ret v
    | None =>
        match fuel with
        | O => out_of_fuel
        | S fuel =>
            let size := len in
            let* best := for_of cands (Inf, (-1)%Z) (λ best gIdx,
              let '(bestE, bestG) := best in
              let buckets := partition_with (PAT gIdx) cands in
              let* expectedSub := for_of (map_values buckets) 0 (λ expectedSub arr,
                let prob := length arr // size in
                let* subE := solveState_with fuel arr in
                let expectedSub := expectedSub + prob * subE in
                if prune && (expectedSub + 1 >=? bestE)
                then ret (Break Inf)
                else ret (Continue expectedSub)) in
              let totalE := 1 + expectedSub in
              if totalE <? bestE then ret (Continue (totalE, Z.of_nat gIdx))
              else ret (Continue (bestE, bestG))) in
            let '(bestE, bestG) := best in
            let* _ := update (λ σ, State (JsMap.set key bestE (memo σ)) (choice σ)) in
            let* _ := (if decide (0 ≤ bestG)%Z
                       then update (λ σ, State (memo σ) (JsMap.set key bestG (choice σ)))
                       else ret tt) in
            ret bestE
        end
    end.

Definition expectedGivenFirstGuess_with (fuel : nat) (rootIdx : nat)
    (allCands : list nat) : M state num :=
  let size := length allCands in
  let buckets := partition_with (PAT rootIdx) allCands in
  let* Esub := for_of (map_values buckets) 0 (λ Esub arr,
    let prob := length arr // size in
    let* subE := solveState_with fuel arr in
    ret (Continue (Esub + prob * subE))) in
  ret (1 + Esub).
End solver.

Definition solveState (PAT : nat → nat → string) : nat → list nat → M state num :=
  solveState_with PAT true.
Definition expectedGivenFirstGuess (PAT : nat → nat → string)
    : nat → nat → list nat → M state num :=
  expectedGivenFirstGuess_with PAT true.

Definition empty : state := State [] [].

End MainJs.

(** ** dp_top200.js: the all-correct bucket is skipped *)

Module DpTop200.
Import Num Run Partition Key.
Local Open Scope num_scope.

Record state := State {
  memo : list (string * num);
  choice : list (string * Z);
}.

Section solver.
Variable N : nat.
Variable PAT : nat → nat → string.
Variable prune : bool.

Fixpoint solveState_with (fuel : nat) (cands : list nat) : M state num :=
  let len := length cands in
  if decide (len ≤ 0)%nat then ret 0
  else if decide (len = 1%nat) then ret 1
  else
    let key := join_comma cands in
    let* cached := (λ σ, Some (JsMap.get key (memo σ), σ)) in
    match cached with
    | Some v => ret v
    | None =>
        match fuel with
        | O => out_of_fuel
        | S fuel =>
            let size := len in
            let* best := for_of cands (Inf, (-1)%Z) (λ best gIdx,
              let '(bestE, bestG) := best in
              let buckets := partition_with (PAT gIdx) cands in
              let* expectedSub := for_of buckets 0 (λ expectedSub entry,
                let '(pat, arr) := entry in
                let prob := length arr // size in
                if decide (pat = "22222") then ret (Continue expectedSub)
                else
                  let* subE := solveState_with fuel arr in
                  let expectedSub := expectedSub + prob * subE in
                  if prune && (1 + expectedSub >=? bestE)
                  then ret (Break expectedSub)
                  else ret (Continue expectedSub)) in
              let totalE := 1 + expectedSub in
              if totalE <? bestE then ret (Continue (totalE, Z.of_nat gIdx))
              else ret (Continue (bestE, bestG))) in
            let '(bestE, bestG) := best in
            let* _ := update (λ σ, State (JsMap.set key bestE (memo σ)) (choice σ)) in
            let* _ := (if decide (0 ≤ bestG)%Z
                       then update (λ σ, State (memo σ) (JsMap.set key bestG (choice σ)))
                       else ret tt) in
            ret bestE
        end
    end.

(** [allCands] is the array [0, ..., N-1]. *)
Definition allCands : list nat := seq 0%nat N.

Definition expectedWithRoot_with (fuel : nat) (rootIdx : nat) : M state num :=
  let size := length allCands in
  let buckets := partition_with (PAT rootIdx) allCands in
  let* expectedSub := for_of buckets 0 (λ expectedSub entry,
    let '(pat, arr) := entry in
    let prob := length arr // size in
    if decide (pat = "22222") then ret (Continue expectedSub)
    else
      let* subE := solveState_with fuel arr in
      ret (Continue (expectedSub + prob * subE))) in
  ret (1 + expectedSub).
End solver.

Definition solveState (PAT : nat → nat → string) : nat → list nat → M state num :=
  solveState_with PAT true.
Definition expectedWithRoot (N : nat) (PAT : nat → nat → string)
    : nat → nat → M state num :=
  expectedWithRoot_with N PAT true.

Definition empty : state := State [] [].

End DpTop200.

(** ** dp_solver.js: results with the best guess, sorted keys *)

Module DpSolver.
Import Num Run Partition Key.
Local Open Scope num_scope.

(** [{ value, bestGuess }] *)
Record result := Result { value : num; bestGuess : Z }.

(** The map [dp]. *)
Definition dp_t : Type := list (string * result).

(** [SIndices.slice().sort((a, b) => a - b).join(',')] *)
Definition stateKey (SIndices : list nat) : string :=
  let sorted := merge_sort Nat.le SIndices in
  join_comma sorted.

Section solver.
Variable patternMatrix : nat → nat → string.
Variable prune : bool.

Fixpoint solveState_with (fuel : nat) (SIndices : list nat) : M dp_t result :=
  let n := length SIndices in
  if decide (n = 0%nat) then ret (Result 0 (-1))
  else if decide (n = 1%nat)
  then ret (Result 1 (Z.of_nat (default 0%nat (SIndices !! 0%nat))))
  else
    let key := stateKey SIndices in
    let* hit := (λ dp, Some (JsMap.get key dp, dp)) in
    match hit with
    | Some r => ret r
    | None =>
        match fuel with
        | O => out_of_fuel
        | S fuel =>
            let total := n in
            let* best := for_of SIndices (Inf, (-1)%Z) (λ best guessIdx,
              let '(bestValue, bestGuess) := best in
              let parts := partitionState patternMatrix SIndices guessIdx in
              let* expected := for_of parts 0 (λ expected entry,
                let '(pat, bucket) := entry in
                let m := length bucket in
                let p := m // total in
                let* expected :=
                  (if decide (pat = "22222") then ret (expected + p * 1)
                   else
                     let* sub := solveState_with fuel bucket in
                     ret (expected + p * (1 + value sub))) in
                if prune && (expected >=? bestValue)
                then ret (Break expected)
                else ret (Continue expected)) in
              if expected <? bestValue
              then ret (Continue (expected, Z.of_nat guessIdx))
              else ret (Continue (bestValue, bestGuess))) in
            let result := Result best.1 best.2 in
            let* _ := update (JsMap.set key result) in
            ret result
        end
    end.
End solver.

Definition solveState (patternMatrix : nat → nat → string)
    : nat → list nat → M dp_t result :=
  solveState_with patternMatrix true.

End DpSolver.

(** ** Facts about the number model *)

Module NumFacts.
Import Num.
Local Open Scope Qc_scope.

(** The order of JS numbers, [Infinity] on top. *)
Definition le (x y : num) : Prop :=
  match x, y with
  | Fin a, Fin b => a ≤ b
  | _, Inf => True
  | Inf, Fin _ => False
  end.

(** A finite value that is not negative. *)
Definition nonneg (x : num) : Prop := ∃ q, x = Fin q ∧ 0 ≤ q.

Lemma le_refl x : le x x.
Proof. destruct x; simpl; [apply Qcle_refl|done]. Qed.

Lemma le_trans x y z : le x y → le y z → le x z.
Proof. destruct x, y, z; simpl; try done. apply Qcle_trans. Qed.

Lemma ge_spec x y : Num.ge x y = true ↔ le y x.
Proof. destruct x, y; simpl; try done. by rewrite bool_decide_eq_true. Qed.

Lemma lt_spec x y : Num.lt x y = false ↔ le y x.
Proof.
  destruct x, y; simpl; try done.
  rewrite bool_decide_eq_false. by rewrite Qcle_ngt.
Qed.

Lemma lt_irrefl_of_ge x y : Num.ge x y = true → Num.lt x y = false.
Proof. rewrite ge_spec, lt_spec. done. Qed.

Lemma add_0_r x : Num.add x Num.zero = x.
Proof. destruct x; simpl; [|done]. by rewrite Qcplus_0_r. Qed.

Lemma add_0_l x : Num.add Num.zero x = x.
Proof. destruct x; simpl; [|done]. by rewrite Qcplus_0_l. Qed.

Lemma add_comm x y : Num.add x y = Num.add y x.
Proof. destruct x, y; simpl; try done. by rewrite Qcplus_comm. Qed.

Lemma add_assoc x y z : Num.add x (Num.add y z) = Num.add (Num.add x y) z.
Proof. destruct x, y, z; simpl; try done. by rewrite Qcplus_assoc. Qed.

Lemma add_le_mono_l x y z : le x y → le (Num.add z x) (Num.add z y).
Proof.
  destruct x, y, z; simpl; try done. intros. by apply Qcplus_le_mono_l.
Qed.

Lemma le_add_r x y : nonneg y → le x (Num.add x y).
Proof.
  intros (q & -> & Hq). destruct x as [a|]; simpl; [|done].
  rewrite <-(Qcplus_0_r a) at 1. by apply Qcplus_le_mono_l.
Qed.

Lemma nonneg_add x y : nonneg x → nonneg y → nonneg (Num.add x y).
Proof.
  intros (a & -> & Ha) (b & -> & Hb). exists (a + b). split; [done|].
  by apply Qcplus_nonneg_nonneg.
Qed.

Lemma nonneg_mul x y : nonneg x → nonneg y → nonneg (Num.mul x y).
Proof.
  intros (a & -> & Ha) (b & -> & Hb). exists (a * b). split; [done|].
  by apply Qcmult_nonneg_nonneg.
Qed.

Lemma nonneg_zero : nonneg Num.zero.
Proof. exists 0. split; [done|]. apply Qcle_refl. Qed.

Lemma nonneg_one : nonneg Num.one.
Proof. exists 1. split; [done|]. by compute. Qed.

Lemma Qc_of_nat_nonneg (n : nat) : 0 ≤ Qc_of_Z (Z.of_nat n).
Proof. rewrite <-Z2Qc_inj_0, <-Z2Qc_inj_le. lia. Qed.

Lemma Qc_of_nat_pos (n : nat) : (0 < n)%nat → 0 < Qc_of_Z (Z.of_nat n).
Proof. intros. rewrite <-Z2Qc_inj_0, <-Z2Qc_inj_lt. lia. Qed.

Lemma div_nat_fin m n :
  n ≠ 0%nat →
  Num.div_nat m n = Fin (Qc_of_Z (Z.of_nat m) / Qc_of_Z (Z.of_nat n)).
Proof. intros. unfold div_nat. by rewrite decide_False. Qed.

Lemma nonneg_div_nat m n : n ≠ 0%nat → nonneg (Num.div_nat m n).
Proof.
  intros Hn. rewrite div_nat_fin by done. eexists; split; [done|].
  apply Qcmult_nonneg_nonneg; [apply Qc_of_nat_nonneg|].
  apply Qclt_le_weak, Qcinv_pos, Qc_of_nat_pos. lia.
Qed.

(** Accumulating charges that are not negative never decreases the sum. *)
Lemma foldl_add_le (cs : list num) acc :
  Forall nonneg cs → le acc (foldl Num.add acc cs).
Proof.
  revert acc. induction cs as [|c cs IH]; intros acc Hcs; simpl.
  - apply le_refl.
  - inversion_clear Hcs. eapply le_trans; [|by apply IH]. by apply le_add_r.
Qed.

Lemma foldl_add_nonneg (cs : list num) acc :
  nonneg acc → Forall nonneg cs → nonneg (foldl Num.add acc cs).
Proof.
  revert acc. induction cs as [|c cs IH]; intros acc Hacc Hcs; simpl; [done|].
  inversion_clear Hcs. apply IH; [|done]. by apply nonneg_add.
Qed.

(** The branch-and-bound test: once the running total reaches the best
    value, so does the full total. *)
Lemma prune_sound lead acc best (rest : list num) :
  Forall nonneg rest →
  Num.ge (Num.add lead acc) best = true →
  Num.lt (Num.add lead (foldl Num.add acc rest)) best = false.
Proof.
  intros Hrest Hge. apply lt_spec. apply ge_spec in Hge.
  eapply le_trans; [exact Hge|]. apply add_le_mono_l. by apply foldl_add_le.
Qed.

End NumFacts.

(** ** Reasoning about runs *)

Module RunFacts.
Import Run.

(** From any state satisfying [I], the computation returns, in a state
    satisfying [I], a result satisfying [P]. *)
Definition returns {Σ A} (I : Σ → Prop) (c : M Σ A) (P : A → Prop) : Prop :=
  ∀ σ, I σ → ∃ a σ', c σ = Some (a, σ') ∧ I σ' ∧ P a.

Section rules.
Context {Σ : Type} (I : Σ → Prop).

Lemma returns_ret {A} (a : A) (P : A → Prop) : P a → returns I (ret a) P.
Proof. intros HP σ Hσ. by exists a, σ. Qed.

Lemma returns_bind {A B} (c : M Σ A) (k : A → M Σ B) (P : A → Prop) (Q : B → Prop) :
  returns I c P → (∀ a, P a → returns I (k a) Q) → returns I (bind c k) Q.
Proof.
  intros Hc Hk σ Hσ. destruct (Hc σ Hσ) as (a & σ' & Hrun & Hσ' & HP).
  unfold bind. rewrite Hrun. by apply Hk.
Qed.

Lemma returns_weaken {A} (c : M Σ A) (P Q : A → Prop) :
  returns I c P → (∀ a, P a → Q a) → returns I c Q.
Proof.
  intros Hc HPQ σ Hσ. destruct (Hc σ Hσ) as (a & σ' & ? & ? & ?).
  exists a, σ'. auto.
Qed.

Lemma returns_update (f : Σ → Σ) :
  (∀ σ, I σ → I (f σ)) → returns I (update f) (λ _, True).
Proof. intros Hf σ Hσ. exists tt, (f σ). auto. Qed.

(** Loop rule: [Inv rest a] relates the loop-carried value to the elements
    still to be visited; a [break] must establish the postcondition. *)
Lemma returns_for_of {X A} (Inv : list X → A → Prop) (Q : A → Prop)
    (body : A → X → M Σ (ctl A)) xs acc :
  Inv xs acc →
  (∀ x rest a, Inv (x :: rest) a →
     returns I (body a x)
       (λ r, match r with Continue a' => Inv rest a' | Break a' => Q a' end)) →
  (∀ a, Inv [] a → Q a) →
  returns I (for_of xs acc body) Q.
Proof.
  intros Hinv Hbody Hend. revert acc Hinv.
  induction xs as [|x xs IH]; intros acc Hinv; simpl.
  - apply returns_ret. auto.
  - eapply returns_bind; [by apply Hbody|].
    intros [a'|a'] Hr; [by apply IH|by apply returns_ret].
Qed.
End rules.

End RunFacts.

(** ** Facts about [Map] *)

Module JsMapFacts.
Section facts.
Context {V : Type}.
Implicit Types (m : list (string * V)) (k : string) (v : V).

Lemma get_elem k v m : JsMap.get k m = Some v → (k, v) ∈ m.
Proof.
  induction m as [|[q w] m IH]; simpl; [done|].
  case_decide; [intros [= <-]; subst; left|intros ?; right; auto].
Qed.

Lemma set_elem k v m k' v' :
  (k', v') ∈ JsMap.set k v m → (k', v') = (k, v) ∨ (k', v') ∈ m.
Proof.
  induction m as [|[q w] m IH]; simpl.
  - intros ?%list_elem_of_singleton. by left.
  - case_decide; subst; rewrite !elem_of_cons; naive_solver.
Qed.
End facts.
End JsMapFacts.

(** ** The expected-steps recurrence

    The value every solver variant computes, without cache and without
    pruning: the minimum over the guesses [g] in the candidate set of
    [lead] plus the sum over the buckets of [partition(S, g)] of what each
    bucket is charged.  [lead] and [charge] are what the variants differ
    in. *)

Module Recurrence.
Import Num NumFacts Partition.

Definition keep_min (best total : num) : num :=
  if Num.lt total best then total else best.

Section recurrence.
Variable PAT : nat → nat → string.
Variable lead : num.
Variable charge : nat → string → list nat → num → num.

Definition cost (sub : list nat → num) (cands : list nat) (g : nat) : num :=
  Num.add lead
    (foldl (λ acc b, Num.add acc (charge (length cands) b.1 b.2 (sub b.2)))
       Num.zero (partition_with (PAT g) cands)).

Fixpoint value (fuel : nat) (cands : list nat) : num :=
  match cands with
  | [] => Num.zero
  | [_] => Num.one
  | _ :: _ :: _ =>
      match fuel with
      | O => Num.zero
      | S fuel =>
          foldl (λ best g, keep_min best (cost (value fuel) cands g)) Inf cands
      end
  end.

(** The value of a candidate set, with the fuel its size asks for. *)
Definition expected (cands : list nat) : num := value (length cands) cands.

(** What the buckets [bs] of a guess are charged, in bucket order. *)
Definition charges_of (sub : list nat → num) (cands : list nat)
    (bs : buckets nat) : list num :=
  (λ b, charge (length cands) b.1 b.2 (sub b.2)) <$> bs.

Lemma cost_charges_of sub cands g :
  cost sub cands g
  = Num.add lead
      (foldl Num.add Num.zero (charges_of sub cands (partition_with (PAT g) cands))).
Proof. unfold cost, charges_of. by rewrite foldl_fmap. Qed.
End recurrence.

Lemma foldl_ext_in {A B} (f g : A → B → A) (l : list B) (a : A) :
  (∀ a x, x ∈ l → f a x = g a x) → foldl f a l = foldl g a l.
Proof.
  revert a. induction l as [|x l IH]; intros a Hfg; simpl; [done|].
  rewrite Hfg by left. apply IH. intros. apply Hfg. by right.
Qed.

(** The minimum kept by the guess loop is the total of one of the guesses
    and is below the total of each. *)
Lemma foldl_keep_min_elem {X} (t : X → num) (l : list X) best :
  let r := foldl (λ best g, keep_min best (t g)) best l in
  r = best ∨ ∃ g, g ∈ l ∧ r = t g.
Proof.
  revert best. induction l as [|x l IH]; intros best; simpl; [by left|].
  destruct (IH (keep_min best (t x))) as [Hr|(g & Hg & Hr)].
  - rewrite Hr. unfold keep_min. destruct (Num.lt (t x) best); [|by left].
    right. exists x. split; [left|done].
  - right. exists g. split; [by right|done].
Qed.

Lemma foldl_keep_min_le {X} (t : X → num) (l : list X) best :
  let r := foldl (λ best g, keep_min best (t g)) best l in
  le r best ∧ ∀ g, g ∈ l → le r (t g).
Proof.
  revert best. induction l as [|x l IH]; intros best; simpl.
  - split; [apply le_refl|]. by intros g ?%elem_of_nil.
  - destruct (IH (keep_min best (t x))) as [Hbest Hall].
    assert (le (keep_min best (t x)) best ∧ le (keep_min best (t x)) (t x))
      as [H1 H2].
    { unfold keep_min. destruct (Num.lt (t x) best) eqn:Hlt.
      - split; [|apply le_refl]. destruct (t x), best; simpl in *; try done.
        apply bool_decide_eq_true in Hlt. by apply Qclt_le_weak.
      - split; [apply le_refl|]. by apply lt_spec. }
    split; [by eapply le_trans|].
    intros g [->|Hg]%elem_of_cons; [by eapply le_trans|by apply Hall].
Qed.

Lemma foldl_keep_min_Inf {X} (t : X → num) (l : list X) :
  l ≠ [] → ∃ g, g ∈ l ∧ foldl (λ best g, keep_min best (t g)) Inf l = t g.
Proof.
  destruct l as [|x l]; [done|]. intros _. simpl.
  assert (keep_min Inf (t x) = t x) as ->.
  { unfold keep_min. by destruct (t x). }
  destruct (foldl_keep_min_elem t l (t x)) as [Hr|(g & Hg & Hr)]; simpl in *.
  - exists x. split; [left|done].
  - exists g. split; [by right|done].
Qed.

Section facts.
Variable N : nat.
Variable PAT : nat → nat → string.
Variable lead : num.
Variable charge : nat → string → list nat → num → num.

(** A candidate set: distinct indices into the universe. *)
Definition wf (cands : list nat) : Prop :=
  NoDup cands ∧ Forall (λ i, i < N) cands.

Hypothesis PAT_diag :
  ∀ g a, g < N → a < N → PAT g a = "22222" ↔ g = a.
Hypothesis lead_nonneg : nonneg lead.
Hypothesis charge_nonneg : ∀ size pat arr sub,
  size ≠ 0 → nonneg sub → nonneg (charge size pat arr sub).

Local Abbreviation value := (value PAT lead charge).
Local Abbreviation cost := (cost PAT lead charge).
Local Abbreviation expected := (expected PAT lead charge).

Lemma wf_elem cands i : wf cands → i ∈ cands → i < N.
Proof. intros [_ Hall] Hi. by eapply (proj1 (Forall_forall _ _)) in Hall. Qed.

(** The all-correct bucket of a guess taken from the set is the guess
    alone. *)
Lemma all_correct_bucket cands g arr :
  wf cands → g ∈ cands →
  ("22222", arr) ∈ partition_with (PAT g) cands → arr = [g].
Proof.
  intros Hwf Hg Hin.
  destruct (partition_with_elem _ _ _ _ Hin) as [-> _].
  pose proof (wf_elem _ _ Hwf Hg) as HgN. destruct Hwf as [Hnd Hall].
  assert (Hfil : ∀ l, NoDup l → Forall (λ i, i < N) l →
    filter (λ x, PAT g x = "22222") l = if decide (g ∈ l) then [g] else []).
  { clear -PAT_diag HgN. induction l as [|a l IH]; intros Hnd Hall; [done|].
    apply NoDup_cons in Hnd as [Ha Hnd]. inversion_clear Hall.
    rewrite filter_cons, IH by done.
    destruct (decide (PAT g a = "22222")) as [Hp|Hp].
    - apply PAT_diag in Hp as <-; [|done..].
      rewrite (decide_False (P := g ∈ l)) by done.
      by rewrite (decide_True (P := g ∈ g :: l)) by left.
    - assert (g ≠ a) by (intros ->; apply Hp; by apply PAT_diag).
      destruct (decide (g ∈ l)).
      + rewrite decide_True; [done|by right].
      + rewrite decide_False; [done|]. rewrite elem_of_cons. naive_solver. }
  rewrite Hfil by done. by rewrite decide_True.
Qed.

(** Under a guess taken from the set, every bucket is a smaller
    candidate set, and the all-correct bucket is the guess alone. *)
Lemma bucket_facts cands g pat arr :
  wf cands → 2 ≤ length cands → g ∈ cands →
  (pat, arr) ∈ partition_with (PAT g) cands →
  arr = filter (λ x, PAT g x = pat) cands ∧ arr ≠ [] ∧ wf arr ∧
  length arr < length cands ∧ (pat = "22222" → arr = [g]).
Proof.
  intros Hwf Hlen Hg Hin.
  destruct (partition_with_elem _ _ _ _ Hin) as [Harr Hne].
  pose proof (wf_elem _ _ Hwf Hg) as HgN. destruct Hwf as [Hnd Hall].
  split_and!; [done|done| | |].
  - subst arr. split; [by apply NoDup_filter|].
    apply Forall_forall. intros i [_ Hi]%list_elem_of_filter.
    by eapply (proj1 (Forall_forall _ _)) in Hall.
  - subst arr. destruct (decide (pat = "22222")) as [->|Hpat].
    + assert (∃ x, x ∈ cands ∧ x ≠ g) as (x & Hx & Hxg).
      { destruct cands as [|a [|b l]]; simpl in Hlen; [lia..|].
        apply NoDup_cons in Hnd as [Hab _].
        destruct (decide (a = g)) as [->|].
        - exists b. split; [right; left|]. intros ->. apply Hab. left.
        - exists a. split; [left|done]. }
      apply (length_filter_lt _ _ x); [done|].
      rewrite PAT_diag; [naive_solver|done|].
      by eapply (proj1 (Forall_forall _ _)) in Hall.
    + apply (length_filter_lt _ _ g); [done|].
      intros Hp. apply Hpat. rewrite <-Hp. by apply PAT_diag.
  - intros ->. by eapply all_correct_bucket.
Qed.

Lemma value_step fuel x y l :
  value (S fuel) (x :: y :: l)
  = foldl (λ best g, keep_min best (cost (value fuel) (x :: y :: l) g)) Inf
      (x :: y :: l).
Proof. reflexivity. Qed.

Lemma value_nonneg fuel cands : nonneg (value fuel cands).
Proof.
  revert cands. induction fuel as [|fuel IH]; intros [|x [|y l]];
    try apply nonneg_zero; try apply nonneg_one.
  cbn [Recurrence.value].
  destruct (foldl_keep_min_Inf (cost (value fuel) (x :: y :: l)) (x :: y :: l))
    as (g & _ & ->); [done|].
  unfold Recurrence.cost. apply nonneg_add; [done|].
  set (bs := partition_with _ _). generalize Num.zero nonneg_zero. clear -IH charge_nonneg.
  induction bs as [|b bs IHb]; intros acc Hacc; simpl; [done|].
  apply IHb. apply nonneg_add; [done|]. apply charge_nonneg; [done|apply IH].
Qed.

Lemma expected_nonneg cands : nonneg (expected cands).
Proof. apply value_nonneg. Qed.

Lemma charges_of_nonneg cands bs :
  cands ≠ [] → Forall nonneg (charges_of charge expected cands bs).
Proof.
  intros Hne. apply Forall_forall. intros c (b & -> & _)%list_elem_of_fmap.
  apply charge_nonneg; [by destruct cands|apply expected_nonneg].
Qed.

Lemma value_fuel f1 : ∀ f2 cands,
  wf cands → length cands ≤ f1 → length cands ≤ f2 →
  value f1 cands = value f2 cands.
Proof.
  induction f1 as [|f1 IH]; intros f2 [|x [|y l]] Hwf H1 H2;
    destruct f2 as [|f2]; try done; simpl in H1, H2; try lia.
  cbn [Recurrence.value]. apply foldl_ext_in. intros best g Hg. f_equal.
  unfold Recurrence.cost. f_equal. apply foldl_ext_in. intros acc [pat arr] Hb.
  simpl. f_equal. f_equal.
  destruct (bucket_facts (x :: y :: l) g pat arr) as (_ & _ & Hwf' & Hlt & _);
    [done|simpl; lia|done|done|].
  simpl in *. apply IH; [done|lia..].
Qed.

Lemma value_expected fuel cands :
  wf cands → length cands ≤ fuel → value fuel cands = expected cands.
Proof. intros. by apply value_fuel. Qed.

Lemma expected_nil : expected [] = Num.zero.
Proof. done. Qed.
Lemma expected_one x : expected [x] = Num.one.
Proof. done. Qed.

(** Unfolding the recurrence once. *)
Lemma expected_unfold cands :
  wf cands → 2 ≤ length cands →
  expected cands
  = foldl (λ best g, keep_min best (cost expected cands g)) Inf cands.
Proof.
  intros Hwf Hlen. unfold Recurrence.expected at 1.
  destruct cands as [|x [|y l]]; simpl in Hlen; [lia..|].
  cbn [length]. rewrite value_step. apply foldl_ext_in. intros best g Hg. f_equal.
  unfold Recurrence.cost. f_equal. apply foldl_ext_in. intros acc [pat arr] Hb.
  cbn [fst snd]. f_equal. f_equal.
  destruct (bucket_facts (x :: y :: l) g pat arr) as (_ & _ & Hwf' & Hlt & _);
    [done|simpl; lia|done|done|].
  cbn [length] in Hlt. unfold Recurrence.expected.
  apply value_fuel; [done|lia..].
Qed.
End facts.

End Recurrence.

(** ** The three ways a bucket is charged *)

Module Variants.
Import Num NumFacts.

(** main.js ([solveState]), dp_top_blocks.js ([solveTail]): one for the
    guess, and every bucket, the all-correct one included, weighted by the
    value the solver returns for it. *)
Definition lead_recursed : num := Num.one.
Definition charge_recursed (size : nat) (pat : string) (arr : list nat)
    (sub : num) : num :=
  Num.mul (Num.div_nat (length arr) size) sub.

(** dp_top200.js: one for the guess, and nothing for the all-correct
    bucket. *)
Definition lead_skipped : num := Num.one.
Definition charge_skipped (size : nat) (pat : string) (arr : list nat)
    (sub : num) : num :=
  if decide (pat = "22222") then Num.zero
  else Num.mul (Num.div_nat (length arr) size) sub.

(** dp_solver.js: the guess is counted inside each branch. *)
Definition lead_branch : num := Num.zero.
Definition charge_branch (size : nat) (pat : string) (arr : list nat)
    (sub : num) : num :=
  if decide (pat = "22222") then Num.mul (Num.div_nat (length arr) size) Num.one
  else Num.mul (Num.div_nat (length arr) size) (Num.add Num.one sub).

Lemma charge_recursed_nonneg size pat arr sub :
  size ≠ 0 → nonneg sub → nonneg (charge_recursed size pat arr sub).
Proof. intros. apply nonneg_mul; [by apply nonneg_div_nat|done]. Qed.

Lemma charge_skipped_nonneg size pat arr sub :
  size ≠ 0 → nonneg sub → nonneg (charge_skipped size pat arr sub).
Proof.
  intros. unfold charge_skipped. case_decide; [apply nonneg_zero|].
  apply nonneg_mul; [by apply nonneg_div_nat|done].
Qed.

Lemma charge_branch_nonneg size pat arr sub :
  size ≠ 0 → nonneg sub → nonneg (charge_branch size pat arr sub).
Proof.
  intros. unfold charge_branch. case_decide.
  - apply nonneg_mul; [by apply nonneg_div_nat|apply nonneg_one].
  - apply nonneg_mul; [by apply nonneg_div_nat|].
    apply nonneg_add; [apply nonneg_one|done].
Qed.

End Variants.

(** ** The recurrence of main.js and dp_top_blocks.js *)

Module RecursedFacts.
Import Num NumFacts Partition Key Recurrence Variants.

Section recursed.
Variable N : nat.
Variable PAT : nat → nat → string.

Local Abbreviation E := (expected PAT lead_recursed charge_recursed).

(** What a cached entry must be: the value of the set its key names. *)
Definition good (k : string) (v : num) : Prop :=
  ∀ S, wf N S → join_comma S = k → v = E S.
Lemma good_expected cands : wf N cands → good (join_comma cands) (E cands).
Proof. intros Hwf S HS Heq. by apply (inj join_comma) in Heq as ->. Qed.

(** Charges of a guess's buckets, in bucket order. *)
Definition charges (cands : list nat) (arrs : list (list nat)) : list num :=
  (λ arr, Num.mul (Num.div_nat (length arr) (length cands)) (E arr)) <$> arrs.

Lemma cost_charges cands g :
  cost PAT lead_recursed charge_recursed E cands g
  = Num.add Num.one
      (foldl Num.add Num.zero
         (charges cands (map_values (partition_with (PAT g) cands)))).
Proof.
  unfold cost, charges, map_values, lead_recursed. f_equal.
  rewrite <-list_fmap_compose, foldl_fmap. done.
Qed.

Lemma charges_nonneg cands arrs :
  cands ≠ [] → Forall nonneg (charges cands arrs).
Proof.
  intros Hne. apply Forall_forall. intros c (arr & -> & _)%list_elem_of_fmap.
  apply nonneg_mul.
  - apply nonneg_div_nat. by destruct cands.
  - apply value_nonneg; [apply nonneg_one|apply charge_recursed_nonneg].
Qed.

End recursed.

End RecursedFacts.

(** ** dp_top_blocks.js: the solver returns the recurrence's value *)

Module DpTopBlocksFacts.
Import Num NumFacts Run RunFacts Partition Key Recurrence Variants RecursedFacts.
Import DpTopBlocks.

Lemma evict_oldest_elem toRemove removed (memo : memo_t) x :
  x ∈ evict_oldest toRemove removed memo → x ∈ memo.
Proof.
  revert removed. induction memo as [|e memo IH]; intros removed; simpl; [done|].
  case_match; intros ?; right; eauto.
Qed.

Section correct.
Variable N : nat.
Variable PAT : nat → nat → string.
Hypothesis PAT_diag : ∀ g a, g < N → a < N → PAT g a = "22222" ↔ g = a.

Local Abbreviation E := (expected PAT lead_recursed charge_recursed).
Local Abbreviation good := (good N PAT).
Local Abbreviation charges := (charges PAT).

Definition sound (m : memo_t) : Prop := ∀ k v, (k, v) ∈ m → good k v.

Record cache_ok (c : cache) : Prop := {
  get_ok : ∀ m k v, sound m → cache_get c k m = Some v → good k v;
  put_ok : ∀ m k v, sound m → good k v → sound (cache_put c k v m);
}.

Lemma sound_nil : sound [].
Proof. by intros k v ?%elem_of_nil. Qed.

Lemma unbounded_cache_ok : cache_ok unbounded_cache.
Proof.
  split; simpl.
  - intros m k v Hm Hget. apply Hm. by apply JsMapFacts.get_elem.
  - intros m k v Hm Hv k' v' [[= -> ->]|Hin]%JsMapFacts.set_elem; auto.
Qed.

Lemma bounded_cache_ok max_entries evict_fraction :
  cache_ok (bounded_cache max_entries evict_fraction).
Proof.
  split; simpl.
  - intros m k v Hm Hget. apply Hm. by apply JsMapFacts.get_elem.
  - intros m k v Hm Hv k' v'. unfold memoStore.
    intros [[= -> ->]|Hin]%JsMapFacts.set_elem; [done|].
    apply Hm. case_match; [by eapply evict_oldest_elem|done].
Qed.

Lemma no_cache_ok : cache_ok no_cache.
Proof. split; simpl; [done|auto]. Qed.

Theorem solveTail_with_returns c prune :
  cache_ok c → ∀ fuel cands,
  wf N cands → length cands ≤ fuel →
  returns sound (solveTail_with PAT c prune fuel cands) (λ r, r = E cands).
Proof.
  intros Hc fuel. induction fuel as [|fuel IH]; intros cands Hwf Hlen.
  { destruct cands; [|simpl in Hlen; lia]. by apply returns_ret. }
  cbn [solveTail_with].
  destruct (decide (length cands ≤ 0)).
  { destruct cands; [|simpl in *; lia]. by apply returns_ret. }
  destruct (decide (length cands = 1)) as [Hone|Hmore].
  { destruct cands as [|x [|??]]; try done. by apply returns_ret. }
  assert (2 ≤ length cands) as Hlen2 by lia.
  eapply (returns_bind _ _ _ (λ cached, ∀ v, cached = Some v → v = E cands)).
  { intros m Hm. eexists _, m. split_and!; [done..|].
    intros v Hget. by eapply (get_ok _ Hc). }
  intros [v|] Hcached; [by apply returns_ret, Hcached|].
  eapply (returns_bind _ _ _ (λ bestE, bestE = E cands)); last first.
  { intros bestE ->.
    eapply returns_bind; [|intros; by apply returns_ret].
    apply returns_update. intros m Hm. apply (put_ok _ Hc); [done|].
    by apply good_expected. }
  set (step := λ best g, keep_min best (cost PAT lead_recursed charge_recursed E cands g)).
  apply (returns_for_of _
    (λ rest best, ∃ seen, cands = seen ++ rest ∧ best = foldl step Inf seen)).
  { by exists []. }
  2:{ intros best (seen & Hseen & ->). rewrite app_nil_r in Hseen. subst seen.
      by rewrite (expected_unfold N PAT _ _ PAT_diag). }
  intros g rest best (seen & Hseen & Hbest).
  assert (g ∈ cands) as Hg.
  { rewrite Hseen. apply elem_of_app. right. left. }
  set (arrs := map_values (partition_with (PAT g) cands)).
  eapply (returns_bind _ _ _
    (λ r, keep_min best (Num.add Num.one r) = step best g)).
  - apply (returns_for_of _
      (λ rest2 acc, ∃ seen2, arrs = seen2 ++ rest2 ∧
         acc = foldl Num.add Num.zero (charges cands seen2))).
    { by exists []. }
    2:{ intros acc (seen2 & Hseen2 & ->). rewrite app_nil_r in Hseen2.
        subst seen2. unfold step. by rewrite cost_charges. }
    intros arr rest2 acc (seen2 & Hseen2 & Hacc).
    assert (wf N arr ∧ length arr ≤ fuel) as [Hwfa Hlena].
    { assert (arr ∈ arrs) as Harr.
      { rewrite Hseen2. apply elem_of_app. right. left. }
      unfold arrs, map_values in Harr.
      apply list_elem_of_fmap in Harr as ([pat arr'] & -> & Hin).
      destruct (bucket_facts N PAT PAT_diag cands g pat arr')
        as (_ & _ & ? & ? & _); [done..|].
      split; [done|simpl; lia]. }
    eapply returns_bind; [by apply IH|].
    intros subE ->.
    set (acc' := Num.add acc _).
    assert (acc' = foldl Num.add Num.zero (charges cands (seen2 ++ [arr]))) as Hacc'.
    { unfold charges. rewrite fmap_app, foldl_app. simpl. subst acc'.
      by rewrite Hacc. }
    destruct (prune && Num.ge (Num.add Num.one acc') best) eqn:Hp.
    + apply andb_true_iff in Hp as [_ Hge]. apply returns_ret.
      unfold step. rewrite cost_charges. fold arrs. rewrite Hseen2.
      unfold keep_min. rewrite (lt_irrefl_of_ge _ _ Hge).
      unfold charges. rewrite fmap_app, foldl_app. fold (charges cands seen2).
      rewrite <-Hacc. rewrite fmap_cons. cbn [foldl]. fold acc'.
      rewrite prune_sound; [done| |done].
      apply (charges_nonneg PAT cands rest2). by destruct cands.
    + apply returns_ret. exists (seen2 ++ [arr]). split; [|done].
      by rewrite <-app_assoc.
  - intros r Hr. cbv zeta.
    destruct (Num.lt (Num.add Num.one r) best) eqn:Hlt; apply returns_ret;
      exists (seen ++ [g]); (split; [by rewrite <-app_assoc|]);
      rewrite foldl_app; simpl; rewrite <-Hbest, <-Hr; unfold keep_min;
      by rewrite Hlt.
Qed.
Lemma seq_wf : wf N (seq 0 N).
Proof.
  split; [apply NoDup_seq|]. apply Forall_forall.
  intros i Hi%elem_of_seq. lia.
Qed.

Theorem solveWithFixedRoot_with_returns c prune fuel gIdx :
  cache_ok c → N ≤ fuel →
  returns sound (solveWithFixedRoot_with N PAT c prune fuel gIdx)
    (λ r, r = cost PAT lead_recursed charge_recursed E (seq 0 N) gIdx).
Proof.
  intros Hc Hlen. unfold solveWithFixedRoot_with.
  set (arrs := map_values (partition_with (PAT gIdx) (seq 0 N))).
  eapply (returns_bind _ _ _
    (λ r, r = foldl Num.add Num.zero (charges (seq 0 N) arrs))).
  - apply (returns_for_of _
      (λ rest2 acc, ∃ seen2, arrs = seen2 ++ rest2 ∧
         acc = foldl Num.add Num.zero (charges (seq 0 N) seen2))).
    { by exists []. }
    2:{ intros acc (seen2 & Hseen2 & ->). rewrite app_nil_r in Hseen2.
        by subst seen2. }
    intros arr rest2 acc (seen2 & Hseen2 & Hacc).
    assert (wf N arr ∧ length arr ≤ fuel) as [Hwfa Hlena].
    { assert (arr ∈ arrs) as Harr.
      { rewrite Hseen2. apply elem_of_app. right. left. }
      unfold arrs, map_values in Harr.
      apply list_elem_of_fmap in Harr as ([pat arr'] & -> & Hin).
      destruct (partition_with_elem _ _ _ _ Hin) as [-> _]. simpl.
      destruct seq_wf as [Hnd Hall]. split; [split|].
      - by apply NoDup_filter.
      - apply Forall_forall. intros i [_ Hi]%list_elem_of_filter.
        by eapply (proj1 (Forall_forall _ _)) in Hall.
      - etrans; [apply length_filter|]. by rewrite length_seq. }
    eapply returns_bind; [by apply solveTail_with_returns|].
    intros subE ->. apply returns_ret. exists (seen2 ++ [arr]).
    split; [by rewrite <-app_assoc|].
    rewrite Hacc. unfold RecursedFacts.charges. rewrite fmap_app, foldl_app.
    simpl. by rewrite length_seq.
  - intros r ->. apply returns_ret. by rewrite cost_charges.
Qed.
End correct.

End DpTopBlocksFacts.

(** ** main.js: the solver returns the recurrence's value *)

Module MainJsFacts.
Import Num NumFacts Run RunFacts Partition Key Recurrence Variants RecursedFacts.
Import MainJs.

Section correct.
Variable N : nat.
Variable PAT : nat → nat → string.
Hypothesis PAT_diag : ∀ g a, g < N → a < N → PAT g a = "22222" ↔ g = a.

Local Abbreviation E := (expected PAT lead_recursed charge_recursed).
Local Abbreviation good := (good N PAT).
Local Abbreviation charges := (charges PAT).

Definition sound (σ : state) : Prop := ∀ k v, (k, v) ∈ memo σ → good k v.

Lemma sound_empty : sound empty.
Proof. by intros k v ?%elem_of_nil. Qed.

Lemma bucket_wf cands g arr :
  wf N cands → arr ∈ map_values (partition_with (PAT g) cands) →
  wf N arr ∧ length arr ≤ length cands.
Proof.
  intros [Hnd Hall] Harr. unfold map_values in Harr.
  apply list_elem_of_fmap in Harr as ([pat arr'] & -> & Hin).
  destruct (partition_with_elem _ _ _ _ Hin) as [-> _]. simpl.
  split; [split|].
  - by apply NoDup_filter.
  - apply Forall_forall. intros i [_ Hi]%list_elem_of_filter.
    by eapply (proj1 (Forall_forall _ _)) in Hall.
  - apply length_filter.
Qed.

Theorem solveState_with_returns prune : ∀ fuel cands,
  wf N cands → length cands ≤ fuel →
  returns sound (solveState_with PAT prune fuel cands) (λ r, r = E cands).
Proof.
  intros fuel. induction fuel as [|fuel IH]; intros cands Hwf Hlen.
  { destruct cands; [|simpl in Hlen; lia]. by apply returns_ret. }
  cbn [solveState_with].
  destruct (decide (length cands ≤ 0)).
  { destruct cands; [|simpl in *; lia]. by apply returns_ret. }
  destruct (decide (length cands = 1)) as [Hone|Hmore].
  { destruct cands as [|x [|??]]; try done. by apply returns_ret. }
  assert (2 ≤ length cands) as Hlen2 by lia.
  eapply (returns_bind _ _ _ (λ cached, ∀ v, cached = Some v → v = E cands)).
  { intros σ Hσ. eexists _, σ. split_and!; [done..|].
    intros v Hget%JsMapFacts.get_elem. by eapply Hσ. }
  intros [v|] Hcached; [by apply returns_ret, Hcached|].
  eapply (returns_bind _ _ _ (λ best, best.1 = E cands)); last first.
  { intros [bestE bestG] Hbest. simpl in Hbest. subst bestE.
    eapply returns_bind.
    { apply returns_update. intros σ Hσ k v. simpl.
      intros [[= -> ->]|Hin]%JsMapFacts.set_elem; [by apply good_expected|].
      by apply Hσ. }
    intros _ _. eapply (returns_bind _ _ _ (λ _, True));
      [|intros; by apply returns_ret].
    case_decide; [|by apply returns_ret].
    apply returns_update. intros σ Hσ k v. simpl. apply Hσ. }
  set (step := λ best g, keep_min best (cost PAT lead_recursed charge_recursed E cands g)).
  apply (returns_for_of _
    (λ rest best, ∃ seen, cands = seen ++ rest ∧ best.1 = foldl step Inf seen)).
  { by exists []. }
  2:{ intros best (seen & Hseen & ->). rewrite app_nil_r in Hseen. subst seen.
      by rewrite (expected_unfold N PAT _ _ PAT_diag). }
  intros g rest [best bestG] (seen & Hseen & Hbest). simpl in Hbest.
  assert (g ∈ cands) as Hg.
  { rewrite Hseen. apply elem_of_app. right. left. }
  set (arrs := map_values (partition_with (PAT g) cands)).
  eapply (returns_bind _ _ _
    (λ r, keep_min best (Num.add Num.one r) = step best g)).
  - apply (returns_for_of _
      (λ rest2 acc, ∃ seen2, arrs = seen2 ++ rest2 ∧
         acc = foldl Num.add Num.zero (charges cands seen2))).
    { by exists []. }
    2:{ intros acc (seen2 & Hseen2 & ->). rewrite app_nil_r in Hseen2.
        subst seen2. unfold step. by rewrite cost_charges. }
    intros arr rest2 acc (seen2 & Hseen2 & Hacc).
    assert (wf N arr ∧ length arr ≤ fuel) as [Hwfa Hlena].
    { assert (arr ∈ arrs) as Harr.
      { rewrite Hseen2. apply elem_of_app. right. left. }
      unfold arrs, map_values in Harr.
      apply list_elem_of_fmap in Harr as ([pat arr'] & -> & Hin).
      destruct (bucket_facts N PAT PAT_diag cands g pat arr')
        as (_ & _ & ? & ? & _); [done..|].
      split; [done|simpl; lia]. }
    eapply returns_bind; [by apply IH|].
    intros subE ->.
    set (acc' := Num.add acc _).
    assert (acc' = foldl Num.add Num.zero (charges cands (seen2 ++ [arr]))) as Hacc'.
    { unfold RecursedFacts.charges. rewrite fmap_app, foldl_app. simpl. subst acc'.
      by rewrite Hacc. }
    destruct (prune && Num.ge (Num.add acc' Num.one) best) eqn:Hp.
    + apply andb_true_iff in Hp as [_ Hge]. apply returns_ret.
      rewrite add_comm in Hge.
      unfold step. rewrite cost_charges. fold arrs. rewrite Hseen2.
      assert (keep_min best (Num.add Num.one Inf) = best) as -> by (by destruct best).
      unfold keep_min.
      unfold RecursedFacts.charges. rewrite fmap_app, foldl_app.
      fold (charges cands seen2).
      rewrite <-Hacc. rewrite fmap_cons. cbn [foldl]. fold acc'.
      rewrite prune_sound; [done| |done].
      apply (charges_nonneg PAT cands rest2). by destruct cands.
    + apply returns_ret. exists (seen2 ++ [arr]). split; [|done].
      by rewrite <-app_assoc.
  - intros r Hr. cbv zeta.
    destruct (Num.lt (Num.add Num.one r) best) eqn:Hlt; apply returns_ret;
      exists (seen ++ [g]); (split; [by rewrite <-app_assoc|]);
      rewrite foldl_app; simpl; rewrite <-Hbest, <-Hr; unfold keep_min;
      by rewrite Hlt.
Qed.

Theorem expectedGivenFirstGuess_with_returns prune fuel rootIdx allCands :
  wf N allCands → length allCands ≤ fuel →
  returns sound (expectedGivenFirstGuess_with PAT prune fuel rootIdx allCands)
    (λ r, r = cost PAT lead_recursed charge_recursed E allCands rootIdx).
Proof.
  intros Hwf Hlen. unfold expectedGivenFirstGuess_with.
  set (arrs := map_values (partition_with (PAT rootIdx) allCands)).
  eapply (returns_bind _ _ _
    (λ r, r = foldl Num.add Num.zero (charges allCands arrs))).
  - apply (returns_for_of _
      (λ rest2 acc, ∃ seen2, arrs = seen2 ++ rest2 ∧
         acc = foldl Num.add Num.zero (charges allCands seen2))).
    { by exists []. }
    2:{ intros acc (seen2 & Hseen2 & ->). rewrite app_nil_r in Hseen2.
        by subst seen2. }
    intros arr rest2 acc (seen2 & Hseen2 & Hacc).
    assert (wf N arr ∧ length arr ≤ fuel) as [Hwfa Hlena].
    { destruct (bucket_wf allCands rootIdx arr) as [? ?]; [done| |split; [done|lia]].
      fold arrs. rewrite Hseen2. apply elem_of_app. right. left. }
    eapply returns_bind; [by apply solveState_with_returns|].
    intros subE ->. apply returns_ret. exists (seen2 ++ [arr]).
    split; [by rewrite <-app_assoc|].
    unfold RecursedFacts.charges. rewrite fmap_app, foldl_app. simpl.
    by rewrite Hacc.
  - intros r ->. apply returns_ret. by rewrite cost_charges.
Qed.
End correct.

End MainJsFacts.

(** ** dp_top200.js: the solver returns the recurrence's value *)

Module DpTop200Facts.
Import Num NumFacts Run RunFacts Partition Key Recurrence Variants.
Import DpTop200.

Section correct.
Variable N : nat.
Variable PAT : nat → nat → string.
Hypothesis PAT_diag : ∀ g a, g < N → a < N → PAT g a = "22222" ↔ g = a.

Local Abbreviation E := (expected PAT lead_skipped charge_skipped).
Local Abbreviation charges := (charges_of charge_skipped E).

Definition good (k : string) (v : num) : Prop :=
  ∀ S, wf N S → join_comma S = k → v = E S.
Definition sound (σ : state) : Prop := ∀ k v, (k, v) ∈ memo σ → good k v.

Lemma top200_sound_empty : sound empty.
Proof. by intros k v ?%elem_of_nil. Qed.

Lemma top200_good_expected cands : wf N cands → good (join_comma cands) (E cands).
Proof. intros Hwf S HS Heq. by apply (inj join_comma) in Heq as ->. Qed.

Lemma top200_charges_nonneg cands bs : cands ≠ [] → Forall nonneg (charges cands bs).
Proof.
  apply charges_of_nonneg; [apply nonneg_one|apply charge_skipped_nonneg].
Qed.

Theorem top200_solveState_with_returns prune : ∀ fuel cands,
  wf N cands → length cands ≤ fuel →
  returns sound (solveState_with PAT prune fuel cands) (λ r, r = E cands).
Proof.
  intros fuel. induction fuel as [|fuel IH]; intros cands Hwf Hlen.
  { destruct cands; [|simpl in Hlen; lia]. by apply returns_ret. }
  cbn [solveState_with].
  destruct (decide (length cands ≤ 0)).
  { destruct cands; [|simpl in *; lia]. by apply returns_ret. }
  destruct (decide (length cands = 1)) as [Hone|Hmore].
  { destruct cands as [|x [|??]]; try done. by apply returns_ret. }
  assert (2 ≤ length cands) as Hlen2 by lia.
  eapply (returns_bind _ _ _ (λ cached, ∀ v, cached = Some v → v = E cands)).
  { intros σ Hσ. eexists _, σ. split_and!; [done..|].
    intros v Hget%JsMapFacts.get_elem. by eapply Hσ. }
  intros [v|] Hcached; [by apply returns_ret, Hcached|].
  eapply (returns_bind _ _ _ (λ best, best.1 = E cands)); last first.
  { intros [bestE bestG] Hbest. simpl in Hbest. subst bestE.
    eapply returns_bind.
    { apply returns_update. intros σ Hσ k v. simpl.
      intros [[= -> ->]|Hin]%JsMapFacts.set_elem; [by apply top200_good_expected|].
      by apply Hσ. }
    intros _ _. eapply (returns_bind _ _ _ (λ _, True));
      [|intros; by apply returns_ret].
    case_decide; [|by apply returns_ret].
    apply returns_update. intros σ Hσ k v. simpl. apply Hσ. }
  set (step := λ best g, keep_min best (cost PAT lead_skipped charge_skipped E cands g)).
  apply (returns_for_of _
    (λ rest best, ∃ seen, cands = seen ++ rest ∧ best.1 = foldl step Inf seen)).
  { by exists []. }
  2:{ intros best (seen & Hseen & ->). rewrite app_nil_r in Hseen. subst seen.
      by rewrite (expected_unfold N PAT _ _ PAT_diag). }
  intros g rest [best bestG] (seen & Hseen & Hbest). simpl in Hbest.
  assert (g ∈ cands) as Hg.
  { rewrite Hseen. apply elem_of_app. right. left. }
  set (bs := partition_with (PAT g) cands).
  eapply (returns_bind _ _ _
    (λ r, keep_min best (Num.add Num.one r) = step best g)).
  - apply (returns_for_of _
      (λ rest2 acc, ∃ seen2, bs = seen2 ++ rest2 ∧
         acc = foldl Num.add Num.zero (charges cands seen2))).
    { by exists []. }
    2:{ intros acc (seen2 & Hseen2 & ->). rewrite app_nil_r in Hseen2.
        subst seen2. unfold step. by rewrite cost_charges_of. }
    intros [pat arr] rest2 acc (seen2 & Hseen2 & Hacc).
    assert (wf N arr ∧ length arr ≤ fuel) as [Hwfa Hlena].
    { assert ((pat, arr) ∈ bs) as Hin.
      { rewrite Hseen2. apply elem_of_app. right. left. }
      destruct (bucket_facts N PAT PAT_diag cands g pat arr)
        as (_ & _ & ? & ? & _); [done..|].
      split; [done|lia]. }
    assert (∀ acc', acc' = Num.add acc (charge_skipped (length cands) pat arr (E arr)) →
      acc' = foldl Num.add Num.zero (charges cands (seen2 ++ [(pat, arr)]))) as Hnext.
    { intros acc' ->. unfold charges_of. rewrite fmap_app, foldl_app. simpl.
      by rewrite Hacc. }
    destruct (decide (pat = "22222")) as [Hpat|Hpat].
    { apply returns_ret. exists (seen2 ++ [(pat, arr)]).
      split; [by rewrite <-app_assoc|]. apply Hnext.
      unfold charge_skipped. rewrite decide_True by done. by rewrite add_0_r. }
    eapply returns_bind; [by apply IH|].
    intros subE ->.
    set (acc' := Num.add acc _).
    assert (acc' = foldl Num.add Num.zero (charges cands (seen2 ++ [(pat, arr)])))
      as Hacc'.
    { apply Hnext. unfold charge_skipped. by rewrite decide_False. }
    destruct (prune && Num.ge (Num.add Num.one acc') best) eqn:Hp.
    + apply andb_true_iff in Hp as [_ Hge]. apply returns_ret.
      unfold step. rewrite cost_charges_of. fold bs. rewrite Hseen2.
      unfold keep_min. rewrite (lt_irrefl_of_ge _ _ Hge).
      rewrite (cons_middle (pat, arr) seen2 rest2), app_assoc.
      unfold charges_of. rewrite fmap_app, foldl_app.
      fold (charges cands (seen2 ++ [(pat, arr)])). rewrite <-Hacc'.
      rewrite prune_sound; [done| |done].
      apply (top200_charges_nonneg cands rest2). by destruct cands.
    + apply returns_ret. exists (seen2 ++ [(pat, arr)]). split; [|done].
      by rewrite <-app_assoc.
  - intros r Hr. cbv zeta.
    destruct (Num.lt (Num.add Num.one r) best) eqn:Hlt; apply returns_ret;
      exists (seen ++ [g]); (split; [by rewrite <-app_assoc|]);
      rewrite foldl_app; simpl; rewrite <-Hbest, <-Hr; unfold keep_min;
      by rewrite Hlt.
Qed.

Lemma allCands_wf : wf N (allCands N).
Proof.
  split; [apply NoDup_seq|]. apply Forall_forall.
  intros i Hi%elem_of_seq. lia.
Qed.

Theorem expectedWithRoot_with_returns prune fuel rootIdx :
  N ≤ fuel →
  returns sound (expectedWithRoot_with N PAT prune fuel rootIdx)
    (λ r, r = cost PAT lead_skipped charge_skipped E (allCands N) rootIdx).
Proof.
  intros Hlen. unfold expectedWithRoot_with.
  set (bs := partition_with (PAT rootIdx) (allCands N)).
  eapply (returns_bind _ _ _
    (λ r, r = foldl Num.add Num.zero (charges (allCands N) bs))).
  - apply (returns_for_of _
      (λ rest2 acc, ∃ seen2, bs = seen2 ++ rest2 ∧
         acc = foldl Num.add Num.zero (charges (allCands N) seen2))).
    { by exists []. }
    2:{ intros acc (seen2 & Hseen2 & ->). rewrite app_nil_r in Hseen2.
        by subst seen2. }
    intros [pat arr] rest2 acc (seen2 & Hseen2 & Hacc).
    assert (wf N arr ∧ length arr ≤ fuel) as [Hwfa Hlena].
    { assert ((pat, arr) ∈ bs) as Hin.
      { rewrite Hseen2. apply elem_of_app. right. left. }
      destruct (partition_with_elem _ _ _ _ Hin) as [-> _].
      destruct allCands_wf as [Hnd Hall]. split; [split|].
      - by apply NoDup_filter.
      - apply Forall_forall. intros i [_ Hi]%list_elem_of_filter.
        by eapply (proj1 (Forall_forall _ _)) in Hall.
      - etrans; [apply length_filter|]. unfold allCands. by rewrite length_seq. }
    assert (∀ acc', acc' = Num.add acc (charge_skipped (length (allCands N)) pat arr (E arr)) →
      acc' = foldl Num.add Num.zero (charges (allCands N) (seen2 ++ [(pat, arr)])))
      as Hnext.
    { intros acc' ->. unfold charges_of. rewrite fmap_app, foldl_app. simpl.
      by rewrite Hacc. }
    destruct (decide (pat = "22222")) as [Hpat|Hpat].
    { apply returns_ret. exists (seen2 ++ [(pat, arr)]).
      split; [by rewrite <-app_assoc|]. apply Hnext.
      unfold charge_skipped. rewrite decide_True by done. by rewrite add_0_r. }
    eapply returns_bind; [by apply top200_solveState_with_returns|].
    intros subE ->. apply returns_ret. exists (seen2 ++ [(pat, arr)]).
    split; [by rewrite <-app_assoc|]. apply Hnext.
    unfold charge_skipped. by rewrite decide_False.
  - intros r ->. apply returns_ret. by rewrite cost_charges_of.
Qed.
End correct.

End DpTop200Facts.

(** ** dp_solver.js: the solver returns the recurrence's value *)

Module DpSolverFacts.
Import Num NumFacts Run RunFacts Partition Key Recurrence Variants.
Import DpSolver.

(** Candidate arrays are kept in increasing order. *)
Definition sorted (S : list nat) : Prop := StronglySorted Nat.le S.

Lemma sorted_filter (P : nat → Prop) `{∀ x, Decision (P x)} S :
  sorted S → sorted (filter P S).
Proof.
  unfold sorted. induction 1 as [|x S HS IH Hx]; [constructor|].
  rewrite filter_cons. case_decide; [|done]. constructor; [done|].
  apply Forall_forall. intros y [_ Hy]%list_elem_of_filter.
  by eapply (proj1 (Forall_forall _ _)) in Hx.
Qed.

Lemma sort_sorted S : sorted S → merge_sort Nat.le S = S.
Proof.
  intros HS. apply (Sorted_unique Nat.le).
  - apply Sorted_merge_sort. apply _.
  - by apply StronglySorted_Sorted.
  - apply merge_sort_Permutation.
Qed.

Lemma stateKey_sorted S : sorted S → stateKey S = join_comma S.
Proof. intros HS. unfold stateKey. by rewrite sort_sorted. Qed.

Section correct.
Variable N : nat.
Variable PAT : nat → nat → string.
Hypothesis PAT_diag : ∀ g a, g < N → a < N → PAT g a = "22222" ↔ g = a.

Local Abbreviation E := (expected PAT lead_branch charge_branch).
Local Abbreviation charges := (charges_of charge_branch E).

Definition good (k : string) (r : result) : Prop :=
  ∀ S, wf N S → sorted S → stateKey S = k → value r = E S.
Definition sound (dp : dp_t) : Prop := ∀ k r, (k, r) ∈ dp → good k r.

Lemma dp_sound_nil : sound [].
Proof. by intros k v ?%elem_of_nil. Qed.

Lemma dp_good_expected cands r :
  sorted cands → value r = E cands → good (stateKey cands) r.
Proof.
  intros Hs Hr S HS HsS Heq. rewrite !stateKey_sorted in Heq by done.
  by apply (inj join_comma) in Heq as ->.
Qed.

Lemma dp_charges_nonneg cands bs : cands ≠ [] → Forall nonneg (charges cands bs).
Proof.
  apply charges_of_nonneg; [apply nonneg_zero|apply charge_branch_nonneg].
Qed.

Theorem dp_solveState_with_returns prune : ∀ fuel SIndices,
  wf N SIndices → sorted SIndices → length SIndices ≤ fuel →
  returns sound (solveState_with PAT prune fuel SIndices)
    (λ r, value r = E SIndices).
Proof.
  intros fuel. induction fuel as [|fuel IH]; intros cands Hwf Hsorted Hlen.
  { destruct cands; [|simpl in Hlen; lia]. by apply returns_ret. }
  cbn [solveState_with].
  destruct (decide (length cands = 0)).
  { destruct cands; [|simpl in *; lia]. by apply returns_ret. }
  destruct (decide (length cands = 1)) as [Hone|Hmore].
  { destruct cands as [|x [|??]]; try done. by apply returns_ret. }
  assert (2 ≤ length cands) as Hlen2 by lia.
  eapply (returns_bind _ _ _ (λ hit, ∀ r, hit = Some r → value r = E cands)).
  { intros dp Hdp. eexists _, dp. split_and!; [done..|].
    intros r Hget%JsMapFacts.get_elem. by eapply Hdp. }
  intros [r|] Hhit; [by apply returns_ret, Hhit|].
  eapply (returns_bind _ _ _ (λ best, best.1 = E cands)); last first.
  { intros [bestValue bestG] Hbest. simpl in Hbest. subst bestValue.
    eapply (returns_bind _ _ _ (λ _, True)); [|intros; by apply returns_ret].
    apply returns_update. intros dp Hdp k r. simpl.
    intros [[= -> ->]|Hin]%JsMapFacts.set_elem; [by apply dp_good_expected|].
    by apply Hdp. }
  set (step := λ best g, keep_min best (cost PAT lead_branch charge_branch E cands g)).
  apply (returns_for_of _
    (λ rest best, ∃ seen, cands = seen ++ rest ∧ best.1 = foldl step Inf seen)).
  { by exists []. }
  2:{ intros best (seen & Hseen & ->). rewrite app_nil_r in Hseen. subst seen.
      by rewrite (expected_unfold N PAT _ _ PAT_diag). }
  intros g rest [best bestG] (seen & Hseen & Hbest). simpl in Hbest.
  assert (g ∈ cands) as Hg.
  { rewrite Hseen. apply elem_of_app. right. left. }
  unfold partitionState. cbv zeta.
  set (bs := partition_with (λ ansIdx, PAT g ansIdx) cands).
  assert (bs = partition_with (PAT g) cands) as Hbs by done.
  eapply (returns_bind _ _ _ (λ r, keep_min best r = step best g)).
  - apply (returns_for_of _
      (λ rest2 acc, ∃ seen2, bs = seen2 ++ rest2 ∧
         acc = foldl Num.add Num.zero (charges cands seen2))).
    { by exists []. }
    2:{ intros acc (seen2 & Hseen2 & ->). rewrite app_nil_r in Hseen2.
        subst seen2. unfold step. rewrite cost_charges_of, <-Hbs.
        unfold lead_branch. by rewrite add_0_l. }
    intros [pat arr] rest2 acc (seen2 & Hseen2 & Hacc).
    assert (wf N arr ∧ sorted arr ∧ length arr ≤ fuel) as (Hwfa & Hsa & Hlena).
    { assert ((pat, arr) ∈ bs) as Hin.
      { rewrite Hseen2. apply elem_of_app. right. left. }
      destruct (bucket_facts N PAT PAT_diag cands g pat arr)
        as (-> & _ & ? & ? & _); [done..|].
      split_and!; [done|by apply sorted_filter|lia]. }
    eapply (returns_bind _ _ _
      (λ acc', acc' = foldl Num.add Num.zero (charges cands (seen2 ++ [(pat, arr)])))).
    { assert (∀ acc', acc' = Num.add acc (charge_branch (length cands) pat arr (E arr)) →
        acc' = foldl Num.add Num.zero (charges cands (seen2 ++ [(pat, arr)]))) as Hnext.
      { intros acc' ->. unfold charges_of. rewrite fmap_app, foldl_app. simpl.
        by rewrite Hacc. }
      destruct (decide (pat = "22222")) as [Hpat|Hpat].
      - apply returns_ret. apply Hnext. unfold charge_branch.
        by rewrite decide_True.
      - eapply returns_bind; [by apply IH|].
        intros sub Hsub. apply returns_ret. apply Hnext. unfold charge_branch.
        by rewrite decide_False, Hsub. }
    intros acc' Hacc'.
    destruct (prune && Num.ge acc' best) eqn:Hp.
    + apply andb_true_iff in Hp as [_ Hge]. apply returns_ret.
      unfold step. rewrite cost_charges_of, <-Hbs, Hseen2.
      unfold keep_min. rewrite (lt_irrefl_of_ge _ _ Hge).
      rewrite (cons_middle (pat, arr) seen2 rest2), app_assoc.
      unfold charges_of. rewrite fmap_app, foldl_app.
      fold (charges cands (seen2 ++ [(pat, arr)])). rewrite <-Hacc'.
      rewrite prune_sound; [done| |].
      * apply (dp_charges_nonneg cands rest2). by destruct cands.
      * unfold lead_branch. by rewrite add_0_l.
    + apply returns_ret. exists (seen2 ++ [(pat, arr)]). split; [|done].
      by rewrite <-app_assoc.
  - intros r Hr.
    destruct (Num.lt r best) eqn:Hlt; apply returns_ret;
      exists (seen ++ [g]); (split; [by rewrite <-app_assoc|]);
      rewrite foldl_app; simpl; rewrite <-Hbest, <-Hr; unfold keep_min;
      by rewrite Hlt.
Qed.
End correct.

End DpSolverFacts.

(** ** Weighted sums of bucket values *)

Module Bounds.
Import Num NumFacts.
Local Open Scope Qc_scope.

(** Linear goals over [Qc] are sent to [Q], where [lra] decides them. *)
Ltac qc2q :=
  repeat match goal with
  | |- context [Qc_of_Z ?z] =>
      let m := fresh "m" in let Hm := fresh in
      remember (Qc_of_Z z) as m eqn:Hm; clear Hm
  | H : context [Qc_of_Z ?z] |- _ =>
      let m := fresh "m" in let Hm := fresh in
      remember (Qc_of_Z z) as m eqn:Hm; clear Hm
  end;
  unfold Qcle, Qclt, Qcminus, Qcopp, Qcplus, Qcmult, Q2Qc in *;
  simpl this in *;
  rewrite ?Qred_correct in *.

(** A finite value between [lo] and [hi]. *)
Definition within (lo hi : Qc) (x : num) : Prop :=
  ∃ q, x = Fin q ∧ lo ≤ q ∧ q ≤ hi.

(** The probability [s / n] of a bucket of size [s] in a set of size [n]. *)
Definition weight (n s : nat) : Qc := Qc_of_Z (Z.of_nat s) / Qc_of_Z (Z.of_nat n).

Definition total_weight (n : nat) (ss : list nat) : Qc :=
  foldr (λ s acc, weight n s + acc) 0 ss.

Lemma weight_nonneg n s : n ≠ 0%nat → 0 ≤ weight n s.
Proof.
  intros Hn. unfold weight.
  apply Qcmult_nonneg_nonneg; [apply Qc_of_nat_nonneg|].
  apply Qclt_le_weak, Qcinv_pos, Qc_of_nat_pos. lia.
Qed.

Lemma weight_pos n s : n ≠ 0%nat → (0 < s)%nat → 0 < weight n s.
Proof.
  intros Hn Hs. unfold weight.
  apply Qcmult_pos_pos; [by apply Qc_of_nat_pos|].
  apply Qcinv_pos, Qc_of_nat_pos. lia.
Qed.

Lemma total_weight_sum n ss :
  total_weight n ss = Qc_of_Z (Z.of_nat (sum_list ss)) / Qc_of_Z (Z.of_nat n).
Proof.
  induction ss as [|s ss IH].
  - change (Z.of_nat (sum_list [])) with 0%Z. unfold Qcdiv.
    by rewrite Z2Qc_inj_0, Qcmult_0_l.
  - cbn [total_weight foldr sum_list]. fold (total_weight n ss). rewrite IH.
    unfold weight, Qcdiv, id. rewrite Nat2Z.inj_add, Z2Qc_inj_add. ring.
Qed.

(** The probabilities of the buckets of a partition add up to one. *)
Lemma total_weight_one n ss :
  n ≠ 0%nat → sum_list ss = n → total_weight n ss = 1.
Proof.
  intros Hn Hsum. rewrite total_weight_sum, Hsum. unfold Qcdiv.
  apply Qcmult_inv_r. intros Heq. rewrite <-Z2Qc_inj_0 in Heq.
  apply Z2Qc_inj in Heq. lia.
Qed.

Lemma total_weight_nonneg n ss : n ≠ 0%nat → 0 ≤ total_weight n ss.
Proof.
  intros Hn. induction ss as [|s ss IH]; simpl; [apply Qcle_refl|].
  apply Qcplus_nonneg_nonneg; [by apply weight_nonneg|done].
Qed.

(** The charges [s / n * v] of a list of sized values. *)
Definition weighted (n : nat) (l : list (nat * num)) : list num :=
  (λ sv, Num.mul (Num.div_nat sv.1 n) sv.2) <$> l.

Lemma weighted_bounds n lo hi (l : list (nat * num)) : ∀ acc,
  n ≠ 0%nat → Forall (λ sv, within lo hi sv.2) l →
  ∃ r, foldl Num.add (Fin acc) (weighted n l) = Fin r ∧
       acc + lo * total_weight n l.*1 ≤ r ∧
       r ≤ acc + hi * total_weight n l.*1.
Proof.
  induction l as [|[s v] l IH]; intros acc Hn Hall.
  - exists acc. simpl. split; [done|]. rewrite !Qcmult_0_r, Qcplus_0_r.
    split; apply Qcle_refl.
  - inversion_clear Hall as [|?? (c & Hv & Hlo & Hhi) Hall']. simpl in Hv. subst v.
    cbn [weighted fmap list_fmap foldl fst snd].
    rewrite div_nat_fin by done. fold (weight n s). cbn [Num.mul Num.add].
    destruct (IH (acc + weight n s * c) Hn Hall') as (r & Hr & Hrlo & Hrhi).
    exists r. split; [exact Hr|].
    pose proof (weight_nonneg n s Hn) as Hw.
    assert (lo * weight n s ≤ weight n s * c).
    { rewrite (Qcmult_comm lo). by apply Qcmult_le_mono_nonneg_l. }
    assert (weight n s * c ≤ hi * weight n s).
    { rewrite (Qcmult_comm hi). by apply Qcmult_le_mono_nonneg_l. }
    rewrite ?fmap_cons. cbn [total_weight foldr fst].
    fold (total_weight n l.*1). rewrite !Qcmult_plus_distr_r.
    split; qc2q; lra.
Qed.

Lemma weighted_strict n lo hi (l : list (nat * num)) : ∀ acc,
  n ≠ 0%nat → Forall (λ sv, within lo hi sv.2) l →
  Exists (λ sv, (0 < sv.1)%nat ∧ ∃ q, sv.2 = Fin q ∧ lo < q) l →
  ∃ r, foldl Num.add (Fin acc) (weighted n l) = Fin r ∧
       acc + lo * total_weight n l.*1 < r.
Proof.
  induction l as [|[s v] l IH]; intros acc Hn Hall Hex.
  - by apply Exists_nil in Hex.
  - inversion_clear Hall as [|?? (c & Hv & Hlo & Hhi) Hall']. simpl in Hv. subst v.
    cbn [weighted fmap list_fmap foldl fst snd].
    rewrite div_nat_fin by done. fold (weight n s). cbn [Num.mul Num.add].
    rewrite ?fmap_cons. cbn [total_weight foldr fst].
    fold (total_weight n l.*1). rewrite !Qcmult_plus_distr_r.
    pose proof (weight_nonneg n s Hn) as Hw.
    apply Exists_cons in Hex as [(Hs & q & [= <-] & Hq)|Hex].
    + destruct (weighted_bounds n lo hi l (acc + weight n s * c) Hn Hall')
        as (r & Hr & Hrlo & _).
      exists r. split; [exact Hr|].
      assert (lo * weight n s < weight n s * c).
      { rewrite (Qcmult_comm lo). apply Qcmult_lt_mono_pos_l; [|done].
        apply weight_pos; [done|]. simpl in Hs. lia. }
      qc2q; lra.
    + destruct (IH (acc + weight n s * c) Hn Hall' Hex) as (r & Hr & Hrlo).
      exists r. split; [exact Hr|].
      assert (lo * weight n s ≤ weight n s * c).
      { rewrite (Qcmult_comm lo). by apply Qcmult_le_mono_nonneg_l. }
      qc2q; lra.
Qed.

Lemma Fin_eq (q1 q2 : Qc) : (this q1 == this q2)%Q → Fin q1 = Fin q2.
Proof. intros. f_equal. by apply Qc_is_canon. Qed.

(** Two numbers are equal when they are both finite with equal values. *)
Definition num_qeq (x y : num) : Prop :=
  match x, y with
  | Fin a, Fin b => (this a == this b)%Q
  | Inf, Inf => True
  | _, _ => False
  end.

Lemma Fin_eq_num x y : num_qeq x y → x = y.
Proof. destruct x, y; simpl; try done. apply Fin_eq. Qed.

Lemma Qc_of_nat_le (m n : nat) : (m ≤ n)%nat → Qc_of_Z (Z.of_nat m) ≤ Qc_of_Z (Z.of_nat n).
Proof. intros. rewrite <-Z2Qc_inj_le. lia. Qed.

End Bounds.

(** ** Values of the recurrence: two candidates, and the bounds *)

Module Values.
Import Num NumFacts Partition Recurrence Variants Bounds.

Section values.
Variable N : nat.
Variable PAT : nat → nat → string.
Hypothesis PAT_diag : ∀ g a, g < N → a < N → PAT g a = "22222" ↔ g = a.

Lemma wf_pair i j : wf N [i; j] ↔ i ≠ j ∧ i < N ∧ j < N.
Proof.
  unfold wf. rewrite !NoDup_cons, !Forall_cons, list_elem_of_singleton.
  split.
  - intros [(? & _ & _) (? & ? & _)]. done.
  - intros (? & ? & ?). split_and!; try done.
    + by intros ?%elem_of_nil.
    + constructor.
Qed.

(** The two partitions of a two-element set. *)
Lemma partition_pair_fst i j :
  i ≠ j → i < N → j < N →
  PAT i j ≠ "22222" ∧
  partition_with (PAT i) [i; j] = [("22222", [i]); (PAT i j, [j])].
Proof.
  intros Hij Hi Hj.
  assert (PAT i i = "22222") as Hii by (by apply PAT_diag).
  assert (PAT i j ≠ "22222") as Hne by (by rewrite PAT_diag).
  split; [done|]. unfold partition_with. simpl. rewrite Hii.
  by rewrite decide_False.
Qed.

Lemma partition_pair_snd i j :
  i ≠ j → i < N → j < N →
  PAT j i ≠ "22222" ∧
  partition_with (PAT j) [i; j] = [(PAT j i, [i]); ("22222", [j])].
Proof.
  intros Hij Hi Hj.
  assert (PAT j j = "22222") as Hjj by (by apply PAT_diag).
  assert (PAT j i ≠ "22222") as Hne by (by rewrite PAT_diag).
  split; [done|]. unfold partition_with. simpl. rewrite Hjj.
  by rewrite decide_False.
Qed.

(** main.js and dp_top_blocks.js charge the all-correct bucket through the
    recursion: two candidates cost two guesses. *)
Lemma expected_recursed_pair i j :
  wf N [i; j] →
  expected PAT lead_recursed charge_recursed [i; j] = Fin (Q2Qc 2).
Proof.
  intros (Hij & Hi & Hj)%wf_pair.
  destruct (partition_pair_fst i j) as [_ H1]; [done..|].
  destruct (partition_pair_snd i j) as [_ H2]; [done..|].
  unfold expected. cbn [length]. rewrite value_step. cbn [foldl].
  unfold cost. rewrite H1, H2. apply Fin_eq_num. vm_compute. reflexivity.
Qed.

(** dp_top200.js: one and a half. *)
Lemma expected_skipped_pair i j :
  wf N [i; j] →
  expected PAT lead_skipped charge_skipped [i; j] = Fin (Q2Qc (3 # 2)).
Proof.
  intros (Hij & Hi & Hj)%wf_pair.
  destruct (partition_pair_fst i j) as [Hn1 H1]; [done..|].
  destruct (partition_pair_snd i j) as [Hn2 H2]; [done..|].
  unfold expected. cbn [length]. rewrite value_step. cbn [foldl].
  unfold cost. rewrite H1, H2. cbn [foldl fst snd]. unfold charge_skipped.
  rewrite !(decide_True (P := "22222" = "22222")) by done.
  rewrite (decide_False (P := PAT i j = "22222")) by done.
  rewrite (decide_False (P := PAT j i = "22222")) by done.
  apply Fin_eq_num. vm_compute. reflexivity.
Qed.

(** dp_solver.js: one and a half. *)
Lemma expected_branch_pair i j :
  wf N [i; j] →
  expected PAT lead_branch charge_branch [i; j] = Fin (Q2Qc (3 # 2)).
Proof.
  intros (Hij & Hi & Hj)%wf_pair.
  destruct (partition_pair_fst i j) as [Hn1 H1]; [done..|].
  destruct (partition_pair_snd i j) as [Hn2 H2]; [done..|].
  unfold expected. cbn [length]. rewrite value_step. cbn [foldl].
  unfold cost. rewrite H1, H2. cbn [foldl fst snd]. unfold charge_branch.
  rewrite !(decide_True (P := "22222" = "22222")) by done.
  rewrite (decide_False (P := PAT i j = "22222")) by done.
  rewrite (decide_False (P := PAT j i = "22222")) by done.
  apply Fin_eq_num. vm_compute. reflexivity.
Qed.
Lemma within_weaken lo hi lo' hi' x :
  within lo hi x → (lo' ≤ lo)%Qc → (hi ≤ hi')%Qc → within lo' hi' x.
Proof.
  intros (q & -> & ? & ?) ??. exists q. split; [done|].
  split; by eapply Qcle_trans.
Qed.

Lemma bucket_sizes_weight cands g :
  cands ≠ [] →
  total_weight (length cands)
    (length <$> map_values (partition_with (PAT g) cands)) = 1%Qc.
Proof.
  intros Hne. apply total_weight_one; [by destruct cands|].
  apply partition_with_sizes.
Qed.

Local Open Scope Qc_scope.

(** Bounds for main.js and dp_top_blocks.js. *)
Theorem expected_recursed_bounds : ∀ n cands,
  (length cands ≤ n)%nat → wf N cands → cands ≠ [] →
  within 1 (Qc_of_Z (Z.of_nat (length cands)))
    (expected PAT lead_recursed charge_recursed cands) ∧
  ((2 ≤ length cands)%nat →
   within 2 (Qc_of_Z (Z.of_nat (length cands)))
     (expected PAT lead_recursed charge_recursed cands)).
Proof.
  induction n as [|n IH]; intros cands Hlen Hwf Hne.
  { destruct cands; [done|simpl in Hlen; lia]. }
  destruct cands as [|x [|y l]]; [done| |].
  { split; [|simpl; lia]. exists 1. split; [done|]. split; by compute. }
  set (cands := x :: y :: l) in *.
  assert (2 ≤ length cands)%nat as Hlen2 by (simpl; lia).
  cut (within 2 (Qc_of_Z (Z.of_nat (length cands)))
         (expected PAT lead_recursed charge_recursed cands)).
  { intros Hw. split; [|done]. eapply within_weaken; [exact Hw|by compute|].
    apply Qcle_refl. }
  rewrite (expected_unfold N PAT _ _ PAT_diag) by done.
  destruct (foldl_keep_min_Inf
    (cost PAT lead_recursed charge_recursed
       (expected PAT lead_recursed charge_recursed) cands) cands)
    as (g & Hg & ->); [done|].
  rewrite cost_charges_of.
  set (bs := partition_with (PAT g) cands).
  set (sized := (λ b : string * list nat,
    (length b.2, expected PAT lead_recursed charge_recursed b.2)) <$> bs).
  assert (charges_of charge_recursed
            (expected PAT lead_recursed charge_recursed) cands bs
          = weighted (length cands) sized) as ->.
  { unfold charges_of, weighted, sized. by rewrite <-list_fmap_compose. }
  assert (length cands ≠ 0%nat) as Hn0 by lia.
  destruct (weighted_bounds (length cands) 1
    (Qc_of_Z (Z.of_nat (length cands - 1))) sized 0 Hn0) as (r & Hr & Hlo & Hhi).
  { apply Forall_forall. intros sv ([pat arr] & -> & Hin)%list_elem_of_fmap.
    destruct (bucket_facts N PAT PAT_diag cands g pat arr)
      as (_ & Hane & Hwfa & Hlt & _); [done..|].
    cbn [fst snd]. destruct (IH arr) as [Hw _]; [simpl in *; lia|done..|].
    eapply within_weaken; [exact Hw|apply Qcle_refl|].
    apply Qc_of_nat_le. lia. }
  assert (sized.*1 = length <$> map_values bs) as Hsizes.
  { unfold sized, map_values. rewrite <-!list_fmap_compose. done. }
  rewrite Hsizes in Hlo, Hhi. unfold bs in Hlo, Hhi.
  rewrite bucket_sizes_weight in Hlo, Hhi by done.
  unfold Num.zero. rewrite Hr. unfold lead_recursed, Num.one. cbn [Num.add].
  exists (1 + r). split; [done|].
  assert (Qc_of_Z (Z.of_nat (length cands - 1))
          = Qc_of_Z (Z.of_nat (length cands)) - 1) as Hpred.
  { rewrite Nat2Z.inj_sub by lia. rewrite Z2Qc_inj_sub.
    change (Z.of_nat 1) with 1%Z. by rewrite Z2Qc_inj_1. }
  rewrite Hpred in Hhi. rewrite !Qcmult_1_r in *.
  unfold Qcminus in Hhi.
  set (m := Qc_of_Z (Z.of_nat (length cands))) in *.
  split; qc2q; lra.
Qed.
(** What dp_solver.js weighs a bucket with. *)
Definition branch_value (pat : string) (sub : num) : num :=
  if decide (pat = "22222") then Num.one else Num.add Num.one sub.

Lemma charge_branch_value size pat arr sub :
  charge_branch size pat arr sub
  = Num.mul (Num.div_nat (length arr) size) (branch_value pat sub).
Proof. unfold charge_branch, branch_value. by case_decide. Qed.

(** Bounds for dp_solver.js. *)
Theorem expected_branch_bounds : ∀ n cands,
  (length cands ≤ n)%nat → wf N cands → cands ≠ [] →
  within 1 (Qc_of_Z (Z.of_nat (length cands)))
    (expected PAT lead_branch charge_branch cands) ∧
  ((2 ≤ length cands)%nat →
   ∃ q, expected PAT lead_branch charge_branch cands = Fin q ∧
        1 < q ∧ q ≤ Qc_of_Z (Z.of_nat (length cands))).
Proof.
  induction n as [|n IH]; intros cands Hlen Hwf Hne.
  { destruct cands; [done|simpl in Hlen; lia]. }
  destruct cands as [|x [|y l]]; [done| |].
  { split; [|simpl; lia]. exists 1. split; [done|]. split; by compute. }
  set (cands := x :: y :: l) in *.
  assert (2 ≤ length cands)%nat as Hlen2 by (simpl; lia).
  cut (∃ q, expected PAT lead_branch charge_branch cands = Fin q ∧
        1 < q ∧ q ≤ Qc_of_Z (Z.of_nat (length cands))).
  { intros (q & Hq & Hlo & Hhi). split; [|by exists q].
    exists q. split; [done|]. split; [by apply Qclt_le_weak|done]. }
  rewrite (expected_unfold N PAT _ _ PAT_diag) by done.
  destruct (foldl_keep_min_Inf
    (cost PAT lead_branch charge_branch
       (expected PAT lead_branch charge_branch) cands) cands)
    as (g & Hg & ->); [done|].
  rewrite cost_charges_of.
  set (bs := partition_with (PAT g) cands).
  set (sized := (λ b : string * list nat,
    (length b.2,
     branch_value b.1 (expected PAT lead_branch charge_branch b.2))) <$> bs).
  assert (charges_of charge_branch
            (expected PAT lead_branch charge_branch) cands bs
          = weighted (length cands) sized) as ->.
  { unfold charges_of, weighted, sized. rewrite <-list_fmap_compose.
    apply list_fmap_ext. intros _ [pat arr] _. simpl.
    apply charge_branch_value. }
  assert (length cands ≠ 0%nat) as Hn0 by lia.
  assert (Forall (λ sv, within 1 (Qc_of_Z (Z.of_nat (length cands))) sv.2) sized)
    as Hall.
  { apply Forall_forall. intros sv ([pat arr] & -> & Hin)%list_elem_of_fmap.
    destruct (bucket_facts N PAT PAT_diag cands g pat arr)
      as (_ & Hane & Hwfa & Hlt & _); [done..|].
    cbn [fst snd]. unfold branch_value. case_decide.
    - exists 1. split; [done|]. split; [by compute|].
      rewrite <-Z2Qc_inj_1, <-Z2Qc_inj_le. lia.
    - destruct (IH arr) as [(q & -> & Hq1 & Hq2) _]; [simpl in *; lia|done..|].
      exists (1 + q). split; [done|].
      assert (Qc_of_Z (Z.of_nat (length arr)) + 1
              ≤ Qc_of_Z (Z.of_nat (length cands))) as Hle.
      { rewrite <-Z2Qc_inj_1, <-Z2Qc_inj_add, <-Z2Qc_inj_le. lia. }
      split; qc2q; lra. }
  destruct (weighted_bounds (length cands) 1
    (Qc_of_Z (Z.of_nat (length cands))) sized 0 Hn0 Hall) as (r & Hr & _ & Hhi).
  destruct (weighted_strict (length cands) 1
    (Qc_of_Z (Z.of_nat (length cands))) sized 0 Hn0 Hall) as (r' & Hr' & Hlo).
  { assert (∃ z, z ∈ cands ∧ z ≠ g) as (z & Hz & Hzg).
    { destruct Hwf as [[Hxy _]%NoDup_cons _].
      destruct (decide (x = g)) as [->|].
      - exists y. split; [right; left|]. intros ->. apply Hxy. left.
      - exists x. split; [left|done]. }
    assert (PAT g z ≠ "22222") as Hpat.
    { rewrite PAT_diag; [done|by eapply wf_elem..]. }
    assert (PAT g z ∈ map_keys bs) as Hkey.
    { apply partition_with_keys. by exists z. }
    apply list_elem_of_fmap in Hkey as ([pat arr] & Hp & Hin). simpl in Hp.
    subst pat.
    destruct (bucket_facts N PAT PAT_diag cands g (PAT g z) arr)
      as (_ & Hane & Hwfa & Hlt & _); [done..|].
    apply Exists_exists.
    exists (length arr, branch_value (PAT g z)
              (expected PAT lead_branch charge_branch arr)).
    split.
    { apply list_elem_of_fmap. by exists (PAT g z, arr). }
    cbn [fst snd]. split; [destruct arr; [done|simpl; lia]|].
    unfold branch_value. rewrite decide_False by done.
    destruct (IH arr) as [(q & -> & Hq1 & Hq2) _]; [simpl in *; lia|done..|].
    exists (1 + q). split; [done|]. qc2q; lra. }
  assert (sized.*1 = length <$> map_values bs) as Hsizes.
  { unfold sized, map_values. rewrite <-!list_fmap_compose. done. }
  rewrite Hsizes in Hlo, Hhi. unfold bs in Hlo, Hhi.
  rewrite bucket_sizes_weight in Hlo, Hhi by done.
  unfold Num.zero in *. rewrite Hr in Hr'. injection Hr' as <-.
  rewrite Hr. unfold lead_branch, Num.zero. cbn [Num.add].
  exists (0 + r). split; [done|].
  rewrite !Qcmult_1_r in *.
  set (m := Qc_of_Z (Z.of_nat (length cands))) in *.
  split; qc2q; lra.
Qed.
End values.

End Values.

(** * The properties of the specification *)

Section feedback_claims.
Import Feedback Partition.

(** C2. Duplicate letters are not double-counted: for every guess, secret
    and letter [c], the guess positions holding [c] that are marked
    present-elsewhere are at most the secret positions holding [c] that
    the guess does not match, hence at most the occurrences of [c] in
    the secret; so a letter the secret holds once is marked
    present-elsewhere at most once.  This holds for [pattern] of main.js,
    for [patternFor] of the table generator and for the [used]-array
    versions, and guessing ALLOW against LLAMA marks one L only. *)
Theorem C2_duplicate_letter_feedback (c : ascii) (guess answer : string) :
  (yellow_count c guess (pattern guess answer)
     ≤ unmatched_in_secret c guess answer
   ∧ yellow_count c guess (TableGen.patternFor guess answer)
     ≤ unmatched_in_secret c guess answer
   ∧ yellow_count c guess (patternOf guess answer)
     ≤ unmatched_in_secret c guess answer
   ∧ yellow_count c guess (patternFor guess answer)
     ≤ unmatched_in_secret c guess answer)
  ∧ unmatched_in_secret c guess answer ≤ occurrences c answer
  ∧ pattern "allow" "llama" = "12100"
  ∧ TableGen.patternFor "allow" "llama" = "12100"
  ∧ yellow_count "l" "allow" (pattern "allow" "llama") = 1.
Proof.
  rewrite pattern_spec, tablegen_patternFor_spec, patternOf_spec, patternFor_spec.
  split_and!; try apply spec_pattern_yellows.
  - apply unmatched_in_secret_le.
  - by vm_compute.
  - by vm_compute.
  - by vm_compute.
Qed.

(** C9. On five-letter words every implementation of the feedback
    computation returns the code of the specified two-pass algorithm run
    on the letters of the two words, so all of them agree. *)
Theorem C9_feedback_implementations_agree (guess answer : string) :
  String.length guess = 5 → String.length answer = 5 →
  let code := join_chars (encode_mark <$>
    spec_compute (list_ascii_of_string guess) (list_ascii_of_string answer)) in
  pattern guess answer = code
  ∧ patternOf guess answer = code
  ∧ patternFor guess answer = code
  ∧ TableGen.patternFor guess answer = code.
Proof.
  intros Hg Ha code. subst code. rewrite <-spec_pattern_letters by done.
  split_and!.
  - apply pattern_spec.
  - apply patternOf_spec.
  - apply patternFor_spec.
  - apply tablegen_patternFor_spec.
Qed.

Lemma C9_feedback_implementations_agree_witness :
  pattern "allow" "llama" = "12100"
  ∧ patternOf "allow" "llama" = "12100"
  ∧ patternFor "allow" "llama" = "12100"
  ∧ TableGen.patternFor "allow" "llama" = "12100".
Proof.
  exact (C9_feedback_implementations_agree "allow" "llama" eq_refl eq_refl).
Defined.

(** C6. The buckets of a partition are keyed by distinct codes, none is
    empty, a bucket holds exactly the elements of the set whose code
    against the guess is its key (so every element lands in one bucket
    and buckets at different places share no element), and the bucket
    sizes add up to the size of the set.  This holds for
    [partitionByPattern] of main.js and [partitionState] of
    dp_solver.js. *)
Theorem C6_partition_buckets :
  (∀ (S : list string) (guess : string),
     let m := partitionByPattern S guess in
     NoDup (map_keys m)
     ∧ (∀ k arr, (k, arr) ∈ m → arr ≠ [])
     ∧ (∀ k arr x, (k, arr) ∈ m → x ∈ arr ↔ x ∈ S ∧ pattern guess x = k)
     ∧ (∀ x, x ∈ S → ∃ arr, (pattern guess x, arr) ∈ m ∧ x ∈ arr)
     ∧ (∀ i j b1 b2 x, i ≠ j → m !! i = Some b1 → m !! j = Some b2 →
          x ∈ b1.2 → x ∉ b2.2)
     ∧ sum_list (length <$> map_values m) = length S)
  ∧ (∀ (patternMatrix : nat → nat → string) (SIndices : list nat) (guessIdx : nat),
     let m := partitionState patternMatrix SIndices guessIdx in
     NoDup (map_keys m)
     ∧ (∀ k arr, (k, arr) ∈ m → arr ≠ [])
     ∧ (∀ k arr x, (k, arr) ∈ m →
          x ∈ arr ↔ x ∈ SIndices ∧ patternMatrix guessIdx x = k)
     ∧ (∀ x, x ∈ SIndices → ∃ arr, (patternMatrix guessIdx x, arr) ∈ m ∧ x ∈ arr)
     ∧ (∀ i j b1 b2 x, i ≠ j → m !! i = Some b1 → m !! j = Some b2 →
          x ∈ b1.2 → x ∉ b2.2)
     ∧ sum_list (length <$> map_values m) = length SIndices).
Proof.
  assert (Hgen : ∀ (A : Type) (code : A → string) (S : list A),
    let m := partition_with code S in
    NoDup (map_keys m)
    ∧ (∀ k arr, (k, arr) ∈ m → arr ≠ [])
    ∧ (∀ k arr x, (k, arr) ∈ m → x ∈ arr ↔ x ∈ S ∧ code x = k)
    ∧ (∀ x, x ∈ S → ∃ arr, (code x, arr) ∈ m ∧ x ∈ arr)
    ∧ (∀ i j b1 b2 x, i ≠ j → m !! i = Some b1 → m !! j = Some b2 →
         x ∈ b1.2 → x ∉ b2.2)
    ∧ sum_list (length <$> map_values m) = length S).
  { intros A code S. cbv zeta. set (m := partition_with code S).
    assert (Hmem : ∀ k arr x, (k, arr) ∈ m → x ∈ arr ↔ x ∈ S ∧ code x = k).
    { intros k arr x Hin. destruct (partition_with_elem _ _ _ _ Hin) as [-> _].
      rewrite list_elem_of_filter. naive_solver. }
    split_and!.
    - apply partition_with_NoDup.
    - intros k arr Hin. by destruct (partition_with_elem _ _ _ _ Hin).
    - exact Hmem.
    - intros x Hx.
      assert (code x ∈ map_keys m) as Hk by (apply partition_with_keys; eauto).
      apply list_elem_of_fmap in Hk as ([k arr] & Hk & Hin). simpl in Hk. subst k.
      exists arr. split; [done|]. by apply (Hmem (code x) arr x).
    - intros i j [k1 arr1] [k2 arr2] x Hij H1 H2 Hx1 Hx2. simpl in *.
      unfold buckets in *.
      apply (Hmem k1 arr1 x) in Hx1 as [_ Hk1];
        [|by eapply list_elem_of_lookup_2].
      apply (Hmem k2 arr2 x) in Hx2 as [_ Hk2];
        [|by eapply list_elem_of_lookup_2].
      apply Hij. eapply (NoDup_lookup (map_keys m) i j (code x)).
      + apply partition_with_NoDup.
      + unfold map_keys. rewrite list_lookup_fmap, H1. simpl. by rewrite <-Hk1.
      + unfold map_keys. rewrite list_lookup_fmap, H2. simpl. by rewrite <-Hk2.
    - apply partition_with_sizes. }
  split.
  - intros S guess. apply (Hgen string (λ ans, pattern guess ans) S).
  - intros patternMatrix SIndices guessIdx.
    apply (Hgen nat (λ ansIdx, patternMatrix guessIdx ansIdx) SIndices).
Qed.

(** C10. For five-letter words the feedback code is all-correct exactly
    when guess and secret are the same word; so when the guess is a
    member of a duplicate-free candidate set, the all-correct bucket of
    the partition by that guess is the guess alone. *)
Theorem C10_all_correct_iff_same_word :
  (∀ g a : string, String.length g = 5 → String.length a = 5 →
     (pattern g a = "22222" ↔ g = a) ∧ (patternFor g a = "22222" ↔ g = a))
  ∧ (∀ (S : list string) (g : string),
       NoDup S → Forall (λ w, String.length w = 5) S → g ∈ S →
       JsMap.get "22222" (partitionByPattern S g) = Some [g]).
Proof.
  split.
  - intros g a Hg Ha. rewrite pattern_spec, patternFor_spec.
    split; by apply spec_pattern_all_correct.
  - intros S g Hnd Hlen Hg.
    pose proof (partition_with_get (λ ans, pattern g ans) S "22222") as Hget.
    assert ("22222" ∈ map_keys (partitionByPattern S g)) as Hkey.
    { apply partition_with_keys. exists g. split; [done|].
      rewrite pattern_spec. apply spec_pattern_all_correct; [..|done];
        by eapply (proj1 (Forall_forall _ _)) in Hlen. }
    destruct (JsMap.get "22222" (partitionByPattern S g)) as [arr|] eqn:Harr;
      [|by apply map_get_None in Harr].
    unfold partitionByPattern in Harr. rewrite Harr in Hget. simpl in Hget.
    f_equal. rewrite Hget. clear Harr Hget Hkey.
    assert (Hg5 : String.length g = 5)
      by (by eapply (proj1 (Forall_forall _ _)) in Hlen).
    induction S as [|w S IH]; [by apply elem_of_nil in Hg|].
    apply NoDup_cons in Hnd as [Hw Hnd]. inversion_clear Hlen as [|?? Hw5 Hlen'].
    rewrite filter_cons.
    assert (pattern g w = "22222" ↔ g = w) as Hiff.
    { rewrite pattern_spec. by apply spec_pattern_all_correct. }
    destruct (decide (pattern g w = "22222")) as [Hp|Hp].
    + apply Hiff in Hp as <-. f_equal.
      destruct (filter (λ x, pattern g x = "22222") S) as [|z zs] eqn:Hf; [done|].
      assert (z ∈ filter (λ x, pattern g x = "22222") S)
        as [Hpz Hz]%list_elem_of_filter by (rewrite Hf; left).
      rewrite pattern_spec in Hpz.
      assert (String.length z = 5) as Hz5
        by (by eapply (proj1 (Forall_forall _ _)) in Hlen').
      apply (proj1 (spec_pattern_all_correct g z Hg5 Hz5)) in Hpz. congruence.
    + apply IH; [done..|]. apply elem_of_cons in Hg as [->|]; [|done].
      destruct Hp. by apply Hiff.
Qed.

Lemma C10_all_correct_iff_same_word_witness :
  (pattern "abide" "abide" = "22222" ↔ "abide" = "abide")
  ∧ JsMap.get "22222" (partitionByPattern ["speed"; "abide"; "crane"] "abide")
    = Some ["abide"].
Proof.
  split.
  - apply (proj1 C10_all_correct_iff_same_word "abide" "abide" eq_refl eq_refl).
  - apply (proj2 C10_all_correct_iff_same_word).
    + by apply (bool_decide_unpack _).
    + by repeat constructor.
    + right; left.
Defined.
End feedback_claims.

(** ** Runs of the solvers over a universe of words *)

Module Runs.
Import Num NumFacts Run RunFacts Partition Recurrence Variants.

Lemma returns_run {Σ A} (I : Σ → Prop) (c : M Σ A) (P : A → Prop) σ :
  returns I c P → I σ → ∃ a σ', c σ = Some (a, σ') ∧ I σ' ∧ P a.
Proof. intros Hc Hσ. apply Hc, Hσ. Qed.

Section runs.
Variable WORDS : list string.
Hypothesis Huniverse : universe WORDS.

Local Abbreviation N := (length WORDS).
Local Abbreviation PAT := (pattern_table Feedback.patternFor WORDS).
Local Abbreviation patternMatrix := (pattern_table Feedback.patternOf WORDS).

Lemma PAT_diag g a : g < N → a < N → PAT g a = "22222" ↔ g = a.
Proof. apply pattern_table_diag; [apply Feedback.patternFor_spec|done]. Qed.

Lemma patternMatrix_diag g a :
  g < N → a < N → patternMatrix g a = "22222" ↔ g = a.
Proof. apply pattern_table_diag; [apply Feedback.patternOf_spec|done]. Qed.

Lemma mainjs_run prune fuel cands σ :
  MainJsFacts.sound N PAT σ → wf N cands → length cands ≤ fuel →
  ∃ σ', MainJs.solveState_with PAT prune fuel cands σ
        = Some (expected PAT lead_recursed charge_recursed cands, σ')
        ∧ MainJsFacts.sound N PAT σ'.
Proof.
  intros Hσ Hwf Hlen.
  destruct (returns_run _ _ _ σ
    (MainJsFacts.solveState_with_returns N PAT PAT_diag prune fuel cands Hwf Hlen) Hσ)
    as (a & σ' & Hrun & Hσ' & ->).
  by exists σ'.
Qed.

Lemma mainjs_root_run prune fuel rootIdx allCands σ :
  MainJsFacts.sound N PAT σ → wf N allCands → length allCands ≤ fuel →
  ∃ σ', MainJs.expectedGivenFirstGuess_with PAT prune fuel rootIdx allCands σ
        = Some (cost PAT lead_recursed charge_recursed
                  (expected PAT lead_recursed charge_recursed) allCands rootIdx, σ')
        ∧ MainJsFacts.sound N PAT σ'.
Proof.
  intros Hσ Hwf Hlen.
  destruct (returns_run _ _ _ σ
    (MainJsFacts.expectedGivenFirstGuess_with_returns N PAT PAT_diag prune fuel
       rootIdx allCands Hwf Hlen) Hσ)
    as (a & σ' & Hrun & Hσ' & ->).
  by exists σ'.
Qed.

Lemma blocks_run c prune fuel cands memo :
  DpTopBlocksFacts.cache_ok N PAT c →
  DpTopBlocksFacts.sound N PAT memo → wf N cands → length cands ≤ fuel →
  ∃ memo', DpTopBlocks.solveTail_with PAT c prune fuel cands memo
        = Some (expected PAT lead_recursed charge_recursed cands, memo')
        ∧ DpTopBlocksFacts.sound N PAT memo'.
Proof.
  intros Hc Hσ Hwf Hlen.
  destruct (returns_run _ _ _ memo
    (DpTopBlocksFacts.solveTail_with_returns N PAT PAT_diag c prune Hc fuel cands
       Hwf Hlen) Hσ)
    as (a & σ' & Hrun & Hσ' & ->).
  by exists σ'.
Qed.

Lemma blocks_root_run c prune fuel gIdx memo :
  DpTopBlocksFacts.cache_ok N PAT c →
  DpTopBlocksFacts.sound N PAT memo → N ≤ fuel →
  ∃ memo', DpTopBlocks.solveWithFixedRoot_with N PAT c prune fuel gIdx memo
        = Some (cost PAT lead_recursed charge_recursed
                  (expected PAT lead_recursed charge_recursed) (seq 0 N) gIdx, memo')
        ∧ DpTopBlocksFacts.sound N PAT memo'.
Proof.
  intros Hc Hσ Hlen.
  destruct (returns_run _ _ _ memo
    (DpTopBlocksFacts.solveWithFixedRoot_with_returns N PAT PAT_diag c prune fuel
       gIdx Hc Hlen) Hσ)
    as (a & σ' & Hrun & Hσ' & ->).
  by exists σ'.
Qed.

Lemma top200_run prune fuel cands σ :
  DpTop200Facts.sound N PAT σ → wf N cands → length cands ≤ fuel →
  ∃ σ', DpTop200.solveState_with PAT prune fuel cands σ
        = Some (expected PAT lead_skipped charge_skipped cands, σ')
        ∧ DpTop200Facts.sound N PAT σ'.
Proof.
  intros Hσ Hwf Hlen.
  destruct (returns_run _ _ _ σ
    (DpTop200Facts.top200_solveState_with_returns N PAT PAT_diag prune fuel cands Hwf Hlen) Hσ)
    as (a & σ' & Hrun & Hσ' & ->).
  by exists σ'.
Qed.

Lemma top200_root_run prune fuel rootIdx σ :
  DpTop200Facts.sound N PAT σ → N ≤ fuel →
  ∃ σ', DpTop200.expectedWithRoot_with N PAT prune fuel rootIdx σ
        = Some (cost PAT lead_skipped charge_skipped
                  (expected PAT lead_skipped charge_skipped)
                  (DpTop200.allCands N) rootIdx, σ')
        ∧ DpTop200Facts.sound N PAT σ'.
Proof.
  intros Hσ Hlen.
  destruct (returns_run _ _ _ σ
    (DpTop200Facts.expectedWithRoot_with_returns N PAT PAT_diag prune fuel
       rootIdx Hlen) Hσ)
    as (a & σ' & Hrun & Hσ' & ->).
  by exists σ'.
Qed.

Lemma dpsolver_run prune fuel SIndices dp :
  DpSolverFacts.sound N patternMatrix dp →
  wf N SIndices → DpSolverFacts.sorted SIndices → length SIndices ≤ fuel →
  ∃ r dp', DpSolver.solveState_with patternMatrix prune fuel SIndices dp
        = Some (r, dp')
        ∧ DpSolver.value r = expected patternMatrix lead_branch charge_branch SIndices
        ∧ DpSolverFacts.sound N patternMatrix dp'.
Proof.
  intros Hσ Hwf Hs Hlen.
  destruct (returns_run _ _ _ dp
    (DpSolverFacts.dp_solveState_with_returns N patternMatrix patternMatrix_diag
       prune fuel SIndices Hwf Hs Hlen) Hσ)
    as (a & σ' & Hrun & Hσ' & Ha).
  by exists a, σ'.
Qed.
End runs.

End Runs.

(** * The exact solvers: the claims *)

(** ** The specification's root evaluator *)

Module RootEvaluator.
Import Num Partition.

(** Following the specification's wording: one for the forced guess, plus
    every bucket of the partition of the full universe weighted by its
    probability; the all-correct bucket is not handed to the evaluator and
    counts as one. *)
Definition forcedFirstGuessCost (PAT : nat → nat → string)
    (evaluatorFn : list nat → num) (fullUniverse : list nat) (guess : nat) : num :=
  (1 + foldl (λ acc b,
         let p := length b.2 // length fullUniverse in
         acc + p * (if decide (b.1 = "22222") then 1 else evaluatorFn b.2))
       0 (partition_with (PAT guess) fullUniverse))%num.

(** The same sum where the all-correct bucket adds nothing. *)
Definition forcedFirstGuessCost_solved_free (PAT : nat → nat → string)
    (evaluatorFn : list nat → num) (fullUniverse : list nat) (guess : nat) : num :=
  (1 + foldl (λ acc b,
         let p := length b.2 // length fullUniverse in
         if decide (b.1 = "22222") then acc else acc + p * evaluatorFn b.2)
       0 (partition_with (PAT guess) fullUniverse))%num.

End RootEvaluator.

(** Each solver as a function of the candidate set, on a fresh memo. *)
Definition steps {Σ} (solve : list nat → Run.M Σ Num.num) (fresh : Σ)
    (cands : list nat) : Num.num :=
  default Num.Inf (fst <$> solve cands fresh).

Definition two_words : list string := ["crane"; "slate"].

Lemma two_words_universe : universe two_words.
Proof.
  split; [|by repeat constructor].
  apply NoDup_cons. split; [|apply NoDup_singleton].
  by intros [=]%list_elem_of_singleton.
Qed.

Lemma demo_words_universe : universe DpTopBlocks.demo_words.
Proof.
  split; [|by repeat constructor].
  unfold DpTopBlocks.demo_words.
  repeat (apply NoDup_cons; split;
    [rewrite ?elem_of_cons, elem_of_nil; intros H;
     repeat (destruct H as [H|H]; [discriminate H|]); done|]).
  apply NoDup_nil_2.
Qed.

Lemma seq_sorted a n : DpSolverFacts.sorted (seq a n).
Proof.
  revert a. induction n as [|n IH]; intros a; simpl; constructor; [apply IH|].
  apply Forall_forall. intros i Hi%elem_of_seq. lia.
Qed.

Section solver_claims.
Import Num NumFacts Run Partition Recurrence Variants Bounds RootEvaluator Runs.

(** C7. On an empty candidate set each exact solver returns normally: main.js
    and dp_top_blocks.js return the degenerate value 0, dp_solver.js the pair
    of value 0 and guess -1; the memo is left as it was, whatever the
    pattern table, the fuel and the memo are. *)
Theorem C7_empty_set_returns_degenerate_value :
  ∀ (PAT : nat → nat → string) (fuel : nat),
    (∀ σ, MainJs.solveState PAT fuel [] σ = Some (Num.zero, σ)) ∧
    (∀ dp, DpSolver.solveState PAT fuel [] dp
           = Some (DpSolver.Result Num.zero (-1), dp)) ∧
    (∀ memo, DpTopBlocks.solveTail PAT fuel [] memo = Some (Num.zero, memo)).
Proof. intros PAT fuel. split_and!; intros σ; by destruct fuel. Qed.

(** C7, as stated, fails: on the empty candidate set no solver fails; each
    yields an ordinary result. *)
Lemma C7_empty_set_is_not_a_failure :
  let PAT := pattern_table Feedback.patternFor two_words in
  MainJs.solveState PAT 0 [] MainJs.empty = Some (Num.zero, MainJs.empty) ∧
  DpSolver.solveState (pattern_table Feedback.patternOf two_words) 0 [] []
    = Some (DpSolver.Result Num.zero (-1), []) ∧
  DpTopBlocks.solveTail PAT 0 [] [] = Some (Num.zero, []) ∧
  MainJs.solveState PAT 0 [] MainJs.empty ≠ None.
Proof. by split_and!. Qed.

(** C1. On a candidate set of exactly two words, [solveState] of
    dp_solver.js and of dp_top200.js return one and a half, while
    [solveState] of main.js returns two: it charges the all-correct bucket
    one more guess. *)
Theorem C1_two_candidates (WORDS : list string) (fuel i j : nat) :
  universe WORDS → i < j → j < length WORDS → 2 ≤ fuel →
  let PAT := pattern_table Feedback.patternFor WORDS in
  let patternMatrix := pattern_table Feedback.patternOf WORDS in
  DpSolver.value ∘ fst <$> DpSolver.solveState patternMatrix fuel [i; j] []
    = Some (Fin (Q2Qc (3 # 2))) ∧
  fst <$> DpTop200.solveState PAT fuel [i; j] DpTop200.empty
    = Some (Fin (Q2Qc (3 # 2))) ∧
  fst <$> MainJs.solveState PAT fuel [i; j] MainJs.empty
    = Some (Fin (Q2Qc 2)).
Proof.
  intros Huni Hij Hj Hfuel PAT patternMatrix.
  assert (Hwf : wf (length WORDS) [i; j]).
  { apply Values.wf_pair. lia. }
  split_and!.
  - destruct (dpsolver_run WORDS Huni true fuel [i; j] [])
      as (r & dp' & Hrun & Hr & _); [apply DpSolverFacts.dp_sound_nil|done| |done|].
    { repeat constructor. lia. }
    unfold DpSolver.solveState, patternMatrix. rewrite Hrun. simpl. rewrite Hr.
    f_equal. by apply Values.expected_branch_pair with (N := length WORDS);
      [apply patternMatrix_diag|].
  - destruct (top200_run WORDS Huni true fuel [i; j] DpTop200.empty)
      as (σ' & Hrun & _); [apply DpTop200Facts.top200_sound_empty|done..|].
    unfold DpTop200.solveState, PAT. rewrite Hrun. simpl.
    f_equal. by apply Values.expected_skipped_pair with (N := length WORDS);
      [apply PAT_diag|].
  - destruct (mainjs_run WORDS Huni true fuel [i; j] MainJs.empty)
      as (σ' & Hrun & _); [apply MainJsFacts.sound_empty|done..|].
    unfold MainJs.solveState, PAT. rewrite Hrun. simpl.
    f_equal. by apply Values.expected_recursed_pair with (N := length WORDS);
      [apply PAT_diag|].
Qed.

Lemma C1_two_candidates_witness :
  DpSolver.value ∘ fst
    <$> DpSolver.solveState (pattern_table Feedback.patternOf two_words) 2 [0; 1] []
    = Some (Fin (Q2Qc (3 # 2))) ∧
  fst <$> DpTop200.solveState (pattern_table Feedback.patternFor two_words) 2 [0; 1]
            DpTop200.empty
    = Some (Fin (Q2Qc (3 # 2))) ∧
  fst <$> MainJs.solveState (pattern_table Feedback.patternFor two_words) 2 [0; 1]
            MainJs.empty
    = Some (Fin (Q2Qc 2)).
Proof.
  apply (C1_two_candidates two_words 2 0 1 two_words_universe);
    [lia|simpl; lia|lia].
Defined.

(** On the buckets of a partition of a well-formed set, each solver run on
    a fresh memo returns the value of the recurrence. *)
Lemma steps_mainjs WORDS fuel arr :
  universe WORDS → wf (length WORDS) arr → length arr ≤ fuel →
  steps (MainJs.solveState (pattern_table Feedback.patternFor WORDS) fuel)
    MainJs.empty arr
  = expected (pattern_table Feedback.patternFor WORDS) lead_recursed charge_recursed arr.
Proof.
  intros Huni Hwf Hlen.
  destruct (mainjs_run WORDS Huni true fuel arr MainJs.empty)
    as (σ' & Hrun & _); [apply MainJsFacts.sound_empty|done..|].
  unfold steps, MainJs.solveState. by rewrite Hrun.
Qed.

Lemma steps_blocks WORDS fuel arr :
  universe WORDS → wf (length WORDS) arr → length arr ≤ fuel →
  steps (DpTopBlocks.solveTail (pattern_table Feedback.patternFor WORDS) fuel) [] arr
  = expected (pattern_table Feedback.patternFor WORDS) lead_recursed charge_recursed arr.
Proof.
  intros Huni Hwf Hlen.
  destruct (blocks_run WORDS Huni
              (DpTopBlocks.bounded_cache DpTopBlocks.MAX_MEMO_ENTRIES
                 DpTopBlocks.EVICT_FRACTION) true fuel arr [])
    as (σ' & Hrun & _);
    [apply DpTopBlocksFacts.bounded_cache_ok|apply DpTopBlocksFacts.sound_nil|done..|].
  unfold steps, DpTopBlocks.solveTail. by rewrite Hrun.
Qed.

Lemma steps_top200 WORDS fuel arr :
  universe WORDS → wf (length WORDS) arr → length arr ≤ fuel →
  steps (DpTop200.solveState (pattern_table Feedback.patternFor WORDS) fuel)
    DpTop200.empty arr
  = expected (pattern_table Feedback.patternFor WORDS) lead_skipped charge_skipped arr.
Proof.
  intros Huni Hwf Hlen.
  destruct (top200_run WORDS Huni true fuel arr DpTop200.empty)
    as (σ' & Hrun & _); [apply DpTop200Facts.top200_sound_empty|done..|].
  unfold steps, DpTop200.solveState. by rewrite Hrun.
Qed.

(** The root cost of the recurrence that recurses into every bucket is the
    specification's sum, for any evaluator that agrees with the recurrence
    on the buckets. *)
Lemma cost_recursed_forced WORDS (ev : list nat → Num.num) g :
  universe WORDS → g < length WORDS →
  let N := length WORDS in
  let PAT := pattern_table Feedback.patternFor WORDS in
  (∀ arr, wf N arr → length arr ≤ N →
     ev arr = expected PAT lead_recursed charge_recursed arr) →
  cost PAT lead_recursed charge_recursed
    (expected PAT lead_recursed charge_recursed) (seq 0 N) g
  = forcedFirstGuessCost PAT ev (seq 0 N) g.
Proof.
  intros Huni Hg N PAT Hev. unfold cost, forcedFirstGuessCost, lead_recursed.
  f_equal. apply foldl_ext_in. intros acc [pat arr] Hin. cbn [fst snd].
  unfold charge_recursed. do 2 f_equal.
  case_decide as Hpat.
  - subst pat.
    rewrite (all_correct_bucket N PAT (PAT_diag WORDS Huni) (seq 0 N) g arr);
      [done|apply DpTopBlocksFacts.seq_wf| |done].
    apply elem_of_seq. lia.
  - symmetry. destruct (MainJsFacts.bucket_wf N PAT (seq 0 N) g arr) as [Hwf Hlen].
    + apply DpTopBlocksFacts.seq_wf.
    + unfold map_values. apply list_elem_of_fmap. by exists (pat, arr).
    + apply Hev; [done|]. by rewrite length_seq in Hlen.
Qed.

(** The root cost of the recurrence that skips the all-correct bucket is
    the sum where that bucket adds nothing. *)
Lemma cost_skipped_forced WORDS (ev : list nat → Num.num) g :
  universe WORDS → g < length WORDS →
  let N := length WORDS in
  let PAT := pattern_table Feedback.patternFor WORDS in
  (∀ arr, wf N arr → length arr ≤ N →
     ev arr = expected PAT lead_skipped charge_skipped arr) →
  cost PAT lead_skipped charge_skipped
    (expected PAT lead_skipped charge_skipped) (DpTop200.allCands N) g
  = forcedFirstGuessCost_solved_free PAT ev (seq 0 N) g.
Proof.
  intros Huni Hg N PAT Hev.
  unfold cost, forcedFirstGuessCost_solved_free, lead_skipped, DpTop200.allCands.
  f_equal. apply foldl_ext_in. intros acc [pat arr] Hin. cbn [fst snd].
  unfold charge_skipped. case_decide as Hpat; [apply add_0_r|].
  do 2 f_equal. symmetry.
  destruct (MainJsFacts.bucket_wf N PAT (seq 0 N) g arr) as [Hwf Hlen].
  - apply DpTopBlocksFacts.seq_wf.
  - unfold map_values. apply list_elem_of_fmap. by exists (pat, arr).
  - apply Hev; [done|]. by rewrite length_seq in Hlen.
Qed.

(** C3. Forcing the first guess [g] on the full universe: in main.js
    ([expectedGivenFirstGuess]) and dp_top_blocks.js ([solveWithFixedRoot])
    the root cost is one plus the probability-weighted sum of the solver's
    value over the buckets, the all-correct bucket counting as one; in
    dp_top200.js ([expectedWithRoot]) it is one plus the same sum with the
    all-correct bucket left out, adding nothing. *)
Theorem C3_forced_first_guess_cost (WORDS : list string) (fuel g : nat) :
  universe WORDS → g < length WORDS → length WORDS ≤ fuel →
  let N := length WORDS in
  let PAT := pattern_table Feedback.patternFor WORDS in
  fst <$> MainJs.expectedGivenFirstGuess PAT fuel g (seq 0 N) MainJs.empty
    = Some (forcedFirstGuessCost PAT
              (steps (MainJs.solveState PAT fuel) MainJs.empty) (seq 0 N) g) ∧
  fst <$> DpTopBlocks.solveWithFixedRoot N PAT fuel g []
    = Some (forcedFirstGuessCost PAT
              (steps (DpTopBlocks.solveTail PAT fuel) []) (seq 0 N) g) ∧
  fst <$> DpTop200.expectedWithRoot N PAT fuel g DpTop200.empty
    = Some (forcedFirstGuessCost_solved_free PAT
              (steps (DpTop200.solveState PAT fuel) DpTop200.empty) (seq 0 N) g).
Proof.
  intros Huni Hg Hfuel N PAT. subst N PAT. split_and!.
  - destruct (mainjs_root_run WORDS Huni true fuel g (seq 0 (length WORDS)) MainJs.empty)
      as (σ' & Hrun & _);
      [apply MainJsFacts.sound_empty|apply DpTopBlocksFacts.seq_wf
      |by rewrite length_seq|].
    unfold MainJs.expectedGivenFirstGuess. rewrite Hrun. simpl. f_equal.
    apply cost_recursed_forced; [done..|].
    intros arr Hwf Hlen. apply steps_mainjs; [done..|]. lia.
  - destruct (blocks_root_run WORDS Huni
                (DpTopBlocks.bounded_cache DpTopBlocks.MAX_MEMO_ENTRIES
                   DpTopBlocks.EVICT_FRACTION) true fuel g [])
      as (σ' & Hrun & _);
      [apply DpTopBlocksFacts.bounded_cache_ok|apply DpTopBlocksFacts.sound_nil
      |done|].
    unfold DpTopBlocks.solveWithFixedRoot. rewrite Hrun. simpl. f_equal.
    apply cost_recursed_forced; [done..|].
    intros arr Hwf Hlen. apply steps_blocks; [done..|]. lia.
  - destruct (top200_root_run WORDS Huni true fuel g DpTop200.empty)
      as (σ' & Hrun & _); [apply DpTop200Facts.top200_sound_empty|done|].
    unfold DpTop200.expectedWithRoot. rewrite Hrun. simpl. f_equal.
    apply cost_skipped_forced; [done..|].
    intros arr Hwf Hlen. apply steps_top200; [done..|]. lia.
Qed.

Lemma C3_forced_first_guess_cost_witness :
  let WORDS := DpTopBlocks.demo_words in
  let PAT := pattern_table Feedback.patternFor WORDS in
  fst <$> MainJs.expectedGivenFirstGuess PAT 5 2 (seq 0 5) MainJs.empty
    = Some (forcedFirstGuessCost PAT
              (steps (MainJs.solveState PAT 5) MainJs.empty) (seq 0 5) 2) ∧
  fst <$> DpTopBlocks.solveWithFixedRoot 5 PAT 5 2 []
    = Some (forcedFirstGuessCost PAT
              (steps (DpTopBlocks.solveTail PAT 5) []) (seq 0 5) 2) ∧
  fst <$> DpTop200.expectedWithRoot 5 PAT 5 2 DpTop200.empty
    = Some (forcedFirstGuessCost_solved_free PAT
              (steps (DpTop200.solveState PAT 5) DpTop200.empty) (seq 0 5) 2).
Proof.
  apply (C3_forced_first_guess_cost DpTopBlocks.demo_words 5 2 demo_words_universe);
    simpl; lia.
Defined.

(** C3, as stated, fails for dp_top200.js: with the two words of
    [two_words] and the first forced, [expectedWithRoot] returns one and a
    half, while the specification's sum over the same buckets, with the
    same solver as evaluator, is two. *)
Lemma C3_solved_bucket_adds_nothing_in_dp_top200 :
  let PAT := pattern_table Feedback.patternFor two_words in
  fst <$> DpTop200.expectedWithRoot 2 PAT 2 0 DpTop200.empty
    = Some (Fin (Q2Qc (3 # 2))) ∧
  forcedFirstGuessCost PAT (steps (DpTop200.solveState PAT 2) DpTop200.empty)
    (seq 0 2) 0 = Fin (Q2Qc 2).
Proof. vm_compute. split; reflexivity. Qed.

(** C4. Branch-and-bound pruning does not change the result: on a fresh
    memo, [solveState] of main.js, [solveState] of dp_solver.js and
    [solveTail] of dp_top_blocks.js return, with the pruning test on and
    with it off, the same value, the minimum over the guesses of the full
    bucket sums. *)
Theorem C4_pruning_preserves_optimum (WORDS : list string) (fuel : nat)
    (cands : list nat) :
  universe WORDS → wf (length WORDS) cands → DpSolverFacts.sorted cands →
  length cands ≤ fuel →
  let PAT := pattern_table Feedback.patternFor WORDS in
  let patternMatrix := pattern_table Feedback.patternOf WORDS in
  let c := DpTopBlocks.bounded_cache DpTopBlocks.MAX_MEMO_ENTRIES
             DpTopBlocks.EVICT_FRACTION in
  (fst <$> MainJs.solveState_with PAT true fuel cands MainJs.empty
     = Some (expected PAT lead_recursed charge_recursed cands) ∧
   fst <$> MainJs.solveState_with PAT false fuel cands MainJs.empty
     = Some (expected PAT lead_recursed charge_recursed cands)) ∧
  (DpSolver.value ∘ fst <$> DpSolver.solveState_with patternMatrix true fuel cands []
     = Some (expected patternMatrix lead_branch charge_branch cands) ∧
   DpSolver.value ∘ fst <$> DpSolver.solveState_with patternMatrix false fuel cands []
     = Some (expected patternMatrix lead_branch charge_branch cands)) ∧
  (fst <$> DpTopBlocks.solveTail_with PAT c true fuel cands []
     = Some (expected PAT lead_recursed charge_recursed cands) ∧
   fst <$> DpTopBlocks.solveTail_with PAT c false fuel cands []
     = Some (expected PAT lead_recursed charge_recursed cands)).
Proof.
  intros Huni Hwf Hsorted Hfuel PAT patternMatrix c. subst PAT patternMatrix c.
  assert (Hmain : ∀ prune,
    fst <$> MainJs.solveState_with (pattern_table Feedback.patternFor WORDS)
              prune fuel cands MainJs.empty
    = Some (expected (pattern_table Feedback.patternFor WORDS)
              lead_recursed charge_recursed cands)).
  { intros prune.
    destruct (mainjs_run WORDS Huni prune fuel cands MainJs.empty)
      as (σ' & Hrun & _); [apply MainJsFacts.sound_empty|done..|].
    by rewrite Hrun. }
  assert (Hdp : ∀ prune,
    DpSolver.value ∘ fst
      <$> DpSolver.solveState_with (pattern_table Feedback.patternOf WORDS)
            prune fuel cands []
    = Some (expected (pattern_table Feedback.patternOf WORDS)
              lead_branch charge_branch cands)).
  { intros prune.
    destruct (dpsolver_run WORDS Huni prune fuel cands [])
      as (r & dp' & Hrun & Hr & _); [apply DpSolverFacts.dp_sound_nil|done..|].
    rewrite Hrun. simpl. by rewrite Hr. }
  assert (Hblocks : ∀ prune,
    fst <$> DpTopBlocks.solveTail_with (pattern_table Feedback.patternFor WORDS)
              (DpTopBlocks.bounded_cache DpTopBlocks.MAX_MEMO_ENTRIES
                 DpTopBlocks.EVICT_FRACTION) prune fuel cands []
    = Some (expected (pattern_table Feedback.patternFor WORDS)
              lead_recursed charge_recursed cands)).
  { intros prune.
    destruct (blocks_run WORDS Huni
                (DpTopBlocks.bounded_cache DpTopBlocks.MAX_MEMO_ENTRIES
                   DpTopBlocks.EVICT_FRACTION) prune fuel cands [])
      as (σ' & Hrun & _);
      [apply DpTopBlocksFacts.bounded_cache_ok|apply DpTopBlocksFacts.sound_nil
      |done..|].
    by rewrite Hrun. }
  split_and!; auto.
Qed.

Lemma C4_pruning_preserves_optimum_witness :
  let WORDS := DpTopBlocks.demo_words in
  let PAT := pattern_table Feedback.patternFor WORDS in
  let patternMatrix := pattern_table Feedback.patternOf WORDS in
  let c := DpTopBlocks.bounded_cache DpTopBlocks.MAX_MEMO_ENTRIES
             DpTopBlocks.EVICT_FRACTION in
  let cands := seq 0 5 in
  (fst <$> MainJs.solveState_with PAT true 5 cands MainJs.empty
     = Some (expected PAT lead_recursed charge_recursed cands) ∧
   fst <$> MainJs.solveState_with PAT false 5 cands MainJs.empty
     = Some (expected PAT lead_recursed charge_recursed cands)) ∧
  (DpSolver.value ∘ fst <$> DpSolver.solveState_with patternMatrix true 5 cands []
     = Some (expected patternMatrix lead_branch charge_branch cands) ∧
   DpSolver.value ∘ fst <$> DpSolver.solveState_with patternMatrix false 5 cands []
     = Some (expected patternMatrix lead_branch charge_branch cands)) ∧
  (fst <$> DpTopBlocks.solveTail_with PAT c true 5 cands []
     = Some (expected PAT lead_recursed charge_recursed cands) ∧
   fst <$> DpTopBlocks.solveTail_with PAT c false 5 cands []
     = Some (expected PAT lead_recursed charge_recursed cands)).
Proof.
  apply (C4_pruning_preserves_optimum DpTopBlocks.demo_words 5 (seq 0 5)
           demo_words_universe (DpTopBlocksFacts.seq_wf 5) (seq_sorted 0 5)).
  simpl. lia.
Defined.

(** C5. The memo of dp_top_blocks.js is transparent: [solveTail] returns
    the same value with no memo, with an unbounded memo and with a memo of
    any capacity evicting any fraction of its oldest entries, on a fresh
    memo as well as on the memo an earlier call has left behind. *)
Theorem C5_memo_is_transparent (WORDS : list string) (fuel : nat)
    (cands : list nat) (prune : bool) (max_entries : N) (evict_fraction : Qc) :
  universe WORDS → wf (length WORDS) cands → length cands ≤ fuel →
  let PAT := pattern_table Feedback.patternFor WORDS in
  let bounded := DpTopBlocks.bounded_cache max_entries evict_fraction in
  let E := expected PAT lead_recursed charge_recursed cands in
  fst <$> DpTopBlocks.solveTail_with PAT DpTopBlocks.no_cache prune fuel cands []
    = Some E ∧
  fst <$> DpTopBlocks.solveTail_with PAT DpTopBlocks.unbounded_cache prune fuel cands []
    = Some E ∧
  fst <$> DpTopBlocks.solveTail_with PAT bounded prune fuel cands [] = Some E ∧
  (∀ earlier v memo,
     wf (length WORDS) earlier → length earlier ≤ fuel →
     DpTopBlocks.solveTail_with PAT bounded prune fuel earlier [] = Some (v, memo) →
     fst <$> DpTopBlocks.solveTail_with PAT bounded prune fuel cands memo = Some E).
Proof.
  intros Huni Hwf Hfuel PAT bounded E. subst PAT bounded E.
  assert (Hrun : ∀ c memo,
    DpTopBlocksFacts.cache_ok (length WORDS)
      (pattern_table Feedback.patternFor WORDS) c →
    DpTopBlocksFacts.sound (length WORDS)
      (pattern_table Feedback.patternFor WORDS) memo →
    fst <$> DpTopBlocks.solveTail_with (pattern_table Feedback.patternFor WORDS)
              c prune fuel cands memo
    = Some (expected (pattern_table Feedback.patternFor WORDS)
              lead_recursed charge_recursed cands)).
  { intros c memo Hc Hmemo.
    destruct (blocks_run WORDS Huni c prune fuel cands memo)
      as (memo' & Hrun & _); [done..|].
    by rewrite Hrun. }
  split_and!.
  - apply Hrun; [apply DpTopBlocksFacts.no_cache_ok|apply DpTopBlocksFacts.sound_nil].
  - apply Hrun;
      [apply DpTopBlocksFacts.unbounded_cache_ok|apply DpTopBlocksFacts.sound_nil].
  - apply Hrun;
      [apply DpTopBlocksFacts.bounded_cache_ok|apply DpTopBlocksFacts.sound_nil].
  - intros earlier v memo Hwf0 Hfuel0 Hearlier.
    apply Hrun; [apply DpTopBlocksFacts.bounded_cache_ok|].
    destruct (blocks_run WORDS Huni
                (DpTopBlocks.bounded_cache max_entries evict_fraction)
                prune fuel earlier [])
      as (memo' & Hrun' & Hsound);
      [apply DpTopBlocksFacts.bounded_cache_ok|apply DpTopBlocksFacts.sound_nil
      |done..|].
    rewrite Hrun' in Hearlier. by injection Hearlier as _ <-.
Qed.

Lemma C5_memo_is_transparent_witness :
  let PAT := pattern_table Feedback.patternFor DpTopBlocks.demo_words in
  let bounded := DpTopBlocks.bounded_cache 1 (Q2Qc (1 # 2)) in
  let cands := seq 0 5 in
  let E := expected PAT lead_recursed charge_recursed cands in
  fst <$> DpTopBlocks.solveTail_with PAT DpTopBlocks.no_cache true 5 cands []
    = Some E ∧
  fst <$> DpTopBlocks.solveTail_with PAT DpTopBlocks.unbounded_cache true 5 cands []
    = Some E ∧
  fst <$> DpTopBlocks.solveTail_with PAT bounded true 5 cands [] = Some E ∧
  (∀ earlier v memo,
     wf 5 earlier → length earlier ≤ 5 →
     DpTopBlocks.solveTail_with PAT bounded true 5 earlier [] = Some (v, memo) →
     fst <$> DpTopBlocks.solveTail_with PAT bounded true 5 cands memo = Some E).
Proof.
  apply (C5_memo_is_transparent DpTopBlocks.demo_words 5 (seq 0 5) true 1
           (Q2Qc (1 # 2)) demo_words_universe (DpTopBlocksFacts.seq_wf 5)).
  simpl. lia.
Defined.

(** A tiny memo really evicts: with room for one entry, the run on the five
    demo words ends with a single entry in the memo, where the unbounded
    memo holds an entry for every state met. *)
Example tiny_memo_evicts :
  let PAT := pattern_table Feedback.patternFor DpTopBlocks.demo_words in
  (length ∘ snd <$> DpTopBlocks.solveTail_with PAT
     (DpTopBlocks.bounded_cache 1 (Q2Qc (1 # 2))) true 5 (seq 0 5) [],
   length ∘ snd <$> DpTopBlocks.solveTail_with PAT
     DpTopBlocks.unbounded_cache true 5 (seq 0 5) [])
  = (Some 1, Some 3).
Proof. vm_compute. reflexivity. Qed.

(** The three facts of the claim about a finite value [q] and a set size. *)
Definition steps_bounds (size : nat) (q : Qc) : Prop :=
  (q = 1%Qc ↔ size = 1) ∧ (1 < size → (1 < q)%Qc) ∧
  (q ≤ Qc_of_Z (Z.of_nat size))%Qc.

Lemma steps_bounds_intro (cands : list nat) (x : Num.num) :
  cands ≠ [] →
  (length cands = 1 → x = Num.one) →
  within 1 (Qc_of_Z (Z.of_nat (length cands))) x →
  (2 ≤ length cands → ∃ q, x = Fin q ∧ (1 < q)%Qc) →
  ∃ q, x = Fin q ∧ steps_bounds (length cands) q.
Proof.
  intros Hne Hone (q & -> & Hlo & Hhi) Hbig. exists q. split; [done|].
  split_and!; [split| |done].
  - intros ->. destruct (decide (length cands = 1)) as [|Hlen]; [done|].
    destruct Hbig as (q' & [= <-] & Hq').
    + destruct cands as [|? [|? ?]]; simpl in *; [done|lia|lia].
    + by apply Qclt_not_eq in Hq'.
  - intros Hlen. specialize (Hone Hlen). by injection Hone.
  - intros Hlen. destruct Hbig as (q' & [= <-] & Hq'); [lia|done].
Qed.

(** C8. On a non-empty candidate set, [solveState] of main.js and of
    dp_solver.js return a finite value that is one exactly when the set has
    one element, exceeds one when it has more, and is at most the size of
    the set. *)
Theorem C8_expected_steps_bounds (WORDS : list string) (fuel : nat)
    (cands : list nat) :
  universe WORDS → wf (length WORDS) cands → DpSolverFacts.sorted cands →
  cands ≠ [] → length cands ≤ fuel →
  let PAT := pattern_table Feedback.patternFor WORDS in
  let patternMatrix := pattern_table Feedback.patternOf WORDS in
  (∃ q, fst <$> MainJs.solveState PAT fuel cands MainJs.empty = Some (Fin q) ∧
        steps_bounds (length cands) q) ∧
  (∃ q, DpSolver.value ∘ fst <$> DpSolver.solveState patternMatrix fuel cands []
          = Some (Fin q) ∧
        steps_bounds (length cands) q).
Proof.
  intros Huni Hwf Hsorted Hne Hfuel PAT patternMatrix. subst PAT patternMatrix.
  split.
  - destruct (mainjs_run WORDS Huni true fuel cands MainJs.empty)
      as (σ' & Hrun & _); [apply MainJsFacts.sound_empty|done..|].
    unfold MainJs.solveState. rewrite Hrun. simpl.
    destruct (Values.expected_recursed_bounds (length WORDS)
                (pattern_table Feedback.patternFor WORDS) (PAT_diag WORDS Huni)
                (length cands) cands) as [H1 H2]; [done..|].
    destruct (steps_bounds_intro cands
      (expected (pattern_table Feedback.patternFor WORDS)
         lead_recursed charge_recursed cands)) as (q & Hq & Hb); [done| |done| |].
    + intros Hlen. by destruct cands as [|? [|? ?]].
    + intros Hlen. destruct (H2 Hlen) as (q & Hq & Hlo & _). exists q.
      split; [done|]. eapply Qclt_le_trans; [|exact Hlo]. done.
    + exists q. by rewrite Hq.
  - destruct (dpsolver_run WORDS Huni true fuel cands [])
      as (r & dp' & Hrun & Hr & _); [apply DpSolverFacts.dp_sound_nil|done..|].
    unfold DpSolver.solveState. rewrite Hrun. simpl. rewrite Hr.
    destruct (Values.expected_branch_bounds (length WORDS)
                (pattern_table Feedback.patternOf WORDS)
                (patternMatrix_diag WORDS Huni)
                (length cands) cands) as [H1 H2]; [done..|].
    destruct (steps_bounds_intro cands
      (expected (pattern_table Feedback.patternOf WORDS)
         lead_branch charge_branch cands)) as (q & Hq & Hb); [done| |done| |].
    + intros Hlen. by destruct cands as [|? [|? ?]].
    + intros Hlen. destruct (H2 Hlen) as (q & Hq & Hlo & _). by exists q.
    + exists q. by rewrite Hq.
Qed.

Lemma C8_expected_steps_bounds_witness :
  let PAT := pattern_table Feedback.patternFor DpTopBlocks.demo_words in
  let patternMatrix := pattern_table Feedback.patternOf DpTopBlocks.demo_words in
  let cands := seq 0 5 in
  (∃ q, fst <$> MainJs.solveState PAT 5 cands MainJs.empty = Some (Fin q) ∧
        steps_bounds (length cands) q) ∧
  (∃ q, DpSolver.value ∘ fst <$> DpSolver.solveState patternMatrix 5 cands []
          = Some (Fin q) ∧
        steps_bounds (length cands) q).
Proof.
  apply (C8_expected_steps_bounds DpTopBlocks.demo_words 5 (seq 0 5)
           demo_words_universe (DpTopBlocksFacts.seq_wf 5) (seq_sorted 0 5));
    [done|simpl; lia].
Defined.

End solver_claims.

(** * Further properties of the code *)

(** ** Cache keys and the order of candidates *)

Module KeyFacts.
Import Key Partition.

(** Strictly increasing arrays of indices. *)
Definition increasing (cands : list nat) : Prop := StronglySorted lt cands.

Lemma increasing_filter (P : nat → Prop) `{∀ x, Decision (P x)} cands :
  increasing cands → increasing (filter P cands).
Proof.
  induction 1 as [|x l Hl IH Hx]; [constructor|].
  rewrite filter_cons. case_decide; [|done].
  constructor; [done|]. apply Forall_forall.
  intros y [_ Hy]%list_elem_of_filter.
  by eapply (proj1 (Forall_forall _ _)) in Hx.
Qed.

Lemma sorted_perm_eq (l1 l2 : list nat) :
  Sorted Nat.le l1 → Sorted Nat.le l2 → l1 ≡ₚ l2 → l1 = l2.
Proof. intros. by apply (Sorted_unique Nat.le). Qed.

Lemma merge_sort_perm_eq (l1 l2 : list nat) :
  l1 ≡ₚ l2 → merge_sort Nat.le l1 = merge_sort Nat.le l2.
Proof.
  intros Hp. apply sorted_perm_eq.
  - apply Sorted_merge_sort. apply _.
  - apply Sorted_merge_sort. apply _.
  - by rewrite !merge_sort_Permutation.
Qed.

End KeyFacts.

Section key_properties.
Import Key Partition KeyFacts.

(** X1. [cands.join(',')], the memo key of main.js, dp_top_blocks.js,
    dp_top200.js and dp_ext.js, is the same for two arrays of indices only
    when they are the same array: no two states share a key. *)
Theorem X1_join_key_collision_free (cands1 cands2 : list nat) :
  join_comma cands1 = join_comma cands2 ↔ cands1 = cands2.
Proof. split; [apply (inj join_comma)|by intros ->]. Qed.

(** X2. [stateKey] of dp_solver.js, which sorts a copy before joining,
    gives two arrays of indices the same key exactly when one is a
    rearrangement of the other, and leaves the key of an array that is
    already sorted as the plain join. *)
Theorem X2_stateKey_up_to_order :
  (∀ S1 S2 : list nat, DpSolver.stateKey S1 = DpSolver.stateKey S2 ↔ S1 ≡ₚ S2) ∧
  (∀ S : list nat, Sorted Nat.le S → DpSolver.stateKey S = join_comma S).
Proof.
  split.
  - intros S1 S2. unfold DpSolver.stateKey. split.
    + intros Heq%(inj join_comma).
      by rewrite <-(merge_sort_Permutation Nat.le S1), Heq, merge_sort_Permutation.
    + intros Hp. f_equal. by apply merge_sort_perm_eq.
  - intros S HS. unfold DpSolver.stateKey. f_equal.
    apply sorted_perm_eq; [apply Sorted_merge_sort; apply _|done|].
    apply merge_sort_Permutation.
Qed.

(** X3. A bucket of a partition lists, in their order in the candidate
    array, the candidates with the bucket's code; so the buckets of a
    strictly increasing array are strictly increasing, which is what the
    solvers that build keys without sorting rely on. *)
Theorem X3_buckets_keep_order :
  (∀ (S : list string) (guess : string) k arr,
     (k, arr) ∈ partitionByPattern S guess →
     arr = filter (λ ans, Feedback.pattern guess ans = k) S) ∧
  (∀ (PAT : nat → nat → string) (cands : list nat) (gIdx : nat) k arr,
     (k, arr) ∈ partitionState PAT cands gIdx →
     arr = filter (λ ansIdx, PAT gIdx ansIdx = k) cands ∧
     (increasing cands → increasing arr)).
Proof.
  split.
  - intros S guess k arr Hin. by destruct (partition_with_elem _ _ _ _ Hin).
  - intros PAT cands gIdx k arr Hin.
    destruct (partition_with_elem _ _ _ _ Hin) as [-> _].
    split; [done|]. apply increasing_filter.
Qed.
End key_properties.

(** ** The bounded memo of dp_top_blocks.js *)

Module MemoFacts.
Import DpTopBlocks.

Section jsmap.
Context {V : Type}.
Implicit Types (m : list (string * V)) (k : string) (v : V).

Lemma get_set_eq k v m : JsMap.get k (JsMap.set k v m) = Some v.
Proof.
  induction m as [|[q w] m IH]; simpl; [by rewrite decide_True|].
  destruct (decide (q = k)) as [->|Hq]; simpl.
  - by rewrite decide_True.
  - by rewrite decide_False.
Qed.

Lemma get_set_ne k k' v m : k' ≠ k → JsMap.get k' (JsMap.set k v m) = JsMap.get k' m.
Proof.
  intros Hk. induction m as [|[q w] m IH]; simpl; [by rewrite decide_False|].
  destruct (decide (q = k)) as [->|Hq]; simpl.
  - by rewrite !decide_False.
  - by rewrite IH.
Qed.

Lemma keys_set k v m :
  (JsMap.set k v m).*1 = if decide (k ∈ m.*1) then m.*1 else m.*1 ++ [k].
Proof.
  induction m as [|[q w] m IH]; [done|]. cbn [JsMap.set].
  destruct (decide (q = k)) as [->|Hq]; rewrite !fmap_cons; cbn [fst].
  - rewrite decide_True; [done|]. left.
  - rewrite IH. destruct (decide (k ∈ m.*1)).
    + rewrite decide_True; [done|]. by right.
    + rewrite decide_False; [done|]. rewrite elem_of_cons. naive_solver.
Qed.

Lemma size_set k v m :
  JsMap.size (JsMap.set k v m)
  = if decide (k ∈ m.*1) then JsMap.size m else S (JsMap.size m).
Proof.
  unfold JsMap.size. rewrite <-(length_fmap fst), keys_set.
  case_decide; rewrite ?length_app, !length_fmap; simpl; lia.
Qed.

Lemma NoDup_keys_set k v m : NoDup m.*1 → NoDup (JsMap.set k v m).*1.
Proof.
  intros Hnd. rewrite keys_set. case_decide; [done|].
  apply NoDup_app. split_and!; [done| |apply NoDup_singleton].
  intros x Hx ->%list_elem_of_singleton. done.
Qed.

(** In a map a key has one entry, so a lookup in what is left after the
    oldest entries are dropped finds what the whole map holds. *)
Lemma get_drop n k v m :
  NoDup m.*1 → JsMap.get k (drop n m) = Some v → JsMap.get k m = Some v.
Proof.
  revert m. induction n as [|n IH]; intros m Hnd; [by rewrite drop_0|].
  destruct m as [|[q w] m]; [done|]. simpl.
  apply NoDup_cons in Hnd as [Hq Hnd]. intros Hget.
  rewrite decide_False; [by apply IH|].
  intros ->. apply Hq.
  apply JsMapFacts.get_elem, list_elem_of_lookup in Hget as [i Hi].
  rewrite lookup_drop in Hi.
  apply list_elem_of_fmap. exists (k, v). split; [done|].
  by eapply list_elem_of_lookup_2.
Qed.
End jsmap.

(** The deleting loop removes the [toRemove] oldest entries, or all of them
    when there are fewer. *)
Lemma evict_oldest_drop toRemove removed memo :
  (removed < toRemove)%N →
  evict_oldest toRemove removed memo = drop (N.to_nat (toRemove - removed)) memo.
Proof.
  revert removed. induction memo as [|e memo IH]; intros removed Hlt; simpl.
  { by rewrite drop_nil. }
  destruct (N.leb_spec toRemove (removed + 1)) as [Hle|Hgt].
  - replace (N.to_nat (toRemove - removed)) with 1 by lia. by rewrite skipn_cons, drop_0.
  - rewrite IH by lia.
    replace (N.to_nat (toRemove - removed)) with (S (N.to_nat (toRemove - (removed + 1))))
      by lia.
    done.
Qed.

Lemma evict_count_pos max_entries evict_fraction :
  (0 < evict_count max_entries evict_fraction)%N.
Proof. unfold evict_count. lia. Qed.

Lemma memoStore_drop max_entries evict_fraction key value memo :
  memoStore max_entries evict_fraction key value memo
  = JsMap.set key value
      (if (max_entries <=? N.of_nat (JsMap.size memo))%N
       then drop (N.to_nat (evict_count max_entries evict_fraction)) memo
       else memo).
Proof.
  unfold memoStore. case_match; [|done].
  rewrite evict_oldest_drop by apply evict_count_pos. by rewrite N.sub_0_r.
Qed.

Example evict_count_script : evict_count MAX_MEMO_ENTRIES EVICT_FRACTION = 800000%N.
Proof. vm_compute. reflexivity. Qed.

End MemoFacts.

Section memo_properties.
Import DpTopBlocks MemoFacts.

(** X4. What [memoStore] does to a memo that is full: the
    max(1, floor(capacity * fraction)) oldest entries are gone (all of
    them when the memo holds fewer), the others stay in their order, and
    the new entry is set; below capacity it is a plain [set].  The script's
    constants evict 800000 entries. *)
Theorem X4_memoStore_evicts_oldest (max_entries : N) (evict_fraction : Qc)
    (key : string) (value : Num.num) (memo : memo_t) :
  memoStore max_entries evict_fraction key value memo
  = JsMap.set key value
      (if decide (max_entries ≤ N.of_nat (JsMap.size memo))%N
       then drop (N.to_nat (N.max 1
              (Z.to_N (Qfloor (Qc_of_Z (Z.of_N max_entries) * evict_fraction)%Qc))))
              memo
       else memo)
  ∧ evict_count MAX_MEMO_ENTRIES EVICT_FRACTION = 800000%N.
Proof.
  split; [|apply evict_count_script].
  rewrite memoStore_drop. unfold evict_count.
  destruct (N.leb_spec max_entries (N.of_nat (JsMap.size memo))).
  - by rewrite decide_True.
  - rewrite decide_False; [done|lia].
Qed.

(** X5. After [memoStore(key, value)] the memo answers [value] for [key];
    for any other key it answers what it answered before or nothing at
    all, never another value; and keys stay distinct. *)
Theorem X5_memoStore_lookup (max_entries : N) (evict_fraction : Qc)
    (key : string) (value : Num.num) (memo : memo_t) :
  NoDup memo.*1 →
  let memo' := memoStore max_entries evict_fraction key value memo in
  JsMap.get key memo' = Some value ∧
  (∀ k w, k ≠ key → JsMap.get k memo' = Some w → JsMap.get k memo = Some w) ∧
  NoDup memo'.*1.
Proof.
  intros Hnd memo'. subst memo'. rewrite memoStore_drop. split_and!.
  - apply get_set_eq.
  - intros k w Hk. rewrite get_set_ne by done.
    case_match; [|done]. by apply get_drop.
  - apply NoDup_keys_set. case_match; [|done].
    rewrite fmap_drop. eapply sublist_NoDup; [exact Hnd|apply sublist_drop].
Qed.

Lemma X5_memoStore_lookup_witness :
  let memo : memo_t := [("0,1", Num.one); ("0,2", Num.one)] in
  let memo' := memoStore 2 (Q2Qc (1 # 2)) "1,2" Num.one memo in
  JsMap.get "1,2" memo' = Some Num.one ∧
  (∀ k w, k ≠ "1,2" → JsMap.get k memo' = Some w → JsMap.get k memo = Some w) ∧
  NoDup memo'.*1.
Proof.
  apply (X5_memoStore_lookup 2 (Q2Qc (1 # 2)) "1,2" Num.one
           [("0,1", Num.one); ("0,2", Num.one)]).
  apply NoDup_cons. split; [|apply NoDup_singleton].
  by intros [=]%list_elem_of_singleton.
Defined.

(** X6. [memoStore] keeps the memo within its capacity: a memo of at most
    [max_entries] entries, with [max_entries] at least one, has at most
    [max_entries] entries after the call. *)
Theorem X6_memoStore_within_capacity (max_entries : N) (evict_fraction : Qc)
    (key : string) (value : Num.num) (memo : memo_t) :
  (0 < max_entries)%N → (N.of_nat (JsMap.size memo) ≤ max_entries)%N →
  (N.of_nat (JsMap.size (memoStore max_entries evict_fraction key value memo))
   ≤ max_entries)%N.
Proof.
  intros Hpos Hsize. rewrite memoStore_drop.
  pose proof (evict_count_pos max_entries evict_fraction) as Hev.
  destruct (N.leb_spec max_entries (N.of_nat (JsMap.size memo))) as [Hfull|Hroom].
  - rewrite size_set. unfold JsMap.size in *.
    case_decide; rewrite length_drop; lia.
  - rewrite size_set. case_decide; lia.
Qed.

Lemma X6_memoStore_within_capacity_witness :
  (N.of_nat (JsMap.size (memoStore 2 (Q2Qc (1 # 2)) "1,2" Num.one
                           [("0,1", Num.one); ("0,2", Num.one)])) ≤ 2)%N.
Proof.
  apply (X6_memoStore_within_capacity 2 (Q2Qc (1 # 2)) "1,2" Num.one
           [("0,1", Num.one); ("0,2", Num.one)]); simpl; lia.
Defined.
End memo_properties.

(** ** What a run leaves invariant *)

Module RunKeeps.
Import Run.

(** Whenever the computation returns from a state satisfying [J], the state
    it returns in satisfies [J]. *)
Definition keeps {Σ A} (J : Σ → Prop) (c : M Σ A) : Prop :=
  ∀ σ a σ', J σ → c σ = Some (a, σ') → J σ'.

Section rules.
Context {Σ : Type} (J : Σ → Prop).

Lemma keeps_ret {A} (a : A) : keeps J (ret a).
Proof. by intros σ a' σ' Hσ [= _ <-]. Qed.

Lemma keeps_out_of_fuel {A} : keeps J (@out_of_fuel Σ A).
Proof. by intros σ a σ' _ [=]. Qed.

Lemma keeps_read {A} (f : Σ → A) : keeps J (λ σ, Some (f σ, σ)).
Proof. by intros σ a' σ' Hσ [= _ <-]. Qed.

Lemma keeps_update (f : Σ → Σ) : (∀ σ, J σ → J (f σ)) → keeps J (update f).
Proof. intros Hf σ a σ' Hσ [= _ <-]. auto. Qed.

Lemma keeps_bind {A B} (c : M Σ A) (k : A → M Σ B) :
  keeps J c → (∀ a, keeps J (k a)) → keeps J (bind c k).
Proof.
  intros Hc Hk σ b σ' Hσ. unfold bind.
  destruct (c σ) as [[a σ1]|] eqn:Hrun; [|done].
  intros Hrun'. eapply Hk; [|exact Hrun']. by eapply Hc.
Qed.

Lemma keeps_for_of {X A} (body : A → X → M Σ (ctl A)) xs acc :
  (∀ a x, keeps J (body a x)) → keeps J (for_of xs acc body).
Proof.
  intros Hbody. revert acc. induction xs as [|x xs IH]; intros acc; simpl.
  - apply keeps_ret.
  - apply keeps_bind; [apply Hbody|]. intros [a|a]; [apply IH|apply keeps_ret].
Qed.
End rules.

End RunKeeps.

Module DpTopBlocksKeeps.
Import Num Run RunKeeps Partition DpTopBlocks.

Section keeps.
Variable N : nat.
Variable PAT : nat → nat → string.
Variable c : cache.
Variable prune : bool.
Variable J : memo_t → Prop.
Hypothesis put_keeps : ∀ k v memo, J memo → J (cache_put c k v memo).

Lemma solveTail_with_keeps fuel cands :
  keeps J (solveTail_with PAT c prune fuel cands).
Proof.
  revert cands. induction fuel as [|fuel IH]; intros cands; simpl.
  - repeat case_decide; try apply keeps_ret.
    apply keeps_bind; [apply keeps_read|].
    intros [v|]; [apply keeps_ret|apply keeps_out_of_fuel].
  - repeat case_decide; try apply keeps_ret.
    apply keeps_bind; [apply keeps_read|].
    intros [v|]; [apply keeps_ret|].
    apply keeps_bind.
    + apply keeps_for_of. intros bestE gIdx. apply keeps_bind.
      * apply keeps_for_of. intros expectedTail arr.
        apply keeps_bind; [apply IH|]. intros subE.
        case_match; apply keeps_ret.
      * intros expectedTail. case_match; apply keeps_ret.
    + intros bestE. apply keeps_bind; [apply keeps_update; intros; by apply put_keeps|].
      intros _. apply keeps_ret.
Qed.

Lemma solveWithFixedRoot_with_keeps fuel gIdx :
  keeps J (solveWithFixedRoot_with N PAT c prune fuel gIdx).
Proof.
  unfold solveWithFixedRoot_with. apply keeps_bind.
  - apply keeps_for_of. intros expectedTail arr.
    apply keeps_bind; [apply solveTail_with_keeps|]. intros subE. apply keeps_ret.
  - intros expectedTail. apply keeps_ret.
Qed.
End keeps.

End DpTopBlocksKeeps.

Section memo_capacity.
Import Num DpTopBlocks RunKeeps DpTopBlocksKeeps.

(** X7. The memo never outgrows its capacity: when [solveTail] or
    [solveWithFixedRoot] of dp_top_blocks.js is entered with at most
    [max_entries] entries in the memo ([max_entries] at least one), the memo
    holds at most [max_entries] entries when the call returns, for every
    pattern table, candidate set and eviction fraction. *)
Theorem X7_memo_stays_within_capacity (n : nat) (PAT : nat → nat → string)
    (max_entries : N) (evict_fraction : Qc) (prune : bool) (fuel : nat)
    (cands : list nat) (gIdx : nat) (memo : memo_t) :
  (0 < max_entries)%N → (N.of_nat (JsMap.size memo) ≤ max_entries)%N →
  let c := bounded_cache max_entries evict_fraction in
  (∀ v memo', solveTail_with PAT c prune fuel cands memo = Some (v, memo') →
     (N.of_nat (JsMap.size memo') ≤ max_entries)%N) ∧
  (∀ v memo', solveWithFixedRoot_with n PAT c prune fuel gIdx memo = Some (v, memo') →
     (N.of_nat (JsMap.size memo') ≤ max_entries)%N).
Proof.
  intros Hpos Hsize c.
  assert (Hput : ∀ k v m, (N.of_nat (JsMap.size m) ≤ max_entries)%N →
    (N.of_nat (JsMap.size (cache_put c k v m)) ≤ max_entries)%N).
  { intros k v m Hm. simpl. rewrite MemoFacts.memoStore_drop.
    pose proof (MemoFacts.evict_count_pos max_entries evict_fraction) as Hev.
    rewrite MemoFacts.size_set. unfold JsMap.size in *.
    destruct (N.leb_spec max_entries (N.of_nat (length m)));
      case_decide; rewrite ?length_drop; lia. }
  split; intros v memo' Hrun.
  - by eapply (solveTail_with_keeps PAT c prune _ Hput fuel cands memo v memo').
  - by eapply (solveWithFixedRoot_with_keeps n PAT c prune _ Hput fuel gIdx memo v memo').
Qed.

Lemma X7_memo_stays_within_capacity_witness :
  let PAT := pattern_table Feedback.patternFor demo_words in
  let c := bounded_cache 2 (Q2Qc (1 # 2)) in
  let memo' := [("0,3", Fin (Q2Qc 2)); ("0,1,2,3,4", Fin (Q2Qc (12 # 5)))] in
  solveTail_with PAT c true 5 (seq 0 5) [] = Some (Fin (Q2Qc (12 # 5)), memo') ∧
  (N.of_nat (JsMap.size memo') ≤ 2)%N.
Proof.
  split; [vm_compute; reflexivity|].
  eapply (proj1 (X7_memo_stays_within_capacity 5
            (pattern_table Feedback.patternFor demo_words) 2 (Q2Qc (1 # 2)) true 5
            (seq 0 5) 2 [] ltac:(lia) ltac:(simpl; lia))).
  vm_compute. reflexivity.
Defined.
End memo_capacity.

(** ** The recurrences of dp_solver.js and dp_top200.js agree *)

Module Agreement.
Import Num NumFacts Partition Recurrence Variants Bounds.
Local Open Scope Qc_scope.


Section agreement.
Variable N : nat.
Variable PAT : nat → nat → string.
Hypothesis PAT_diag : ∀ g a, (g < N)%nat → (a < N)%nat → PAT g a = "22222" ↔ g = a.


End agreement.

End Agreement.

(** ** The recurrence of main.js lies above that of dp_top200.js *)

Module Overcount.
Import Num NumFacts Partition Recurrence Variants Bounds.
Local Open Scope Qc_scope.


Section overcount.
Variable N : nat.
Variable PAT : nat → nat → string.
Hypothesis PAT_diag : ∀ g a, (g < N)%nat → (a < N)%nat → PAT g a = "22222" ↔ g = a.

Local Abbreviation E_r := (expected PAT lead_recursed charge_recursed).
Local Abbreviation E_s := (expected PAT lead_skipped charge_skipped).

End overcount.

End Overcount.

Section solver_agreement.
Import Num NumFacts Run Partition Recurrence Variants Bounds Runs.



(** A set of distinct indices below [n] has at most [n] elements. *)
Lemma wf_length_le n cands : wf n cands → length cands ≤ n.
Proof.
  intros [Hnd Hall].
  assert (cands ⊆+ seq 0 n) as Hsub%submseteq_length.
  { apply NoDup_submseteq; [done|]. intros x Hx. apply elem_of_seq.
    eapply (proj1 (Forall_forall _ _)) in Hall; [|done]. lia. }
  by rewrite length_seq in Hsub.
Qed.

(** X8. main.js and dp_top_blocks.js compute the same numbers: on every
    candidate set [solveState] and [solveTail] return the same value, and
    for every forced first guess [expectedGivenFirstGuess] on the full
    universe and [solveWithFixedRoot] return the same cost. *)
Theorem X8_mainjs_agrees_with_dp_top_blocks (WORDS : list string) (fuel : nat)
    (cands : list nat) (g : nat) :
  universe WORDS → wf (length WORDS) cands → length WORDS ≤ fuel →
  let N := length WORDS in
  let PAT := pattern_table Feedback.patternFor WORDS in
  (∃ v, fst <$> MainJs.solveState PAT fuel cands MainJs.empty = Some v ∧
        fst <$> DpTopBlocks.solveTail PAT fuel cands [] = Some v) ∧
  (∃ v, fst <$> MainJs.expectedGivenFirstGuess PAT fuel g (seq 0 N) MainJs.empty
          = Some v ∧
        fst <$> DpTopBlocks.solveWithFixedRoot N PAT fuel g [] = Some v).
Proof.
  intros Huni Hwf Hfuel N PAT. subst N PAT.
  assert (length cands ≤ fuel) as Hlen
    by (etrans; [by apply wf_length_le|done]).
  split.
  - destruct (mainjs_run WORDS Huni true fuel cands MainJs.empty)
      as (σ' & Hrun & _); [apply MainJsFacts.sound_empty|done..|].
    destruct (blocks_run WORDS Huni
                (DpTopBlocks.bounded_cache DpTopBlocks.MAX_MEMO_ENTRIES
                   DpTopBlocks.EVICT_FRACTION) true fuel cands [])
      as (memo' & Hrun' & _);
      [apply DpTopBlocksFacts.bounded_cache_ok|apply DpTopBlocksFacts.sound_nil
      |done..|].
    eexists. unfold MainJs.solveState, DpTopBlocks.solveTail.
    rewrite Hrun, Hrun'. done.
  - destruct (mainjs_root_run WORDS Huni true fuel g (seq 0 (length WORDS))
                MainJs.empty) as (σ' & Hrun & _);
      [apply MainJsFacts.sound_empty|apply DpTopBlocksFacts.seq_wf
      |by rewrite length_seq|].
    destruct (blocks_root_run WORDS Huni
                (DpTopBlocks.bounded_cache DpTopBlocks.MAX_MEMO_ENTRIES
                   DpTopBlocks.EVICT_FRACTION) true fuel g [])
      as (memo' & Hrun' & _);
      [apply DpTopBlocksFacts.bounded_cache_ok|apply DpTopBlocksFacts.sound_nil
      |done|].
    eexists. unfold MainJs.expectedGivenFirstGuess, DpTopBlocks.solveWithFixedRoot.
    rewrite Hrun, Hrun'. done.
Qed.

Lemma X8_mainjs_agrees_with_dp_top_blocks_witness :
  let PAT := pattern_table Feedback.patternFor DpTopBlocks.demo_words in
  (∃ v, fst <$> MainJs.solveState PAT 5 [0; 3; 4] MainJs.empty = Some v ∧
        fst <$> DpTopBlocks.solveTail PAT 5 [0; 3; 4] [] = Some v) ∧
  (∃ v, fst <$> MainJs.expectedGivenFirstGuess PAT 5 2 (seq 0 5) MainJs.empty
          = Some v ∧
        fst <$> DpTopBlocks.solveWithFixedRoot 5 PAT 5 2 [] = Some v).
Proof.
  apply (X8_mainjs_agrees_with_dp_top_blocks DpTopBlocks.demo_words 5 [0; 3; 4] 2
           demo_words_universe); [|simpl; lia].
  split; [|by repeat constructor].
  repeat (apply NoDup_cons; split;
    [rewrite ?elem_of_cons, elem_of_nil; intros H;
     repeat (destruct H as [H|H]; [discriminate H|]); done|]).
  apply NoDup_nil_2.
Defined.







End solver_agreement.

(** ** dp_ext.js: plain memo, guesses from the whole word list *)

Module DpExt.
Import Num Run Partition Key.
Local Open Scope num_scope.

Definition memo_t : Type := list (string * num).

Section solver.
Variable N : nat.
Variable PAT : nat → nat → string.
(** [prune] switches the branch-and-bound test; the script has it on. *)
Variable prune : bool.

Fixpoint solveTail_with (fuel : nat) (cands : list nat) : M memo_t num :=
  let len := length cands in
  if decide (len ≤ 0)%nat then ret 0
  else if decide (len = 1%nat) then ret 1
  else
    let key := join_comma cands in
    let* cached := (λ memo, Some (JsMap.get key memo, memo)) in
    match cached with
    | Some v => ret v
    | None =>
        match fuel with
        | O => out_of_fuel
        | S fuel =>
            let size := len in
            (* for (let gIdx = 0; gIdx < N; gIdx++) *)
            let* bestE := for_of (seq 0%nat N) Inf (λ bestE gIdx,
              let buckets := partition_with (PAT gIdx) cands in
              let* expectedTail := for_of (map_values buckets) 0 (λ expectedTail arr,
                let bucketSize := length arr in
                let prob := bucketSize // size in
                let* subE := solveTail_with fuel arr in
                let expectedTail := expectedTail + prob * subE in
                if prune && (1 + expectedTail >=? bestE)
                then ret (Break expectedTail)
                else ret (Continue expectedTail)) in
              let totalE := 1 + expectedTail in
              if totalE <? bestE then ret (Continue totalE)
              else ret (Continue bestE)) in
            let* _ := update (JsMap.set key bestE) in
            ret bestE
        end
    end.

Definition solveWithFixedRoot_with (fuel : nat) (gIdx : nat) : M memo_t num :=
  let size := N in
  let buckets := partition_with (PAT gIdx) (seq 0%nat N) in
  let* expectedTail := for_of (map_values buckets) 0 (λ expectedTail arr,
    let bucketSize := length arr in
    let prob := bucketSize // size in
    let* subE := solveTail_with fuel arr in
    ret (Continue (expectedTail + prob * subE))) in
  ret (1 + expectedTail).
End solver.

Definition solveTail (N : nat) (PAT : nat → nat → string)
    : nat → list nat → M memo_t num :=
  solveTail_with N PAT true.
Definition solveWithFixedRoot (N : nat) (PAT : nat → nat → string)
    : nat → nat → M memo_t num :=
  solveWithFixedRoot_with N PAT true.

(** With two words every guess tells them apart. *)
Example solveTail_two :
  fst <$> solveTail 2 (pattern_table Feedback.patternFor two_words) 2 [0; 1]%nat []
  = Some (Fin (Q2Qc 2)).
Proof. vm_compute. reflexivity. Qed.

End DpExt.

(** ** Tail solvers: one round of the recursion

    [solveTail] of dp_top_blocks.js and of dp_ext.js differ in the guesses
    they try, the candidates themselves or every word, and in how they
    store.  [tail_step] is the body they share, with the recursive call
    and the guesses left open. *)

Module TailStep.
Import Num Run Partition Key DpTopBlocks.
Local Open Scope num_scope.

Definition tail_step (PAT : nat → nat → string) (c : cache) (prune : bool)
    (rec : option (list nat → M memo_t num)) (guesses cands : list nat)
    : M memo_t num :=
  let len := length cands in
  if decide (len ≤ 0)%nat then ret 0
  else if decide (len = 1%nat) then ret 1
  else
    let key := join_comma cands in
    let* cached := (λ memo, Some (cache_get c key memo, memo)) in
    match cached with
    | Some v => ret v
    | None =>
        match rec with
        | None => out_of_fuel
        | Some rec =>
            let size := len in
            let* bestE := for_of guesses Inf (λ bestE gIdx,
              let buckets := partition_with (PAT gIdx) cands in
              let* expectedTail := for_of (map_values buckets) 0 (λ expectedTail arr,
                let bucketSize := length arr in
                let prob := bucketSize // size in
                let* subE := rec arr in
                let expectedTail := expectedTail + prob * subE in
                if prune && (1 + expectedTail >=? bestE)
                then ret (Break expectedTail)
                else ret (Continue expectedTail)) in
              let totalE := 1 + expectedTail in
              if totalE <? bestE then ret (Continue totalE)
              else ret (Continue bestE)) in
            let* _ := update (cache_put c key bestE) in
            ret bestE
        end
    end.

Definition rec_of (solve : nat → list nat → M memo_t num) (fuel : nat)
    : option (list nat → M memo_t num) :=
  match fuel with
  | O => None
  | S fuel => Some (solve fuel)
  end.

Lemma blocks_step PAT c prune fuel cands :
  DpTopBlocks.solveTail_with PAT c prune fuel cands
  = tail_step PAT c prune (rec_of (DpTopBlocks.solveTail_with PAT c prune) fuel)
      cands cands.
Proof. by destruct fuel. Qed.

Lemma ext_step N PAT prune fuel cands :
  DpExt.solveTail_with N PAT prune fuel cands
  = tail_step PAT unbounded_cache prune
      (rec_of (DpExt.solveTail_with N PAT prune) fuel) (seq 0 N) cands.
Proof. by destruct fuel. Qed.

End TailStep.

(** ** Calls that never return *)

Module RunPartial.
Import Run.

(** When the computation returns from a state satisfying [J], the state it
    returns in satisfies [J] and the result satisfies [P]. *)
Definition partial {Σ A} (J : Σ → Prop) (c : M Σ A) (P : A → Prop) : Prop :=
  ∀ σ a σ', J σ → c σ = Some (a, σ') → J σ' ∧ P a.

Section rules.
Context {Σ : Type} (J : Σ → Prop).

Lemma partial_ret {A} (a : A) (P : A → Prop) : P a → partial J (ret a) P.
Proof. by intros HP σ a' σ' Hσ [= <- <-]. Qed.

Lemma partial_out_of_fuel {A} (P : A → Prop) : partial J (@out_of_fuel Σ A) P.
Proof. by intros σ a σ' _ [=]. Qed.

Lemma partial_read {A} (f : Σ → A) (P : A → Prop) :
  (∀ σ, J σ → P (f σ)) → partial J (λ σ, Some (f σ, σ)) P.
Proof. intros Hf σ a' σ' Hσ [= <- <-]. auto. Qed.

Lemma partial_update (f : Σ → Σ) :
  (∀ σ, J σ → J (f σ)) → partial J (update f) (λ _, True).
Proof. intros Hf σ a σ' Hσ [= _ <-]. auto. Qed.

Lemma partial_bind {A B} (c : M Σ A) (k : A → M Σ B) (P : A → Prop) (Q : B → Prop) :
  partial J c P → (∀ a, P a → partial J (k a) Q) → partial J (bind c k) Q.
Proof.
  intros Hc Hk σ b σ' Hσ. unfold bind.
  destruct (c σ) as [[a σ1]|] eqn:Hrun; [|done].
  intros Hrun'. destruct (Hc σ a σ1 Hσ Hrun) as [Hσ1 HP].
  by eapply Hk.
Qed.

Lemma partial_for_of {X A} (Q : A → Prop) (body : A → X → M Σ (ctl A)) xs acc :
  Q acc →
  (∀ a x, Q a →
     partial J (body a x)
       (λ r, match r with Continue a' | Break a' => Q a' end)) →
  partial J (for_of xs acc body) Q.
Proof.
  intros Hacc Hbody. revert acc Hacc.
  induction xs as [|x xs IH]; intros acc Hacc; simpl.
  - by apply partial_ret.
  - eapply partial_bind; [by apply Hbody|].
    intros [a|a] Ha; [by apply IH|by apply partial_ret].
Qed.

(** A loop whose rounds go on to the next element never returns when one
    of its rounds never returns. *)
Lemma for_of_blocked {X A} (Q : A → Prop) (body : A → X → M Σ (ctl A)) xs x0 :
  x0 ∈ xs →
  (∀ a x, Q a → partial J (body a x) (λ r, ∃ a', r = Continue a' ∧ Q a')) →
  (∀ a σ, Q a → J σ → body a x0 σ = None) →
  ∀ acc σ, Q acc → J σ → for_of xs acc body σ = None.
Proof.
  intros Hin Hbody Hblock. induction xs as [|x xs IH]; intros acc σ Hacc Hσ.
  { by apply elem_of_nil in Hin. }
  simpl. unfold bind.
  destruct (body acc x σ) as [[r σ1]|] eqn:Hrun; [|done].
  destruct (Hbody acc x Hacc σ r σ1 Hσ Hrun) as [Hσ1 (a' & -> & Ha')].
  apply elem_of_cons in Hin as [->|Hin].
  - by rewrite Hblock in Hrun.
  - by apply IH.
Qed.
End rules.

End RunPartial.

Module Blocked.
Import Num NumFacts Run RunPartial Partition Key DpTopBlocks TailStep.
Local Open Scope num_scope.

Definition finite (x : num) : Prop := ∃ q, x = Fin q.

Lemma partial_weaken {Σ A} (J : Σ → Prop) (c : M Σ A) (P Q : A → Prop) :
  partial J c P → (∀ a, P a → Q a) → partial J c Q.
Proof. intros Hc HPQ σ a σ' Hσ Hrun. destruct (Hc σ a σ' Hσ Hrun). auto. Qed.

Section blocked.
Variable PAT : nat → nat → string.
Variable c : cache.
Variable prune : bool.
Variable guesses : list nat → list nat.
Variable solve : nat → list nat → M memo_t num.
(** Two answers that the first guess tried never tells apart. *)
Variables a b : nat.

Hypothesis solve_step : ∀ fuel cands,
  solve fuel cands = tail_step PAT c prune (rec_of solve fuel) (guesses cands) cands.
Hypothesis a_ne_b : a ≠ b.
Definition both (cands : list nat) : Prop := a ∈ cands ∧ b ∈ cands.
Hypothesis first_guess : ∀ cands, both cands →
  ∃ g0 rest, guesses cands = g0 :: rest ∧ PAT g0 a = PAT g0 b.
Hypothesis some_guess : ∀ cands, (2 ≤ length cands)%nat → guesses cands ≠ [].
Hypothesis get_is : ∀ k memo, cache_get c k memo = JsMap.get k memo.
Hypothesis put_elem : ∀ k v memo k' v',
  (k', v') ∈ cache_put c k v memo → (k', v') = (k, v) ∨ (k', v') ∈ memo.

(** The memo holds finite values only, and nothing for a set with both
    answers. *)
Definition J (memo : memo_t) : Prop :=
  (∀ k v, (k, v) ∈ memo → finite v) ∧
  (∀ S, both S → join_comma S ∉ memo.*1).

Lemma J_nil : J [].
Proof. split; [by intros k v ?%elem_of_nil|]. intros S _ ?%elem_of_nil. done. Qed.

Lemma J_get_finite memo k v : J memo → cache_get c k memo = Some v → finite v.
Proof.
  intros [Hfin _]. rewrite get_is. intros ?%JsMapFacts.get_elem. by eapply Hfin.
Qed.

Lemma J_get_both memo S : J memo → both S → cache_get c (join_comma S) memo = None.
Proof.
  intros [_ Hboth] HS. rewrite get_is.
  destruct (JsMap.get (join_comma S) memo) as [v|] eqn:Hget; [|done].
  apply JsMapFacts.get_elem in Hget. destruct (Hboth S HS).
  apply list_elem_of_fmap. by exists (join_comma S, v).
Qed.

Lemma J_put cands v memo :
  ¬ both cands → finite v → J memo → J (cache_put c (join_comma cands) v memo).
Proof.
  intros Hcands Hv [Hfin Hboth]. split.
  - intros k' v' [[= -> ->]|Hin]%put_elem; [done|by eapply Hfin].
  - intros S HS ([k' v'] & Hk & Hin)%list_elem_of_fmap. simpl in Hk. subst k'.
    apply put_elem in Hin as [[= Heq _]|Hin].
    + apply (inj join_comma) in Heq as ->. done.
    + destruct (Hboth S HS). apply list_elem_of_fmap. by exists (join_comma S, v').
Qed.

Lemma both_length cands : both cands → (2 ≤ length cands)%nat.
Proof.
  intros [Ha Hb]. destruct cands as [|x [|y l]]; [by apply elem_of_nil in Ha| |simpl; lia].
  apply list_elem_of_singleton in Ha, Hb. congruence.
Qed.

#[local] Instance both_dec cands : Decision (both cands).
Proof. unfold both. apply _. Defined.

(** The two loops of a round. *)
Definition inner (rec : list nat → M memo_t num) (size : nat) (bestE : num)
    : num → list nat → M memo_t (ctl num) :=
  λ expectedTail arr,
    let bucketSize := length arr in
    let prob := bucketSize // size in
    let* subE := rec arr in
    let expectedTail := expectedTail + prob * subE in
    if prune && (1 + expectedTail >=? bestE)
    then ret (Break expectedTail)
    else ret (Continue expectedTail).

Definition outer (rec : list nat → M memo_t num) (cands : list nat)
    : num → nat → M memo_t (ctl num) :=
  λ bestE gIdx,
    let buckets := partition_with (PAT gIdx) cands in
    let* expectedTail :=
      for_of (map_values buckets) 0 (inner rec (length cands) bestE) in
    let totalE := 1 + expectedTail in
    if totalE <? bestE then ret (Continue totalE)
    else ret (Continue bestE).

Lemma tail_step_Some rec gs cands memo :
  (2 ≤ length cands)%nat → cache_get c (join_comma cands) memo = None →
  tail_step PAT c prune (Some rec) gs cands memo
  = (let* bestE := for_of gs Inf (outer rec cands) in
     let* _ := update (cache_put c (join_comma cands) bestE) in
     ret bestE) memo.
Proof.
  intros Hlen Hget. unfold tail_step. rewrite !decide_False by lia.
  cbv zeta. unfold bind at 1. by rewrite Hget.
Qed.

Lemma tail_step_None gs cands memo :
  (2 ≤ length cands)%nat → cache_get c (join_comma cands) memo = None →
  tail_step PAT c prune None gs cands memo = None.
Proof.
  intros Hlen Hget. unfold tail_step. rewrite !decide_False by lia.
  cbv zeta. unfold bind at 1. by rewrite Hget.
Qed.

Lemma tail_step_cached rec gs cands memo v :
  (2 ≤ length cands)%nat → cache_get c (join_comma cands) memo = Some v →
  tail_step PAT c prune rec gs cands memo = Some (v, memo).
Proof.
  intros Hlen Hget. unfold tail_step. rewrite !decide_False by lia.
  cbv zeta. unfold bind at 1. by rewrite Hget.
Qed.

Section round.
Implicit Types (cands arr gs : list nat) (memo : memo_t) (e bestE : num).
Variable rec : list nat → M memo_t num.
Hypothesis rec_partial : ∀ arr, partial J (rec arr) finite.

Lemma charge_finite (e subE : num) (m n : nat) :
  n ≠ 0%nat → finite e → finite subE → finite (e + m // n * subE).
Proof.
  intros Hn [q ->] [r ->]. rewrite div_nat_fin by done. by eexists.
Qed.

Lemma inner_partial cands bestE e arr :
  (2 ≤ length cands)%nat → finite e →
  partial J (inner rec (length cands) bestE e arr)
    (λ r, match r with Continue e' | Break e' => finite e' end).
Proof.
  intros Hlen He. unfold inner. eapply partial_bind; [apply rec_partial|].
  intros subE HsubE. cbv zeta.
  assert (finite (e + length arr // length cands * subE))
    by (apply charge_finite; [lia|done..]).
  case_match; by apply partial_ret.
Qed.

(** Against [Infinity] the pruning test never fires. *)
Lemma inner_partial_Inf cands e arr :
  (2 ≤ length cands)%nat → finite e →
  partial J (inner rec (length cands) Inf e arr)
    (λ r, ∃ e', r = Continue e' ∧ finite e').
Proof.
  intros Hlen He. unfold inner. eapply partial_bind; [apply rec_partial|].
  intros subE HsubE. cbv zeta.
  assert (finite (e + length arr // length cands * subE)) as [q Hq]
    by (apply charge_finite; [lia|done..]).
  rewrite Hq. cbn [Num.add Num.one Num.ge]. rewrite andb_false_r.
  apply partial_ret. eexists; split; [done|by eexists].
Qed.

Lemma outer_partial cands bestE g :
  (2 ≤ length cands)%nat → bestE = Inf ∨ finite bestE →
  partial J (outer rec cands bestE g) (λ r, ∃ e, r = Continue e ∧ finite e).
Proof.
  intros Hlen HbestE. unfold outer. cbv zeta.
  eapply partial_bind.
  { apply (partial_for_of J finite); [by exists (Q2Qc 0)|].
    intros e arr He. by apply inner_partial. }
  intros e [q ->]. cbn [Num.add Num.one].
  destruct HbestE as [->|[r ->]].
  - simpl. apply partial_ret. eexists; split; [done|by eexists].
  - case_match; apply partial_ret; (eexists; split; [done|by eexists]).
Qed.

Lemma guesses_partial cands gs :
  (2 ≤ length cands)%nat → gs ≠ [] →
  partial J (for_of gs Inf (outer rec cands)) finite.
Proof.
  intros Hlen Hgs. destruct gs as [|g0 gs]; [done|]. simpl.
  eapply partial_bind; [apply outer_partial; [done|by left]|].
  intros r (e & -> & He).
  apply (partial_for_of J finite); [done|].
  intros e' g He'. eapply partial_weaken; [apply outer_partial; [done|by right]|].
  by intros r (e'' & -> & ?).
Qed.

Hypothesis rec_blocked : ∀ arr memo, both arr → J memo → rec arr memo = None.

(** The first guess puts both answers into one bucket, and the call on that
    bucket never returns. *)
Lemma tail_step_blocked cands memo :
  both cands → J memo →
  tail_step PAT c prune (Some rec) (guesses cands) cands memo = None.
Proof.
  intros Hboth Hmemo. pose proof (both_length cands Hboth) as Hlen.
  rewrite tail_step_Some by (by try apply J_get_both).
  destruct (first_guess cands Hboth) as (g0 & rest & -> & Hpat).
  unfold bind at 1. simpl. unfold bind at 1.
  assert (outer rec cands Inf g0 memo = None) as ->; [|done].
  unfold outer. cbv zeta. unfold bind at 1.
  set (bs := partition_with (PAT g0) cands).
  assert (∃ arr0, arr0 ∈ map_values bs ∧ both arr0) as (arr0 & Harr0 & Hboth0).
  { destruct Hboth as [Ha Hb].
    assert (PAT g0 a ∈ map_keys bs) as Hkey.
    { apply partition_with_keys. by exists a. }
    apply list_elem_of_fmap in Hkey as ([k arr0] & Hk & Hin). simpl in Hk. subst k.
    exists arr0. split; [apply list_elem_of_fmap; by exists (PAT g0 a, arr0)|].
    destruct (partition_with_elem _ _ _ _ Hin) as [-> _].
    split; apply list_elem_of_filter; split; done. }
  rewrite (for_of_blocked J finite _ _ arr0 Harr0); [done| | |by exists (Q2Qc 0)|done].
  - intros e arr He. by apply inner_partial_Inf.
  - intros e σ He Hσ. unfold inner. unfold bind. by rewrite rec_blocked.
Qed.
End round.

Lemma tail_step_partial rec_opt cands :
  (∀ rec, rec_opt = Some rec →
     (∀ arr, partial J (rec arr) finite) ∧
     (∀ arr memo, both arr → J memo → rec arr memo = None)) →
  partial J (tail_step PAT c prune rec_opt (guesses cands) cands) finite.
Proof.
  intros Hrec memo v memo' Hmemo Hrun.
  destruct (decide (length cands ≤ 0)%nat) as [Hl0|Hl0].
  { unfold tail_step in Hrun. rewrite decide_True in Hrun by done.
    injection Hrun as <- <-. split; [done|by eexists]. }
  destruct (decide (length cands = 1%nat)) as [Hl1|Hl1].
  { unfold tail_step in Hrun. rewrite decide_False, decide_True in Hrun by done.
    injection Hrun as <- <-. split; [done|by eexists]. }
  assert (2 ≤ length cands)%nat as Hlen by lia.
  destruct (cache_get c (join_comma cands) memo) as [v0|] eqn:Hget.
  { rewrite (tail_step_cached _ _ _ _ v0) in Hrun by done.
    injection Hrun as <- <-. split; [done|by eapply J_get_finite]. }
  destruct rec_opt as [rec|]; [|by rewrite tail_step_None in Hrun].
  destruct (Hrec rec eq_refl) as [Hp Hb].
  destruct (decide (both cands)) as [Hboth|Hboth].
  { by rewrite tail_step_blocked in Hrun. }
  rewrite tail_step_Some in Hrun by done.
  assert (partial J
    (let* bestE := for_of (guesses cands) Inf (outer rec cands) in
     let* _ := update (cache_put c (join_comma cands) bestE) in
     ret bestE) finite) as Hround.
  { eapply partial_bind; [by apply guesses_partial; [|done|apply some_guess]|].
    intros bestE HbestE. eapply partial_bind.
    - apply partial_update. intros σ Hσ. by apply J_put.
    - intros _ _. by apply partial_ret. }
  exact (Hround memo v memo' Hmemo Hrun).
Qed.

(** A call on a set holding both answers never returns, whatever the
    fuel. *)
Theorem solve_blocked fuel :
  (∀ cands, partial J (solve fuel cands) finite) ∧
  (∀ cands memo, both cands → J memo → solve fuel cands memo = None).
Proof.
  induction fuel as [|fuel [IHp IHb]].
  - split.
    + intros cands. rewrite solve_step. apply tail_step_partial. by intros rec [=].
    + intros cands memo Hboth Hmemo. rewrite solve_step. simpl.
      apply tail_step_None; [by apply both_length|by apply J_get_both].
  - split.
    + intros cands. rewrite solve_step. apply tail_step_partial.
      by intros rec [= <-].
    + intros cands memo Hboth Hmemo. rewrite solve_step. simpl.
      by apply tail_step_blocked.
Qed.
End blocked.

End Blocked.

Module BlockedRuns.
Import Num NumFacts Run RunPartial Partition Key DpTopBlocks TailStep Blocked.
Local Open Scope num_scope.

(** The loop of [solveWithFixedRoot] never returns when the call on one of
    the buckets never returns. *)
Lemma root_blocked (J : memo_t → Prop) (solve : list nat → M memo_t num)
    (bs : buckets nat) (n : nat) (arr0 : list nat) :
  n ≠ 0%nat → (∀ arr, partial J (solve arr) finite) →
  arr0 ∈ map_values bs → (∀ memo, J memo → solve arr0 memo = None) →
  ∀ memo, J memo →
    (let* expectedTail := for_of (map_values bs) 0 (λ expectedTail arr,
       let bucketSize := length arr in
       let prob := bucketSize // n in
       let* subE := solve arr in
       ret (Continue (expectedTail + prob * subE))) in
     ret (1 + expectedTail)) memo = None.
Proof.
  intros Hn Hp Harr0 Hb memo Hmemo. unfold bind at 1.
  rewrite (for_of_blocked J finite _ _ arr0 Harr0); [done| | |by exists (Q2Qc 0)|done].
  - intros e arr He. cbv zeta. eapply partial_bind; [apply Hp|].
    intros subE HsubE. apply partial_ret. eexists. split; [done|].
    by apply charge_finite.
  - intros e σ He Hσ. cbv zeta. unfold bind. by rewrite Hb.
Qed.

Lemma bucket_of_both (PAT : nat → nat → string) (g a b : nat) (cands : list nat) :
  a ∈ cands → b ∈ cands → PAT g a = PAT g b →
  ∃ arr0, arr0 ∈ map_values (partition_with (PAT g) cands) ∧ both a b arr0.
Proof.
  intros Ha Hb Hpat.
  assert (PAT g a ∈ map_keys (partition_with (PAT g) cands)) as Hkey.
  { apply partition_with_keys. by exists a. }
  apply list_elem_of_fmap in Hkey as ([k arr0] & Hk & Hin). simpl in Hk. subst k.
  exists arr0. split; [apply list_elem_of_fmap; by exists (PAT g a, arr0)|].
  destruct (partition_with_elem _ _ _ _ Hin) as [-> _].
  split; apply list_elem_of_filter; split; done.
Qed.

Lemma bounded_put_elem max_entries evict_fraction k v (memo : memo_t) k' v' :
  (k', v') ∈ cache_put (bounded_cache max_entries evict_fraction) k v memo →
  (k', v') = (k, v) ∨ (k', v') ∈ memo.
Proof.
  simpl. unfold memoStore. intros [?|Hin]%JsMapFacts.set_elem; [by left|right].
  case_match; [by eapply DpTopBlocksFacts.evict_oldest_elem|done].
Qed.

Section dp_top_blocks.
Variable PAT : nat → nat → string.
Variable max_entries : N.
Variable evict_fraction : Qc.
Variable prune : bool.
Variables a b : nat.
Hypothesis a_ne_b : a ≠ b.
Hypothesis same_row : ∀ g, PAT g a = PAT g b.

Local Abbreviation c := (bounded_cache max_entries evict_fraction).

Lemma blocks_blocked fuel :
  (∀ cands, partial (J a b) (solveTail_with PAT c prune fuel cands) finite) ∧
  (∀ cands memo, both a b cands → J a b memo →
     solveTail_with PAT c prune fuel cands memo = None).
Proof.
  apply (solve_blocked PAT c prune (λ cands, cands) (solveTail_with PAT c prune) a b).
  - intros. apply blocks_step.
  - done.
  - intros cands [Ha Hb]. destruct cands as [|g0 rest]; [by apply elem_of_nil in Ha|].
    by exists g0, rest.
  - intros cands Hlen ->. simpl in Hlen. lia.
  - done.
  - apply bounded_put_elem.
Qed.

Lemma blocks_root_blocked n fuel g memo :
  (a < n)%nat → (b < n)%nat → J a b memo →
  solveWithFixedRoot_with n PAT c prune fuel g memo = None.
Proof.
  intros Ha Hb Hmemo. unfold solveWithFixedRoot_with. cbv zeta.
  destruct (bucket_of_both PAT g a b (seq 0 n)) as (arr0 & Harr0 & Hboth);
    [apply elem_of_seq; lia..|done|].
  destruct (blocks_blocked fuel) as [Hp Hblock].
  apply (root_blocked (J a b) (solveTail_with PAT c prune fuel) _ n arr0);
    [lia|done|done| |done].
  intros σ Hσ. by apply Hblock.
Qed.
End dp_top_blocks.

Section dp_ext.
Variable n : nat.
Variable PAT : nat → nat → string.
Variable prune : bool.
Variables a b : nat.
Hypothesis a_ne_b : a ≠ b.
Hypothesis n_pos : (0 < n)%nat.
Hypothesis same_first : PAT 0%nat a = PAT 0%nat b.

Lemma ext_blocked fuel :
  (∀ cands, partial (J a b) (DpExt.solveTail_with n PAT prune fuel cands) finite) ∧
  (∀ cands memo, both a b cands → J a b memo →
     DpExt.solveTail_with n PAT prune fuel cands memo = None).
Proof.
  apply (solve_blocked PAT unbounded_cache prune (λ _, seq 0 n)
           (DpExt.solveTail_with n PAT prune) a b).
  - intros. apply ext_step.
  - done.
  - intros cands _. exists 0%nat, (seq 1 (n - 1)). split; [|done].
    destruct n; [lia|]. simpl. by rewrite Nat.sub_0_r.
  - intros cands _. destruct n; [lia|done].
  - done.
  - intros k v memo k' v'. apply JsMapFacts.set_elem.
Qed.

Lemma ext_root_blocked fuel g memo :
  (a < n)%nat → (b < n)%nat → PAT g a = PAT g b → J a b memo →
  DpExt.solveWithFixedRoot_with n PAT prune fuel g memo = None.
Proof.
  intros Ha Hb Hpat Hmemo. unfold DpExt.solveWithFixedRoot_with. cbv zeta.
  destruct (bucket_of_both PAT g a b (seq 0 n)) as (arr0 & Harr0 & Hboth);
    [apply elem_of_seq; lia..|done|].
  destruct (ext_blocked fuel) as [Hp Hblock].
  apply (root_blocked (J a b) (DpExt.solveTail_with n PAT prune fuel) _ n arr0);
    [lia|done|done| |done].
  intros σ Hσ. by apply Hblock.
Qed.
End dp_ext.

End BlockedRuns.

Section never_returns.
Import Num Run Blocked BlockedRuns.

Definition repeated_words : list string := ["crane"; "slate"; "crane"].
Definition three_words : list string := ["aaaaa"; "bbbbb"; "ccccc"].

(** X12. dp_top_blocks.js keeps a word that the file lists twice, and then
    no call returns: when the word list holds the same word at two
    different indices, [solveTail] on a fresh memo exhausts any amount of
    stack on every candidate set that has both indices, and so does
    [solveWithFixedRoot] for every first guess. *)
Theorem X12_dp_top_blocks_repeated_word_never_returns (WORDS : list string)
    (i j : nat) :
  i ≠ j → i < length WORDS → j < length WORDS → WORDS !! i = WORDS !! j →
  let PAT := pattern_table Feedback.patternFor WORDS in
  (∀ fuel cands, i ∈ cands → j ∈ cands →
     DpTopBlocks.solveTail PAT fuel cands [] = None) ∧
  (∀ fuel gIdx,
     DpTopBlocks.solveWithFixedRoot (length WORDS) PAT fuel gIdx [] = None).
Proof.
  intros Hij Hi Hj Hw PAT.
  assert (Hrow : ∀ g, PAT g i = PAT g j).
  { intros g. unfold PAT, pattern_table, word_at. by rewrite Hw. }
  split.
  - intros fuel cands Hic Hjc.
    by apply (blocks_blocked PAT DpTopBlocks.MAX_MEMO_ENTRIES
                DpTopBlocks.EVICT_FRACTION true i j Hij Hrow fuel);
      [|apply J_nil].
  - intros fuel gIdx.
    by apply (blocks_root_blocked PAT DpTopBlocks.MAX_MEMO_ENTRIES
                DpTopBlocks.EVICT_FRACTION true i j Hij Hrow);
      [..|apply J_nil].
Qed.

Lemma X12_dp_top_blocks_repeated_word_never_returns_witness :
  let PAT := pattern_table Feedback.patternFor repeated_words in
  (∀ fuel cands, 0 ∈ cands → 2 ∈ cands →
     DpTopBlocks.solveTail PAT fuel cands [] = None) ∧
  (∀ fuel gIdx, DpTopBlocks.solveWithFixedRoot 3 PAT fuel gIdx [] = None).
Proof.
  apply (X12_dp_top_blocks_repeated_word_never_returns repeated_words 0 2);
    [done|simpl; lia|simpl; lia|done].
Defined.

(** X13. dp_ext.js tries every word of the list as a guess, the first word
    first, and recurses into a bucket even when the guess left the
    candidates together: when the first word gives two different
    candidates the same feedback, [solveTail] on a fresh memo exhausts any
    amount of stack on every candidate set that has both, and so does
    [solveWithFixedRoot] for every first guess that gives the two the same
    feedback. *)
Theorem X13_dp_ext_unsplit_pair_never_returns (WORDS : list string) (a b : nat) :
  a ≠ b → a < length WORDS → b < length WORDS →
  let N := length WORDS in
  let PAT := pattern_table Feedback.patternFor WORDS in
  PAT 0 a = PAT 0 b →
  (∀ fuel cands, a ∈ cands → b ∈ cands →
     DpExt.solveTail N PAT fuel cands [] = None) ∧
  (∀ fuel gIdx, PAT gIdx a = PAT gIdx b →
     DpExt.solveWithFixedRoot N PAT fuel gIdx [] = None).
Proof.
  intros Hab Ha Hb N PAT Hfirst.
  assert (0 < N) as HN by (unfold N; lia).
  split.
  - intros fuel cands Hac Hbc.
    by apply (ext_blocked N PAT true a b Hab HN Hfirst fuel); [|apply J_nil].
  - intros fuel gIdx Hpat.
    by apply (ext_root_blocked N PAT true a b Hab HN Hfirst); [..|apply J_nil].
Qed.

Lemma X13_dp_ext_unsplit_pair_never_returns_witness :
  let PAT := pattern_table Feedback.patternFor three_words in
  (∀ fuel cands, 1 ∈ cands → 2 ∈ cands →
     DpExt.solveTail 3 PAT fuel cands [] = None) ∧
  (∀ fuel gIdx, PAT gIdx 1 = PAT gIdx 2 →
     DpExt.solveWithFixedRoot 3 PAT fuel gIdx [] = None).
Proof.
  apply (X13_dp_ext_unsplit_pair_never_returns three_words 1 2);
    [done|simpl; lia|simpl; lia|vm_compute; reflexivity].
Defined.

(** The first word of [three_words] as the forced first guess: the call
    runs out of any fuel that is tried. *)
Example dp_ext_three_words :
  DpExt.solveWithFixedRoot 3 (pattern_table Feedback.patternFor three_words) 50 0 []
  = None.
Proof. vm_compute. reflexivity. Qed.
End never_returns.

(** ** Reading the word list

    The text of the word file is a [string] whose characters stand for
    code units below 256; the scripts read it with [fs.readFileSync], the
    page with [fetch], and both hand the text to the functions below. *)

Module Loader.

(** [\s] and the characters [trim] removes, below 256: tab, line feed,
    vertical tab, form feed, carriage return, space and no-break space. *)
Definition is_space (ch : ascii) : bool :=
  let n := nat_of_ascii ch in
  ((9 <=? n) && (n <=? 13)) || (n =? 32) || (n =? 160).

(** [/[a-z]/] *)
Definition is_lower (ch : ascii) : bool :=
  let n := nat_of_ascii ch in (97 <=? n) && (n <=? 122).

(** [toLowerCase] on one code unit below 256: the letters A-Z and the
    accented capitals of Latin-1 move up by 32. *)
Definition lower_char (ch : ascii) : ascii :=
  let n := nat_of_ascii ch in
  if ((65 <=? n) && (n <=? 90)) || ((192 <=? n) && (n <=? 214))
     || ((216 <=? n) && (n <=? 222))
  then ascii_of_nat (n + 32) else ch.

Definition toLowerCase (s : string) : string :=
  string_of_list_ascii (lower_char <$> list_ascii_of_string s).

Fixpoint skip_spaces (l : list ascii) : list ascii :=
  match l with
  | [] => []
  | ch :: l' => if is_space ch then skip_spaces l' else l
  end.

(** [s.trim()] *)
Definition trim (s : string) : string :=
  string_of_list_ascii
    (rev (skip_spaces (rev (skip_spaces (list_ascii_of_string s))))).

(** [/^[a-z]{5}$/.test(w)] *)
Definition is_word (w : string) : bool :=
  (String.length w =? 5) && forallb is_lower (list_ascii_of_string w).

(** [t.split(/\r?\n/)]: [cur] holds, last first, the characters of the
    piece being read. *)
Fixpoint split_lines_go (cur : list ascii) (l : list ascii) : list string :=
  match l with
  | [] => [string_of_list_ascii (rev cur)]
  | ch :: l' =>
      if Ascii.eqb ch "010" then string_of_list_ascii (rev cur) :: split_lines_go [] l'
      else if Ascii.eqb ch "013" then
        match l' with
        | ch' :: l'' =>
            if Ascii.eqb ch' "010"
            then string_of_list_ascii (rev cur) :: split_lines_go [] l''
            else split_lines_go (ch :: cur) l'
        | [] => split_lines_go (ch :: cur) l'
        end
      else split_lines_go (ch :: cur) l'
  end.

Definition split_lines (t : string) : list string :=
  split_lines_go [] (list_ascii_of_string t).

(** [line.split(/,|\s+/)]: a comma ends a piece, and so does a run of
    white space, which [in_space] says is being read. *)
Fixpoint split_cells_go (in_space : bool) (cur : list ascii) (l : list ascii)
    : list string :=
  match l with
  | [] => [string_of_list_ascii (rev cur)]
  | ch :: l' =>
      if is_space ch then
        if in_space then split_cells_go true cur l'
        else string_of_list_ascii (rev cur) :: split_cells_go true [] l'
      else if Ascii.eqb ch "," then
        string_of_list_ascii (rev cur) :: split_cells_go false [] l'
      else split_cells_go false (ch :: cur) l'
  end.

Definition split_cells (line : string) : list string :=
  split_cells_go false [] (list_ascii_of_string line).

(** [if (!seen.has(w)) { seen.add(w); words.push(w); }] *)
Definition keep_new (st : gset string * list string) (w : string)
    : gset string * list string :=
  let '(seen, words) := st in
  if decide (w ∈ seen) then (seen, words) else ({[w]} ∪ seen, words ++ [w]).

(** dp_solver.js, [loadWords], from the text of the file on. *)
Definition loadWords (txt : string) : list string :=
  let words :=
    filter (λ w, is_word w = true)
      ((λ line, toLowerCase (trim line)) <$> split_lines txt) in
  (foldl keep_new (∅, []) words).2.

(** main.js, [parseWordsFromCsvText]; [loadWordsFromCsv] of the table
    generator is the same loop on the text of the file. *)
Definition parseWordsFromCsvText (t : string) : list string :=
  let lines := split_lines t in
  (foldl (λ st raw,
     let line := trim raw in
     if decide (line = "") then st
     else
       let cells := split_cells line in
       foldl (λ st c,
         let c := toLowerCase (trim c) in
         if is_word c then keep_new st c else st) st cells)
     (∅, []) lines).2.

(** dp_top_blocks.js, dp_ext.js, dp_top200.js and the script in main.js:
    the words as they come, repeated ones included. *)
Definition WORDS_of (raw : string) : list string :=
  filter (λ s, is_word s = true)
    ((λ s, toLowerCase (trim s)) <$> split_lines raw).

Example loadWords_ex :
  loadWords ("Crane" +:+ String "013" (String "010" "  slate ")
             +:+ String "010" "crane" +:+ String "010" "toolong"
             +:+ String "010" "")
  = ["crane"; "slate"].
Proof. vm_compute. reflexivity. Qed.

Example parseWordsFromCsvText_ex :
  parseWordsFromCsvText ("crane, SLATE,,x" +:+ String "010" " abide  crane")
  = ["crane"; "slate"; "abide"].
Proof. vm_compute. reflexivity. Qed.

Example WORDS_of_ex :
  WORDS_of ("crane" +:+ String "010" "slate" +:+ String "010" "crane")
  = ["crane"; "slate"; "crane"].
Proof. vm_compute. reflexivity. Qed.

End Loader.

Module LoaderFacts.
Import Loader.

(** The loop with [seen] keeps the first copy of every word. *)
Definition kept (P : string → Prop) (st : gset string * list string) : Prop :=
  NoDup st.2 ∧ (∀ w, w ∈ st.1 ↔ w ∈ st.2) ∧ Forall P st.2.

Lemma kept_empty P : kept P (∅, []).
Proof.
  split_and!; [apply NoDup_nil_2| |done].
  intros w. simpl. rewrite elem_of_nil. set_solver.
Qed.

Lemma keep_new_kept P st w : P w → kept P st → kept P (keep_new st w).
Proof.
  destruct st as [seen words]. intros Hw (Hnd & Hseen & Hall). simpl in *.
  unfold keep_new. case_decide as Hin; [done|]. split_and!; simpl.
  - apply NoDup_app. split_and!; [done| |apply NoDup_singleton].
    intros x Hx ->%list_elem_of_singleton. apply Hin. by apply Hseen.
  - intros x. rewrite elem_of_union, elem_of_singleton, elem_of_app,
      list_elem_of_singleton, Hseen. naive_solver.
  - apply Forall_app. split; [done|]. by apply Forall_singleton.
Qed.

Lemma foldl_keep_new_kept P st ws :
  Forall P ws → kept P st → kept P (foldl keep_new st ws).
Proof.
  revert st. induction ws as [|w ws IH]; intros st Hws Hst; simpl; [done|].
  apply Forall_cons in Hws as [Hw Hws]. apply IH; [done|]. by apply keep_new_kept.
Qed.

Lemma foldl_keep_new_elem P st ws w :
  kept P st → Forall P ws →
  w ∈ (foldl keep_new st ws).2 ↔ w ∈ st.2 ∨ w ∈ ws.
Proof.
  revert st. induction ws as [|x ws IH]; intros st Hst Hws; simpl.
  { rewrite elem_of_nil. naive_solver. }
  apply Forall_cons in Hws as [Hx Hws].
  rewrite IH by (by try apply keep_new_kept).
  destruct st as [seen words]. destruct Hst as (_ & Hseen & _). simpl in *.
  unfold keep_new. rewrite elem_of_cons. case_decide as Hin; simpl.
  - apply Hseen in Hin. naive_solver.
  - rewrite elem_of_app, list_elem_of_singleton. naive_solver.
Qed.

Lemma is_word_length w : is_word w = true → String.length w = 5.
Proof. unfold is_word. intros [H _]%andb_prop. by apply Nat.eqb_eq in H. Qed.

Lemma is_word_universe ws :
  NoDup ws → Forall (λ w, is_word w = true) ws → universe ws.
Proof.
  intros Hnd Hall. split; [done|]. eapply Forall_impl; [exact Hall|].
  intros w. apply is_word_length.
Qed.

Lemma WORDS_of_words raw : Forall (λ w, is_word w = true) (WORDS_of raw).
Proof. apply Forall_forall. by intros w [? _]%list_elem_of_filter. Qed.

Lemma loadWords_kept txt :
  kept (λ w, is_word w = true) (foldl keep_new (∅, []) (WORDS_of txt)).
Proof. apply foldl_keep_new_kept; [apply WORDS_of_words|apply kept_empty]. Qed.

Lemma parse_kept t :
  kept (λ w, is_word w = true)
    (foldl (λ st raw,
       let line := trim raw in
       if decide (line = "") then st
       else
         let cells := split_cells line in
         foldl (λ st c,
           let c := toLowerCase (trim c) in
           if is_word c then keep_new st c else st) st cells)
       (∅, []) (split_lines t)).
Proof.
  generalize (kept_empty (λ w, is_word w = true)).
  generalize (∅ : gset string, [] : list string).
  induction (split_lines t) as [|raw lines IH]; intros st Hst; simpl; [done|].
  apply IH. case_decide; [done|].
  clear IH. revert st Hst.
  induction (split_cells (trim raw)) as [|c cells IHc]; intros st Hst; simpl; [done|].
  apply IHc. destruct (is_word (toLowerCase (trim c))) eqn:Hc; [|done].
  by apply keep_new_kept.
Qed.

(** *** Reading back a clean list *)

Lemma is_lower_plain ch :
  is_lower ch = true →
  is_space ch = false ∧ lower_char ch = ch ∧
  Ascii.eqb ch "010" = false ∧ Ascii.eqb ch "013" = false.
Proof.
  unfold is_lower, is_space, lower_char.
  destruct ch as [[] [] [] [] [] [] [] []]; vm_compute; intros; split_and!; congruence.
Qed.

Lemma split_lines_go_word l cur rest :
  forallb is_lower l = true →
  split_lines_go cur (l ++ rest) = split_lines_go (rev l ++ cur) rest.
Proof.
  revert cur. induction l as [|ch l IH]; intros cur Hl; [done|].
  simpl in Hl. apply andb_prop in Hl as [Hch Hl].
  destruct (is_lower_plain ch Hch) as (_ & _ & Hlf & Hcr).
  cbn [app split_lines_go]. rewrite Hlf, Hcr, IH by done.
  simpl. by rewrite <-app_assoc.
Qed.

Definition join_lines (ws : list string) : string := String.concat (String "010" "") ws.

Lemma list_ascii_app s1 s2 :
  list_ascii_of_string (s1 +:+ s2) = list_ascii_of_string s1 ++ list_ascii_of_string s2.
Proof. induction s1 as [|ch s1 IH]; [done|]. simpl. by rewrite <-IH. Qed.

Lemma is_word_lower w : is_word w = true → forallb is_lower (list_ascii_of_string w) = true.
Proof. unfold is_word. by intros [_ ?]%andb_prop. Qed.

Lemma join_lines_more w w' ws :
  join_lines (w :: w' :: ws) = w +:+ String "010" (join_lines (w' :: ws)).
Proof. reflexivity. Qed.

Lemma split_lines_go_join w ws cur :
  Forall (λ w, is_word w = true) (w :: ws) →
  split_lines_go cur (list_ascii_of_string (join_lines (w :: ws)))
  = string_of_list_ascii (rev cur ++ list_ascii_of_string w) :: ws.
Proof.
  revert w cur. induction ws as [|w' ws IH]; intros w cur [Hw Hws]%Forall_cons.
  - change (join_lines [w]) with w.
    rewrite <-(app_nil_r (list_ascii_of_string w)) at 1.
    rewrite split_lines_go_word by (by apply is_word_lower).
    simpl. by rewrite rev_app_distr, rev_involutive.
  - rewrite join_lines_more, list_ascii_app.
    rewrite split_lines_go_word by (by apply is_word_lower).
    cbn [list_ascii_of_string split_lines_go]. simpl Ascii.eqb. cbv iota.
    rewrite rev_app_distr, rev_involutive. f_equal.
    rewrite IH by done. simpl. by rewrite string_of_list_ascii_of_string.
Qed.

Lemma skip_spaces_plain l :
  match l with ch :: _ => is_space ch = false | [] => True end → skip_spaces l = l.
Proof. destruct l as [|ch l]; [done|]. simpl. by intros ->. Qed.

Lemma clean_word w : is_word w = true → toLowerCase (trim w) = w.
Proof.
  intros Hw. apply is_word_lower in Hw.
  assert (∀ ch, ch ∈ list_ascii_of_string w → is_space ch = false ∧ lower_char ch = ch)
    as Hplain.
  { intros ch Hch. rewrite forallb_forall in Hw.
    destruct (is_lower_plain ch) as (? & ? & _); [|done].
    apply Hw. by apply list_elem_of_In. }
  unfold trim.
  rewrite (skip_spaces_plain (list_ascii_of_string w)); last first.
  { destruct (list_ascii_of_string w) as [|ch l]; [done|]. apply Hplain. left. }
  rewrite (skip_spaces_plain (rev _)); last first.
  { destruct (rev (list_ascii_of_string w)) as [|ch l] eqn:Hrev; [done|].
    apply Hplain. rewrite <-(rev_involutive (list_ascii_of_string w)), Hrev.
    apply list_elem_of_In, in_rev. rewrite rev_involutive. left. done. }
  rewrite rev_involutive, string_of_list_ascii_of_string.
  unfold toLowerCase.
  rewrite <-(string_of_list_ascii_of_string w) at 2. f_equal.
  rewrite <-(list_fmap_id (list_ascii_of_string w)) at 2.
  apply list_fmap_ext. intros _ ch Hch%list_elem_of_lookup_2. by apply Hplain.
Qed.

Lemma WORDS_of_join ws :
  Forall (λ w, is_word w = true) ws → WORDS_of (join_lines ws) = ws.
Proof.
  intros Hws. unfold WORDS_of, split_lines. destruct ws as [|w ws]; [done|].
  rewrite split_lines_go_join by done. simpl rev. cbn [app].
  rewrite string_of_list_ascii_of_string.
  induction Hws as [|x l Hx Hl IH]; [done|].
  rewrite fmap_cons, filter_cons, clean_word by done.
  rewrite decide_True by done. by rewrite IH.
Qed.

Lemma foldl_keep_new_NoDup seen acc ws :
  NoDup ws → (∀ w, w ∈ ws → w ∉ seen) →
  (foldl keep_new (seen, acc) ws).2 = acc ++ ws.
Proof.
  revert seen acc. induction ws as [|w ws IH]; intros seen acc Hnd Hseen; simpl.
  { by rewrite app_nil_r. }
  apply NoDup_cons in Hnd as [Hw Hnd].
  rewrite decide_False by (apply Hseen; left).
  rewrite IH; [by rewrite <-app_assoc|done|].
  intros x Hx. rewrite elem_of_union, elem_of_singleton.
  intros [->|Hin]; [done|]. eapply Hseen; [by right|done].
Qed.

End LoaderFacts.

Section loader_properties.
Import Loader LoaderFacts.

(** X14. [loadWords] of dp_solver.js returns, for every text, distinct
    words of five letters a-z: each word that some line holds once trimmed
    and lower-cased, in the order of their first lines.  A list of distinct
    valid words written one per line is read back as it is. *)
Theorem X14_loadWords_universe :
  (∀ txt, universe (loadWords txt) ∧
          Forall (λ w, is_word w = true) (loadWords txt) ∧
          ∀ w, w ∈ loadWords txt ↔
               is_word w = true ∧
               ∃ line, line ∈ split_lines txt ∧ w = toLowerCase (trim line)) ∧
  (∀ ws, NoDup ws → Forall (λ w, is_word w = true) ws →
         loadWords (join_lines ws) = ws).
Proof.
  split.
  - intros txt. unfold loadWords. fold (WORDS_of txt).
    destruct (loadWords_kept txt) as (Hnd & _ & Hall).
    split_and!; [by apply is_word_universe|done|].
    intros w.
    rewrite (foldl_keep_new_elem (λ w, is_word w = true));
      [|apply kept_empty|apply WORDS_of_words].
    simpl. rewrite elem_of_nil. unfold WORDS_of.
    rewrite list_elem_of_filter, list_elem_of_fmap. naive_solver.
  - intros ws Hnd Hws. unfold loadWords. fold (WORDS_of (join_lines ws)).
    rewrite WORDS_of_join by done.
    rewrite foldl_keep_new_NoDup; [done..|]. intros w _. set_solver.
Qed.

(** X16. The scripts that filter the lines without looking for repeats
    (dp_top_blocks.js, dp_ext.js, dp_top200.js, the script in main.js) get
    words of five letters a-z, and a list of valid words written one per
    line is read back as it is, repeated words included; [loadWords] gives
    the same list exactly when no word is repeated. *)
Theorem X16_WORDS_keeps_repeats :
  (∀ raw, Forall (λ w, is_word w = true ∧ String.length w = 5) (WORDS_of raw)) ∧
  (∀ ws, Forall (λ w, is_word w = true) ws → WORDS_of (join_lines ws) = ws) ∧
  (∀ raw, loadWords raw = WORDS_of raw ↔ NoDup (WORDS_of raw)).
Proof.
  split_and!.
  - intros raw. eapply Forall_impl; [apply WORDS_of_words|].
    intros w Hw. split; [done|by apply is_word_length].
  - apply WORDS_of_join.
  - intros raw. unfold loadWords. fold (WORDS_of raw). split.
    + intros <-. apply (loadWords_kept raw).
    + intros Hnd. rewrite foldl_keep_new_NoDup; [done..|]. intros w _. set_solver.
Qed.
End loader_properties.

Module CsvFacts.
Import Loader LoaderFacts.

Lemma is_lower_no_comma ch : is_lower ch = true → Ascii.eqb ch "," = false.
Proof.
  unfold is_lower.
  destruct ch as [[] [] [] [] [] [] [] []]; vm_compute; intros; congruence.
Qed.

Lemma split_cells_go_word l cur :
  forallb is_lower l = true →
  split_cells_go false cur l = [string_of_list_ascii (rev cur ++ l)].
Proof.
  revert cur. induction l as [|ch l IH]; intros cur Hl.
  { simpl. by rewrite app_nil_r. }
  simpl in Hl. apply andb_prop in Hl as [Hch Hl].
  destruct (is_lower_plain ch Hch) as (Hsp & _).
  cbn [split_cells_go]. rewrite Hsp, (is_lower_no_comma ch Hch), IH by done.
  simpl. by rewrite <-app_assoc.
Qed.

Lemma split_cells_word w : is_word w = true → split_cells w = [w].
Proof.
  intros Hw. unfold split_cells.
  rewrite split_cells_go_word by (by apply is_word_lower).
  simpl. by rewrite string_of_list_ascii_of_string.
Qed.

Lemma trim_word w : is_word w = true → trim w = w.
Proof.
  intros Hw. apply is_word_lower in Hw.
  assert (∀ ch, ch ∈ list_ascii_of_string w → is_space ch = false) as Hplain.
  { intros ch Hch. rewrite forallb_forall in Hw.
    destruct (is_lower_plain ch) as (? & _); [|done].
    apply Hw. by apply list_elem_of_In. }
  unfold trim.
  rewrite (skip_spaces_plain (list_ascii_of_string w)); last first.
  { destruct (list_ascii_of_string w) as [|ch l]; [done|]. apply Hplain. left. }
  rewrite (skip_spaces_plain (rev _)); last first.
  { destruct (rev (list_ascii_of_string w)) as [|ch l] eqn:Hrev; [done|].
    apply Hplain. rewrite <-(rev_involutive (list_ascii_of_string w)), Hrev.
    apply list_elem_of_In, in_rev. rewrite rev_involutive. left. done. }
  by rewrite rev_involutive, string_of_list_ascii_of_string.
Qed.

Lemma is_word_nonempty w : is_word w = true → w ≠ "".
Proof. by intros Hw ->. Qed.

(** On lines that each hold one valid word the loops of
    [parseWordsFromCsvText] are the loop with [seen] alone. *)
Lemma parse_lines_words ws st :
  Forall (λ w, is_word w = true) ws →
  foldl (λ st raw,
     let line := trim raw in
     if decide (line = "") then st
     else
       let cells := split_cells line in
       foldl (λ st c,
         let c := toLowerCase (trim c) in
         if is_word c then keep_new st c else st) st cells) st ws
  = foldl keep_new st ws.
Proof.
  intros Hws. revert st. induction Hws as [|w ws Hw Hws IH]; intros st; [done|].
  cbn [foldl]. rewrite IH. f_equal. cbv zeta.
  pose proof (trim_word w Hw) as Htrim.
  rewrite Htrim, decide_False by (by apply is_word_nonempty).
  rewrite split_cells_word by done. cbn [foldl].
  by rewrite clean_word, Hw.
Qed.

End CsvFacts.

Section csv_properties.
Import Loader LoaderFacts CsvFacts.

(** X15. [parseWordsFromCsvText] of main.js, and with it [loadWordsFromCsv]
    of the table generator, returns for every text distinct words of five
    letters a-z; a list of distinct valid words written one per line is
    read back as it is. *)
Theorem X15_parseWordsFromCsvText_universe :
  (∀ t, universe (parseWordsFromCsvText t) ∧
        Forall (λ w, is_word w = true) (parseWordsFromCsvText t)) ∧
  (∀ ws, NoDup ws → Forall (λ w, is_word w = true) ws →
         parseWordsFromCsvText (join_lines ws) = ws).
Proof.
  split.
  - intros t. destruct (parse_kept t) as (Hnd & _ & Hall).
    split; [by apply is_word_universe|done].
  - intros ws Hnd Hws. unfold parseWordsFromCsvText.
    destruct ws as [|w ws]; [done|].
    unfold split_lines. rewrite split_lines_go_join by done.
    simpl rev. cbn [app]. rewrite string_of_list_ascii_of_string.
    rewrite parse_lines_words by done.
    rewrite foldl_keep_new_NoDup; [done..|]. intros x _. set_solver.
Qed.
End csv_properties.

(** ** dp_solver.js: the guess that [solveState] reports *)

Module DpSolverGuess.
Import Num NumFacts Run RunFacts Partition Key Recurrence Variants.
Import DpSolver DpSolverFacts.

Lemma lt_irrefl x : Num.lt x x = false.
Proof. apply lt_spec, le_refl. Qed.

Lemma lt_le_trans x y z : Num.lt x y = true → le y z → Num.lt x z = true.
Proof.
  destruct x, y, z; simpl; try done.
  rewrite !bool_decide_eq_true. apply Qclt_le_trans.
Qed.

Lemma keep_min_lt best r c :
  Num.lt r best = true → keep_min best r = keep_min best c → r = c.
Proof.
  unfold keep_min. intros Hlt. rewrite Hlt.
  destruct (Num.lt c best); [done|]. intros ->. by rewrite lt_irrefl in Hlt.
Qed.

Section guess.
Variable N : nat.
Variable PAT : nat → nat → string.
Hypothesis PAT_diag : ∀ g a, g < N → a < N → PAT g a = "22222" ↔ g = a.

Local Abbreviation E := (expected PAT lead_branch charge_branch).
Local Abbreviation C := (cost PAT lead_branch charge_branch E).
Local Abbreviation charges := (charges_of charge_branch E).

(** The result names the first guess of the set whose cost is the value. *)
Definition chosen (S : list nat) (r : result) : Prop :=
  value r = E S ∧
  ∃ s1 g s2, S = s1 ++ g :: s2 ∧ bestGuess r = Z.of_nat g ∧ C S g = value r ∧
             ∀ g', g' ∈ s1 → Num.lt (value r) (C S g') = true.

Definition good_guess (k : string) (r : result) : Prop :=
  ∀ S, wf N S → sorted S → stateKey S = k → chosen S r.
Definition sound_guess (dp : dp_t) : Prop := ∀ k r, (k, r) ∈ dp → good_guess k r.

Lemma sound_guess_nil : sound_guess [].
Proof. by intros k v ?%elem_of_nil. Qed.

Lemma good_guess_chosen cands r :
  sorted cands → chosen cands r → good_guess (stateKey cands) r.
Proof.
  intros Hs Hr S HS HsS Heq. rewrite !stateKey_sorted in Heq by done.
  by apply (inj join_comma) in Heq as ->.
Qed.

Lemma cost_single x : x < N → C [x] x = Num.one.
Proof.
  intros Hx. unfold cost, partition_with. simpl.
  unfold charge_branch. simpl.
  rewrite decide_True by (by apply PAT_diag).
  apply Bounds.Fin_eq_num. vm_compute. reflexivity.
Qed.

Theorem solveState_with_chooses prune : ∀ fuel SIndices,
  wf N SIndices → sorted SIndices → SIndices ≠ [] → length SIndices ≤ fuel →
  returns sound_guess (solveState_with PAT prune fuel SIndices) (chosen SIndices).
Proof.
  intros fuel. induction fuel as [|fuel IH]; intros cands Hwf Hsorted Hne Hlen.
  { destruct cands; [done|simpl in Hlen; lia]. }
  cbn [solveState_with].
  destruct (decide (length cands = 0)).
  { by destruct cands. }
  destruct (decide (length cands = 1)) as [Hone|Hmore].
  { destruct cands as [|x [|??]]; try done. apply returns_ret.
    split; [done|]. exists [], x, []. split_and!; [done|done| |].
    - cbn [value]. apply cost_single. destruct Hwf as [_ Hall].
      exact (Forall_inv Hall).
    - by intros g' ?%elem_of_nil. }
  assert (2 ≤ length cands) as Hlen2 by lia.
  eapply (returns_bind _ _ _ (λ hit, ∀ r, hit = Some r → chosen cands r)).
  { intros dp Hdp. eexists _, dp. split_and!; [done..|].
    intros r Hget%JsMapFacts.get_elem. by eapply Hdp. }
  intros [r|] Hhit; [by apply returns_ret, Hhit|].
  set (step := λ best g, keep_min best (C cands g)).
  eapply (returns_bind _ _ _ (λ best, chosen cands (Result best.1 best.2))); last first.
  { intros [bestValue bestG] Hbest. simpl in Hbest.
    eapply (returns_bind _ _ _ (λ _, True)); [|intros; by apply returns_ret].
    apply returns_update. intros dp Hdp k r. simpl.
    intros [[= -> ->]|Hin]%JsMapFacts.set_elem; [by apply good_guess_chosen|].
    by apply Hdp. }
  apply (returns_for_of _
    (λ rest best, ∃ seen, cands = seen ++ rest ∧ best.1 = foldl step Inf seen ∧
       (best.1 ≠ Inf →
        ∃ s1 g s2, seen = s1 ++ g :: s2 ∧ best.2 = Z.of_nat g ∧ C cands g = best.1 ∧
                   ∀ g', g' ∈ s1 → Num.lt best.1 (C cands g') = true))).
  { exists []. by split_and!. }
  2:{ intros [bestValue bestG] (seen & Hseen & Hval & Hguess). simpl in *.
      rewrite app_nil_r in Hseen. subst seen.
      assert (bestValue = E cands) as HE
        by (by rewrite (expected_unfold N PAT _ _ PAT_diag)).
      split; [done|]. apply Hguess. rewrite HE.
      destruct (Values.expected_branch_bounds N PAT PAT_diag (length cands) cands)
        as [(q & -> & _) _]; done. }
  intros g rest [best bestG] (seen & Hseen & Hbest & Hguess). simpl in Hbest, Hguess.
  assert (g ∈ cands) as Hg.
  { rewrite Hseen. apply elem_of_app. right. left. }
  unfold partitionState. cbv zeta.
  set (bs := partition_with (λ ansIdx, PAT g ansIdx) cands).
  assert (bs = partition_with (PAT g) cands) as Hbs by done.
  eapply (returns_bind _ _ _ (λ r, keep_min best r = step best g)).
  - apply (returns_for_of _
      (λ rest2 acc, ∃ seen2, bs = seen2 ++ rest2 ∧
         acc = foldl Num.add Num.zero (charges cands seen2))).
    { by exists []. }
    2:{ intros acc (seen2 & Hseen2 & ->). rewrite app_nil_r in Hseen2.
        subst seen2. unfold step. rewrite cost_charges_of, <-Hbs.
        unfold lead_branch. by rewrite add_0_l. }
    intros [pat arr] rest2 acc (seen2 & Hseen2 & Hacc).
    assert (wf N arr ∧ sorted arr ∧ arr ≠ [] ∧ length arr ≤ fuel)
      as (Hwfa & Hsa & Hnea & Hlena).
    { assert ((pat, arr) ∈ bs) as Hin.
      { rewrite Hseen2. apply elem_of_app. right. left. }
      destruct (bucket_facts N PAT PAT_diag cands g pat arr)
        as (-> & ? & ? & ? & _); [done..|].
      split_and!; [done|by apply sorted_filter|done|lia]. }
    eapply (returns_bind _ _ _
      (λ acc', acc' = foldl Num.add Num.zero (charges cands (seen2 ++ [(pat, arr)])))).
    { assert (∀ acc', acc' = Num.add acc (charge_branch (length cands) pat arr (E arr)) →
        acc' = foldl Num.add Num.zero (charges cands (seen2 ++ [(pat, arr)]))) as Hnext.
      { intros acc' ->. unfold charges_of. rewrite fmap_app, foldl_app. simpl.
        by rewrite Hacc. }
      destruct (decide (pat = "22222")) as [Hpat|Hpat].
      - apply returns_ret. apply Hnext. unfold charge_branch.
        by rewrite decide_True.
      - eapply returns_bind; [by apply IH|].
        intros sub [Hsub _]. apply returns_ret. apply Hnext. unfold charge_branch.
        by rewrite decide_False, Hsub. }
    intros acc' Hacc'.
    destruct (prune && Num.ge acc' best) eqn:Hp.
    + apply andb_true_iff in Hp as [_ Hge]. apply returns_ret.
      unfold step. rewrite cost_charges_of, <-Hbs, Hseen2.
      unfold keep_min. rewrite (lt_irrefl_of_ge _ _ Hge).
      rewrite (cons_middle (pat, arr) seen2 rest2), app_assoc.
      unfold charges_of. rewrite fmap_app, foldl_app.
      fold (charges cands (seen2 ++ [(pat, arr)])). rewrite <-Hacc'.
      rewrite prune_sound; [done| |].
      * apply (dp_charges_nonneg PAT cands rest2). by destruct cands.
      * unfold lead_branch. by rewrite add_0_l.
    + apply returns_ret. exists (seen2 ++ [(pat, arr)]). split; [|done].
      by rewrite <-app_assoc.
  - intros r Hr.
    assert (∀ g', g' ∈ seen → le best (C cands g')) as Hseen_le.
    { intros g' Hg'. rewrite Hbest.
      by apply (foldl_keep_min_le (C cands) seen Inf). }
    destruct (Num.lt r best) eqn:Hlt; apply returns_ret;
      exists (seen ++ [g]); (split; [by rewrite <-app_assoc|]); simpl.
    + pose proof (keep_min_lt _ _ _ Hlt Hr) as ->.
      split; [rewrite foldl_app; simpl; rewrite <-Hbest; unfold step, keep_min;
              by rewrite Hlt|].
      intros _. exists seen, g, []. split_and!; [done..|].
      intros g' Hg'. eapply lt_le_trans; [exact Hlt|by apply Hseen_le].
    + assert (step best g = best) as Hstep.
      { rewrite <-Hr. unfold keep_min. by rewrite Hlt. }
      split; [rewrite foldl_app; simpl; by rewrite <-Hbest, Hstep|].
      intros Hfin. destruct (Hguess Hfin) as (s1 & g0 & s2 & -> & ? & ? & ?).
      exists s1, g0, (s2 ++ [g]). split_and!; [|done..].
      by rewrite <-app_assoc.
Qed.
End guess.

End DpSolverGuess.

(** ** dp_solver.js, [main] *)

Module DpSolverMain.
Import Num Run DpSolver.

(** What [main] ends with: the summary it prints and writes, or the
    [TypeError] of [firstWord.toUpperCase()] on [undefined].  The progress
    counter and the time stamp of the summary are left out. *)
Inductive outcome :=
  | TypeError
  | Summary (wordListSize : nat) (bestFirstGuessIndex : Z)
      (bestFirstGuessWord : string) (expectedGuesses : num).

(** [answers[i]] for a number [i]: [undefined] outside the array. *)
Definition index_at (answers : list string) (i : Z) : option string :=
  if decide (0 ≤ i)%Z then answers !! Z.to_nat i else None.

(** [None] stands for a call stack that is exhausted. *)
Definition main (answers : list string) (fuel : nat) : option outcome :=
  let N := length answers in
  let patternMatrix := pattern_table Feedback.patternOf answers in
  let fullState := seq 0 N in
  match solveState patternMatrix fuel fullState [] with
  | None => None
  | Some (result, _) =>
      match index_at answers (bestGuess result) with
      | None => Some TypeError
      | Some firstWord =>
          Some (Summary N (bestGuess result) firstWord (value result))
      end
  end.

End DpSolverMain.

Section dp_solver_policy.
Import Num NumFacts Run RunFacts Partition Recurrence Variants Bounds Runs.
Import DpSolver DpSolverFacts DpSolverGuess DpSolverMain.


Lemma dpsolver_chooses WORDS fuel cands :
  universe WORDS → wf (length WORDS) cands → sorted cands → cands ≠ [] →
  length cands ≤ fuel →
  ∃ r dp', solveState (pattern_table Feedback.patternOf WORDS) fuel cands []
           = Some (r, dp') ∧
           chosen (pattern_table Feedback.patternOf WORDS) cands r.
Proof.
  intros Huni Hwf Hsorted Hne Hlen.
  destruct (returns_run _ _ _ []
    (solveState_with_chooses (length WORDS) _ (patternMatrix_diag WORDS Huni)
       true fuel cands Hwf Hsorted Hne Hlen) (sound_guess_nil _ _))
    as (r & dp' & Hrun & _ & Hr).
  by exists r, dp'.
Qed.



(** X18. [main] of dp_solver.js on the words read from a text: when the
    text has no valid word the run ends in a [TypeError], the solver having
    answered the guess -1 for the empty state; otherwise it ends with a
    summary whose best first guess is a word of the list, at the index
    reported, and whose expected number of guesses lies between one and the
    number of words. *)
Theorem X18_dp_solver_main (txt : string) (fuel : nat) :
  let answers := Loader.loadWords txt in
  length answers ≤ fuel →
  (answers = [] → main answers fuel = Some TypeError) ∧
  (answers ≠ [] →
   ∃ g w q, main answers fuel = Some (Summary (length answers) (Z.of_nat g) w (Fin q)) ∧
            answers !! g = Some w ∧
            (1 ≤ q)%Qc ∧ (q ≤ Qc_of_Z (Z.of_nat (length answers)))%Qc).
Proof.
  intros answers Hfuel. split.
  { intros ->. by destruct fuel. }
  intros Hne.
  assert (universe answers) as Huni.
  { destruct (LoaderFacts.loadWords_kept txt) as (Hnd & _ & Hall).
    by apply LoaderFacts.is_word_universe. }
  assert (seq 0 (length answers) ≠ []) as Hne'.
  { destruct answers; [done|]. simpl. done. }
  destruct (dpsolver_chooses answers fuel (seq 0 (length answers)))
    as (r & dp' & Hrun & HE & Hch);
    [done|apply DpTopBlocksFacts.seq_wf|apply seq_sorted|done
    |by rewrite length_seq|].
  destruct Hch as (s1 & g & s2 & Hs & Hg & _ & _).
  assert (g < length answers) as Hglt.
  { assert (g ∈ seq 0 (length answers)) as Hin%elem_of_seq; [|lia].
    rewrite Hs. apply elem_of_app. right. left. }
  destruct (lookup_lt_is_Some_2 answers g Hglt) as [w Hw].
  destruct (Values.expected_branch_bounds (length answers) _
              (patternMatrix_diag answers Huni) (length answers)
              (seq 0 (length answers)))
    as [(q & Hq & Hlo & Hhi) _];
    [by rewrite length_seq|apply DpTopBlocksFacts.seq_wf|done|].
  rewrite length_seq in Hhi.
  exists g, w, q. split_and!; [|done..].
  unfold main. cbv zeta. rewrite Hrun. unfold index_at.
  rewrite Hg, decide_True by lia. rewrite Nat2Z.id, Hw.
  by rewrite HE, Hq.
Qed.

Lemma X18_dp_solver_main_witness :
  let answers := Loader.loadWords ("crane" +:+ String "010" "slate") in
  (answers = [] → main answers 2 = Some TypeError) ∧
  (answers ≠ [] →
   ∃ g w q, main answers 2 = Some (Summary (length answers) (Z.of_nat g) w (Fin q)) ∧
            answers !! g = Some w ∧
            (1 ≤ q)%Qc ∧ (q ≤ Qc_of_Z (Z.of_nat (length answers)))%Qc).
Proof.
  apply (X18_dp_solver_main ("crane" +:+ String "010" "slate") 2).
  vm_compute. lia.
Defined.

Example main_two_words :
  main (Loader.loadWords ("crane" +:+ String "010" "slate")) 2
  = Some (Summary 2 0 "crane" (Fin (Q2Qc (3 # 2)))).
Proof. vm_compute. reflexivity. Qed.
End dp_solver_policy.

(** ** The marks of a feedback code, position by position *)

Module MarkFacts.
Import Feedback.

Section marks.
Context {L : Type} `{EqDecision L}.
Implicit Types (gl al : list L) (rem : L → nat).

Lemma second_pass_lookup gl al rem i m :
  spec_second_pass gl al rem !! i = Some m →
  ∃ x y, gl !! i = Some x ∧ al !! i = Some y ∧
         (m = Correct ↔ x = y) ∧ (m = Present → 0 < rem x).
Proof.
  revert al rem i. induction gl as [|x gl IH]; intros [|y al] rem i; try done.
  simpl. destruct i as [|i].
  - simpl. intros Hm. exists x, y. split_and!; [done..| |].
    + repeat case_decide; naive_solver.
    + repeat case_decide; naive_solver.
  - assert (∀ rem', (∀ c, 0 < rem' c → 0 < rem c) →
      spec_second_pass gl al rem' !! i = Some m →
      ∃ x0 y0, gl !! i = Some x0 ∧ al !! i = Some y0 ∧
               (m = Correct ↔ x0 = y0) ∧ (m = Present → 0 < rem x0)) as Hrest.
    { intros rem' Hrem Hm. destruct (IH al rem' i Hm) as (x0 & y0 & ? & ? & ? & ?).
      exists x0, y0. split_and!; [done..|]. auto. }
    repeat case_decide; simpl; apply Hrest; try done.
    intros c. unfold take_one. case_decide; lia.
Qed.

Lemma unmatched_count_pos c gl al :
  0 < unmatched_count c gl al →
  ∃ j x, gl !! j = Some x ∧ al !! j = Some c ∧ x ≠ c.
Proof.
  revert al. induction gl as [|x gl IH]; intros [|y al]; simpl; try lia.
  case_decide as Hxy.
  - intros _. destruct Hxy as [Hxy ->]. by exists 0, x.
  - intros Hpos. destruct (IH al) as (j & x0 & ? & ? & ?); [lia|].
    by exists (S j), x0.
Qed.

Lemma spec_compute_lookup gl al i m :
  spec_compute gl al !! i = Some m →
  ∃ x y, gl !! i = Some x ∧ al !! i = Some y ∧
         (m = Correct ↔ x = y) ∧
         (m = Present → ∃ j z, gl !! j = Some z ∧ al !! j = Some x ∧ z ≠ x).
Proof.
  intros (x & y & Hx & Hy & Hc & Hp)%second_pass_lookup.
  exists x, y. split_and!; [done..|].
  intros Hm. by apply unmatched_count_pos, Hp.
Qed.
End marks.

Lemma cells_lookup {A} (w : nat → A) i : i < 5 → cells w !! i = Some (w i).
Proof.
  intros Hi. unfold cells. rewrite list_lookup_fmap, lookup_seq_lt by done. done.
Qed.

Lemma cells_lookup_inv {A} (w : nat → A) i x : cells w !! i = Some x → i < 5 ∧ x = w i.
Proof.
  unfold cells. rewrite list_lookup_fmap. intros Hl.
  destruct (seq 0 5 !! i) as [k|] eqn:Hk; [|done].
  apply lookup_seq in Hk as [-> ?]. simpl in Hl. by injection Hl as <-.
Qed.

Lemma spec_compute_cells_length (g a : string) :
  length (spec_compute (cells (char_at g)) (cells (char_at a))) = 5.
Proof. unfold spec_compute. by rewrite spec_second_pass_length. Qed.

Lemma join_chars_length (l : list ascii) : String.length (join_chars l) = length l.
Proof. unfold join_chars. induction l as [|c l IH]; simpl; [done|]. by rewrite IH. Qed.

(** The marks of [spec_pattern], read off its characters. *)
Lemma spec_pattern_marks (g a : string) :
  String.length (spec_pattern g a) = 5 ∧
  ∀ i, i < 5 →
    ∃ m, char_at (spec_pattern g a) i = Some (encode_mark m) ∧
         (m = Correct ↔ char_at g i = char_at a i) ∧
         (m = Present →
          ∃ j, j < 5 ∧ char_at a j = char_at g i ∧ char_at g j ≠ char_at a j).
Proof.
  unfold spec_pattern. split.
  - rewrite join_chars_length, length_fmap. apply spec_compute_cells_length.
  - intros i Hi. rewrite char_at_join, list_lookup_fmap.
    destruct (spec_compute (cells (char_at g)) (cells (char_at a)) !! i) as [m|] eqn:Hm.
    2:{ apply lookup_ge_None in Hm. rewrite spec_compute_cells_length in Hm. lia. }
    destruct (spec_compute_lookup _ _ _ _ Hm) as (x & y & Hx & Hy & Hc & Hp).
    apply cells_lookup_inv in Hx as [_ ->]. apply cells_lookup_inv in Hy as [_ ->].
    exists m. split_and!; [done|done|].
    intros Hpres. destruct (Hp Hpres) as (j & z & Hz & Hj & Hne).
    apply cells_lookup_inv in Hz as [Hj5 ->]. apply cells_lookup_inv in Hj as [_ Hj].
    exists j. split_and!; [done|done|]. congruence.
Qed.

End MarkFacts.

Section mark_properties.
Import Feedback MarkFacts.

(** What the marks of a code say, for a feedback function [f]. *)
Definition marks_sound (f : string → string → string) : Prop :=
  ∀ guess answer : string,
    String.length (f guess answer) = 5 ∧
    ∀ i, i < 5 →
      (char_at (f guess answer) i = Some "2"%char
       ∨ char_at (f guess answer) i = Some "1"%char
       ∨ char_at (f guess answer) i = Some "0"%char) ∧
      (char_at (f guess answer) i = Some "2"%char
       ↔ char_at guess i = char_at answer i) ∧
      (char_at (f guess answer) i = Some "1"%char →
       ∃ j, j < 5 ∧ char_at answer j = char_at guess i ∧
            char_at guess j ≠ char_at answer j).

Lemma spec_pattern_marks_sound : marks_sound spec_pattern.
Proof.
  intros guess answer. destruct (spec_pattern_marks guess answer) as [Hlen Hm].
  split; [done|]. intros i Hi. destruct (Hm i Hi) as (m & Hch & Hc & Hp).
  rewrite Hch. split_and!.
  - destruct m; simpl; auto.
  - rewrite <-Hc. destruct m; simpl; naive_solver.
  - intros Heq. apply Hp. destruct m; simpl in Heq; naive_solver.
Qed.

(** X19. For any two strings, of any length, each of the four feedback
    functions returns five marks among 0, 1 and 2; the mark at a position
    is 2 exactly when guess and answer agree there (two missing characters
    agree); and a mark 1 is only given to a guess character that stands in
    the answer at a position where guess and answer differ. *)
Theorem X19_feedback_marks :
  marks_sound pattern ∧ marks_sound patternOf ∧ marks_sound patternFor ∧
  marks_sound TableGen.patternFor.
Proof.
  pose proof spec_pattern_marks_sound as H.
  unfold marks_sound in *.
  split_and!; intros guess answer;
    rewrite ?pattern_spec, ?patternOf_spec, ?patternFor_spec,
      ?tablegen_patternFor_spec; apply H.
Qed.
End mark_properties.

(** ** main.js: the look-ahead estimates of the suggestion table *)

Module Lookahead.
Import Num Partition.
Local Open Scope num_scope.

Definition two : num := Num.of_nat 2.

(** [EstepsOneLookaheadLocal(S, g)] *)
Definition EstepsOneLookaheadLocal (S : list string) (g : string) : num :=
  let n := length S in
  let parts := partitionByPattern S g in
  foldl (λ est entry,
    let p := length entry.2 // n in
    if decide (entry.1 = "22222") then est + p * 1
    else
      let best := foldl (λ best g2,
        let parts2 := partitionByPattern entry.2 g2 in
        let e2 := foldl (λ e2 entry2,
          let p2 := length entry2.2 // length entry.2 in
          if decide (entry2.1 = "22222") then e2 + p2 * 1
          else
            let expLeaf := if decide (length entry2.2 = 1%nat) then 1 else two in
            e2 + p2 * (1 + expLeaf)) 0 parts2 in
        if e2 <? best then e2 else best) Inf entry.2 in
      est + p * (1 + best)) 0 parts.

(** [EstepsOneLookaheadLocalDeep(S, g)]: the same with the guesses [g2],
    [g3] and [g4] chosen before the leaf is estimated. *)
Definition EstepsOneLookaheadLocalDeep (S : list string) (g : string) : num :=
  let n := length S in
  let parts1 := partitionByPattern S g in
  foldl (λ est entry1,
    let p1 := length entry1.2 // n in
    if decide (entry1.1 = "22222") then est + p1 * 1
    else
      let bestE2 := foldl (λ bestE2 g2,
        let parts2 := partitionByPattern entry1.2 g2 in
        let e2 := foldl (λ e2 entry2,
          let p2 := length entry2.2 // length entry1.2 in
          if decide (entry2.1 = "22222") then e2 + p2 * 1
          else
            let bestE3 := foldl (λ bestE3 g3,
              let parts3 := partitionByPattern entry2.2 g3 in
              let e3 := foldl (λ e3 entry3,
                let p3 := length entry3.2 // length entry2.2 in
                if decide (entry3.1 = "22222") then e3 + p3 * 1
                else
                  let bestE4 := foldl (λ bestE4 g4,
                    let parts4 := partitionByPattern entry3.2 g4 in
                    let e4 := foldl (λ e4 entry4,
                      let p4 := length entry4.2 // length entry3.2 in
                      if decide (entry4.1 = "22222") then e4 + p4 * 1
                      else
                        let leafSize := length entry4.2 in
                        let expLeaf :=
                          if decide (leafSize = 1%nat) then 1 else two in
                        e4 + p4 * (1 + expLeaf)) 0 parts4 in
                    if e4 <? bestE4 then e4 else bestE4) Inf entry3.2 in
                  e3 + p3 * (1 + bestE4)) 0 parts3 in
              if e3 <? bestE3 then e3 else bestE3) Inf entry2.2 in
            e2 + p2 * (1 + bestE3)) 0 parts2 in
        if e2 <? bestE2 then e2 else bestE2) Inf entry1.2 in
      est + p1 * (1 + bestE2)) 0 parts1.

Example EstepsOneLookaheadLocal_ex :
  EstepsOneLookaheadLocal ["abide"; "speed"; "crane"; "abode"; "spend"] "crane"
  = Fin (Q2Qc 2).
Proof. apply Bounds.Fin_eq_num. vm_compute. reflexivity. Qed.

(** One level of either function: the buckets of a guess, each weighted by
    one guess, or by one guess and what [sub] gives the bucket. *)
Definition level (sub : list string → num) (S : list string) (g : string) : num :=
  foldl (λ est entry,
    let p := length entry.2 // length S in
    if decide (entry.1 = "22222") then est + p * 1
    else est + p * (1 + sub entry.2)) 0 (partitionByPattern S g).

(** The guess of a bucket that looks best at one level. *)
Definition best_of (sub : list string → num) (arr : list string) : num :=
  foldl (λ best g2,
    let e2 := level sub arr g2 in
    if e2 <? best then e2 else best) Inf arr.

Definition leaf (arr : list string) : num :=
  if decide (length arr = 1%nat) then 1 else two.

Lemma EstepsOneLookaheadLocal_levels S g :
  EstepsOneLookaheadLocal S g = level (best_of leaf) S g.
Proof. reflexivity. Qed.

Lemma EstepsOneLookaheadLocalDeep_levels S g :
  EstepsOneLookaheadLocalDeep S g
  = level (best_of (best_of (best_of leaf))) S g.
Proof. reflexivity. Qed.

End Lookahead.

Module LookaheadFacts.
Import Num NumFacts Partition Recurrence Bounds Lookahead.
Local Open Scope Qc_scope.

(** What a level weighs a bucket with. *)
Definition branch (sub : list string → num) (entry : string * list string) : num :=
  if decide (entry.1 = "22222") then Num.one else Num.add Num.one (sub entry.2).

Lemma level_weighted sub S g :
  level sub S g
  = foldl Num.add Num.zero
      (weighted (length S)
         ((λ entry, (length entry.2, branch sub entry)) <$> partitionByPattern S g)).
Proof.
  unfold level, weighted. rewrite <-list_fmap_compose, foldl_fmap.
  apply foldl_ext_in. intros est entry _. simpl. unfold branch. by case_decide.
Qed.

Lemma level_within sub (hi : Qc) S g :
  S ≠ [] → 0 ≤ hi →
  (∀ k arr, (k, arr) ∈ partitionByPattern S g → within 0 hi (sub arr)) →
  within 1 (1 + hi) (level sub S g).
Proof.
  intros Hne Hhi Hsub. rewrite level_weighted.
  assert (length S ≠ 0%nat) as Hn by (by destruct S).
  destruct (weighted_bounds (length S) 1 (1 + hi)
    ((λ entry, (length entry.2, branch sub entry)) <$> partitionByPattern S g) 0 Hn)
    as (r & Hr & Hlo & Hup).
  { apply Forall_forall. intros sv ([k arr] & -> & Hin)%list_elem_of_fmap.
    cbn [snd]. unfold branch. cbn [fst snd]. case_decide.
    - exists 1. split; [done|]. split; qc2q; lra.
    - destruct (Hsub k arr Hin) as (q & -> & Hq0 & Hq1).
      exists (1 + q). split; [done|]. split; qc2q; lra. }
  rewrite <-list_fmap_compose in Hlo, Hup.
  assert ((fst ∘ (λ entry : string * list string,
             (length entry.2, branch sub entry))) <$> partitionByPattern S g
          = length <$> map_values (partitionByPattern S g)) as Hsizes.
  { unfold map_values. by rewrite <-list_fmap_compose. }
  rewrite Hsizes in Hlo, Hup.
  assert (total_weight (length S)
            (length <$> map_values (partitionByPattern S g)) = 1) as Hw.
  { apply total_weight_one; [done|].
    apply (partition_with_sizes (λ ans, Feedback.pattern g ans) S). }
  rewrite Hw in Hlo, Hup.
  exists r. split; [exact Hr|]. split; qc2q; lra.
Qed.

Lemma best_of_within sub (lo hi : Qc) arr :
  arr ≠ [] → (∀ g2, g2 ∈ arr → within lo hi (level sub arr g2)) →
  within lo hi (best_of sub arr).
Proof.
  intros Hne Hall. unfold best_of.
  destruct (foldl_keep_min_Inf (level sub arr) arr Hne) as (g2 & Hg2 & Hmin).
  unfold keep_min in Hmin. rewrite Hmin. by apply Hall.
Qed.

Lemma within_from_one (hi : Qc) x : within 1 hi x → within 0 hi x.
Proof.
  intros (q & -> & Hlo & Hhi). exists q. split; [done|]. split; [|done].
  qc2q; lra.
Qed.

Lemma leaf_within arr : within 1 2 (leaf arr).
Proof.
  unfold leaf, two, Num.of_nat. case_decide.
  - exists 1. split; [done|]. split; by compute.
  - exists 2. split; [by apply Fin_eq|]. split; by compute.
Qed.

(** One more guess chosen before the estimate of [sub] adds one to the
    range. *)
Lemma best_of_level_within sub (hi : Qc) arr :
  arr ≠ [] → 0 ≤ hi → (∀ arr', arr' ≠ [] → within 1 hi (sub arr')) →
  within 1 (1 + hi) (best_of sub arr).
Proof.
  intros Hne Hhi Hsub. apply best_of_within; [done|].
  intros g2 _. apply level_within; [done..|].
  intros k arr' Hin. apply within_from_one, Hsub.
  by destruct (partition_with_elem _ _ _ _ Hin).
Qed.

End LookaheadFacts.

Section lookahead_properties.
Import Num Partition Bounds Lookahead LookaheadFacts.

(** X20. The estimates of the suggestion table stay in a fixed range: for
    every non-empty candidate list and every guess,
    [EstepsOneLookaheadLocal] is a finite number between 1 and 4 and
    [EstepsOneLookaheadLocalDeep] one between 1 and 6, however many
    candidates there are; on an empty list both are 0. *)
Theorem X20_lookahead_estimates_range (S : list string) (g : string) :
  S ≠ [] →
  within 1 (Q2Qc 4) (EstepsOneLookaheadLocal S g) ∧
  within 1 (Q2Qc 6) (EstepsOneLookaheadLocalDeep S g) ∧
  EstepsOneLookaheadLocal [] g = Num.zero ∧
  EstepsOneLookaheadLocalDeep [] g = Num.zero.
Proof.
  intros Hne.
  assert (H3 : ∀ arr, arr ≠ [] → within 1 (1 + 2) (best_of leaf arr)).
  { intros arr Harr. apply best_of_level_within; [done|by compute|].
    intros arr' _. apply leaf_within. }
  assert (H4 : ∀ arr, arr ≠ [] → within 1 (1 + (1 + 2)) (best_of (best_of leaf) arr)).
  { intros arr Harr. apply best_of_level_within; [done|by compute|done]. }
  assert (H5 : ∀ arr, arr ≠ [] →
    within 1 (1 + (1 + (1 + 2))) (best_of (best_of (best_of leaf)) arr)).
  { intros arr Harr. apply best_of_level_within; [done|by compute|done]. }
  split_and!; [| |done..].
  - rewrite EstepsOneLookaheadLocal_levels.
    destruct (level_within (best_of leaf) (1 + 2) S g) as (q & Hq & Hlo & Hhi);
      [done|by compute| |].
    + intros k arr Hin. apply within_from_one, H3.
      by destruct (partition_with_elem _ _ _ _ Hin).
    + exists q. split; [done|]. split; [done|].
      eapply Qcle_trans; [exact Hhi|]. by compute.
  - rewrite EstepsOneLookaheadLocalDeep_levels.
    destruct (level_within (best_of (best_of (best_of leaf))) (1 + (1 + (1 + 2))) S g)
      as (q & Hq & Hlo & Hhi); [done|by compute| |].
    + intros k arr Hin. apply within_from_one, H5.
      by destruct (partition_with_elem _ _ _ _ Hin).
    + exists q. split; [done|]. split; [done|].
      eapply Qcle_trans; [exact Hhi|]. by compute.
Qed.

Lemma X20_lookahead_estimates_range_witness :
  within 1 (Q2Qc 4) (EstepsOneLookaheadLocal DpTopBlocks.demo_words "crane") ∧
  within 1 (Q2Qc 6) (EstepsOneLookaheadLocalDeep DpTopBlocks.demo_words "crane") ∧
  EstepsOneLookaheadLocal [] "crane" = Num.zero ∧
  EstepsOneLookaheadLocalDeep [] "crane" = Num.zero.
Proof. by apply (X20_lookahead_estimates_range DpTopBlocks.demo_words "crane"). Defined.
End lookahead_properties.

(** ** main.js: the search expressions of the word list

    A search expression combines patterns with [&], [|] and parentheses.
    [new RegExp(reStr).test(w)] is the engine's; it is the parameter
    [regex_test] below.  Characters stand for code units below 256. *)

Module Search.
Import Loader.

Inductive token :=
  | TOpen                    (* {type:'('} *)
  | TClose                   (* {type:')'} *)
  | TAnd                     (* {type:'&'} *)
  | TOr                      (* {type:'|'} *)
  | TPat (value : string).   (* {type:'pat', value} *)

#[global] Instance token_eq_dec : EqDecision token.
Proof. solve_decision. Defined.

(** *** [tokenize] *)

(** Where the scan is: between tokens, inside a pattern whose characters
    so far are [buf] (last first), or inside a bracket group of a pattern
    that is known to be closed further on. *)
Inductive scan_mode :=
  | Between
  | InPattern (buf : list ascii)
  | InBracket (buf : list ascii).

Definition is_op_char (c : ascii) : bool := Ascii.eqb c "|" || Ascii.eqb c "&".

Definition char_token (c : ascii) : token :=
  if Ascii.eqb c "(" then TOpen
  else if Ascii.eqb c ")" then TClose
  else if Ascii.eqb c "&" then TAnd
  else TOr.

(** [out.push({type:'pat',value:buf})] when a pattern is being read. *)
Definition flush (m : scan_mode) : list token :=
  match m with
  | Between => []
  | InPattern buf | InBracket buf => [TPat (string_of_list_ascii (rev buf))]
  end.

Definition buf_of (m : scan_mode) : list ascii :=
  match m with
  | Between => []
  | InPattern buf | InBracket buf => buf
  end.

Fixpoint tokenize_go (m : scan_mode) (l : list ascii) : list token :=
  match l with
  | [] => flush m
  | c :: l' =>
      match m with
      | InBracket buf =>
          (* s.slice(i, j+1): everything up to the first ']' *)
          if Ascii.eqb c "]" then tokenize_go (InPattern (c :: buf)) l'
          else tokenize_go (InBracket (c :: buf)) l'
      | _ =>
          if Ascii.eqb c " " then flush m ++ tokenize_go Between l'
          else if Ascii.eqb c "(" || Ascii.eqb c ")" || is_op_char c
          then flush m ++ char_token c :: tokenize_go Between l'
          else if Ascii.eqb c "[" then
            if existsb (λ d, Ascii.eqb d "]") l'
            then tokenize_go (InBracket (c :: buf_of m)) l'
            else tokenize_go (InPattern (c :: buf_of m)) l'
          else tokenize_go (InPattern (c :: buf_of m)) l'
      end
  end.

Definition tokenize (expr : string) : list token :=
  tokenize_go Between (list_ascii_of_string (toLowerCase expr)).

Example tokenize_ex :
  tokenize "(A?c |b[a-c&]) & d"
  = [TOpen; TPat "a?c"; TOr; TPat "b[a-c&]"; TClose; TAnd; TPat "d"].
Proof. vm_compute. reflexivity. Qed.

(** *** [toRPN] *)

Definition prec (t : token) : nat :=
  match t with
  | TAnd => 2
  | TOr => 1
  | _ => 0
  end.

Definition isOp (t : token) : bool :=
  match t with
  | TAnd | TOr => true
  | _ => false
  end.

(** The stack [st] has its top first. *)
(** [while(st.length){ top=st[st.length-1];
      if(isOp(top)&&prec(top)>=prec(t)) out.push(st.pop()); else break; }] *)
Fixpoint pop_ops (t : token) (out st : list token) : list token * list token :=
  match st with
  | top :: st' =>
      if isOp top && (prec t <=? prec top) then pop_ops t (out ++ [top]) st'
      else (out, st)
  | [] => (out, st)
  end.

(** [while(st.length&&st[st.length-1].type!=='(') out.push(st.pop());
     if(st.length&&st[st.length-1].type==='(') st.pop();] *)
Fixpoint pop_to_open (out st : list token) : list token * list token :=
  match st with
  | top :: st' =>
      if decide (top = TOpen) then (out, st') else pop_to_open (out ++ [top]) st'
  | [] => (out, st)
  end.

Definition rpn_step (state : list token * list token) (t : token)
    : list token * list token :=
  let '(out, st) := state in
  match t with
  | TPat _ => (out ++ [t], st)
  | TAnd | TOr => let '(out, st) := pop_ops t out st in (out, t :: st)
  | TOpen => (out, t :: st)
  | TClose => pop_to_open out st
  end.

(** [while(st.length){ x=st.pop(); if(x.type!=='('&&x.type!==')') out.push(x); }] *)
Fixpoint drain (out st : list token) : list token :=
  match st with
  | x :: st' =>
      if decide (x ≠ TOpen ∧ x ≠ TClose) then drain (out ++ [x]) st'
      else drain out st'
  | [] => out
  end.

Definition toRPN (tokens : list token) : list token :=
  let '(out, st) := foldl rpn_step ([], []) tokens in
  drain out st.

Example toRPN_ex :
  toRPN [TPat "a"; TOr; TPat "b"; TAnd; TPat "c"]
  = [TPat "a"; TPat "b"; TPat "c"; TAnd; TOr].
Proof. vm_compute. reflexivity. Qed.

(** *** [buildRegexFromMiniPattern] *)

(** [sanitizeClassContent] *)
Definition sanitizeClassContent (s : string) : option string :=
  let x := filter (λ c, is_space c = false)
             (list_ascii_of_string (toLowerCase s)) in
  if forallb (λ c, is_lower c || Ascii.eqb c "-" || Ascii.eqb c "^") x
  then Some (string_of_list_ascii x) else None.

Definition is_re_special (c : ascii) : bool :=
  existsb (Ascii.eqb c) (list_ascii_of_string ".*+?^${}()|[]\").

(** [escapeRe] on one character *)
Definition escapeRe_char (c : ascii) : string :=
  if is_re_special c then String "\" (String c "") else String c "".

(** The characters of [q] from [i+1] to the first [']'], and what follows
    it. *)
Fixpoint to_close (l : list ascii) : option (list ascii * list ascii) :=
  match l with
  | [] => None
  | c :: l' =>
      if Ascii.eqb c "]" then Some ([], l')
      else match to_close l' with
           | Some (inside, rest) => Some (c :: inside, rest)
           | None => None
           end
  end.

(** [skip] counts the characters that an accepted bracket group still
    covers; they are passed over, as [i=j] does. *)
Fixpoint regex_go (skip : nat) (l : list ascii) : string :=
  match l with
  | [] => ""
  | ch :: l' =>
      match skip with
      | S skip' => regex_go skip' l'
      | O =>
          if Ascii.eqb ch "*" then
            (* a run of stars is one [a-z]* *)
            match l' with
            | ch' :: _ =>
                if Ascii.eqb ch' "*" then regex_go 0 l'
                else "[a-z]*" +:+ regex_go 0 l'
            | [] => "[a-z]*"
            end
          else if Ascii.eqb ch "?" then "[a-z]" +:+ regex_go 0 l'
          else if Ascii.eqb ch "[" then
            match to_close l' with
            | Some (inside, _) =>
                match sanitizeClassContent (string_of_list_ascii inside) with
                | Some ok => "[" +:+ ok +:+ "]" +:+ regex_go (S (length inside)) l'
                | None => "\[" +:+ regex_go 0 l'
                end
            | None => "\[" +:+ regex_go 0 l'
            end
          else if Ascii.eqb ch " " then regex_go 0 l'
          else if is_lower ch then String ch (regex_go 0 l')
          else escapeRe_char ch +:+ regex_go 0 l'
      end
  end.

(** The source of the regular expression that
    [buildRegexFromMiniPattern(q)] compiles. *)
Definition buildRegexFromMiniPattern (q : string) : string :=
  regex_go 0 (list_ascii_of_string q).

Example buildRegexFromMiniPattern_ex :
  buildRegexFromMiniPattern "a**?[B -d]c.[x" = "a[a-z]*[a-z][b-d]c\.\[x".
Proof. vm_compute. reflexivity. Qed.

(** *** [buildTesterFromRPN] and [buildSearchTester] *)

Section tester.
(** [new RegExp(reStr).test(w)] *)
Variable regex_test : string → string → bool.

Definition tester : Type := string → bool.

(** One round of the loop; [None] is [return null].  The stack has its top
    first. *)
Definition tester_step (st : option (list tester)) (t : token)
    : option (list tester) :=
  match st with
  | None => None
  | Some st =>
      match t with
      | TPat value =>
          let re := buildRegexFromMiniPattern value in
          Some ((λ w, regex_test re w) :: st)
      | TAnd | TOr =>
          match st with
          | b :: a :: st' =>
              Some ((if decide (t = TAnd) then (λ w, a w && b w)
                     else (λ w, a w || b w)) :: st')
          | _ => None
          end
      | _ => Some st
      end
  end.

Definition buildTesterFromRPN (rpn : list token) : option tester :=
  match foldl tester_step (Some []) rpn with
  | Some [t] => Some t
  | _ => None
  end.

Definition is_pat (t : token) : bool :=
  match t with
  | TPat _ => true
  | _ => false
  end.

Definition buildSearchTester (expr : string) : option tester :=
  let toks := tokenize expr in
  if negb (existsb is_pat toks) then None
  else
    let rpn := toRPN toks in
    buildTesterFromRPN rpn.
End tester.

End Search.

Module SearchFacts.
Import Search.

(** Expressions as trees, and the grammar of the token lists that denote
    them: level 1 is a chain of [|], level 2 a chain of [&], level 3 a
    pattern or a parenthesised expression.  Both operators group to the
    left. *)
Inductive expr :=
  | Pat (v : string)
  | And (a b : expr)
  | Or (a b : expr).

Inductive parses : nat → list token → expr → Prop :=
  | parses_pat v : parses 3 [TPat v] (Pat v)
  | parses_paren l e :
      parses 1 l e → parses 3 (TOpen :: l ++ [TClose]) e
  | parses_and l1 l2 a b :
      parses 2 l1 a → parses 3 l2 b → parses 2 (l1 ++ TAnd :: l2) (And a b)
  | parses_or l1 l2 a b :
      parses 1 l1 a → parses 2 l2 b → parses 1 (l1 ++ TOr :: l2) (Or a b)
  | parses_up p l e : parses (S p) l e → parses p l e.

(** Postfix form of a tree. *)
Fixpoint post (e : expr) : list token :=
  match e with
  | Pat v => [TPat v]
  | And a b => post a ++ post b ++ [TAnd]
  | Or a b => post a ++ post b ++ [TOr]
  end.

(** No operator of precedence [p] or more is on top of the stack. *)
Definition clear (p : nat) (st : list token) : Prop :=
  match st with
  | top :: _ => isOp top = true → prec top < p
  | [] => True
  end.

Definition pending (p : nat) (pend : list token) : Prop :=
  Forall (λ t, isOp t = true ∧ p ≤ prec t) pend.

Lemma pop_ops_pending t pend out st :
  pending (prec t) pend → clear (prec t) st →
  pop_ops t out (pend ++ st) = (out ++ pend, st).
Proof.
  intros Hpend Hclear. revert out.
  induction Hpend as [|x pend [Hop Hp] _ IH]; intros out; simpl.
  - rewrite app_nil_r. destruct st as [|top st]; [done|]. simpl in *.
    destruct (isOp top) eqn:Htop; [|done]. simpl.
    specialize (Hclear eq_refl).
    by destruct (Nat.leb_spec (prec t) (prec top)); [lia|].
  - rewrite Hop. simpl.
    destruct (Nat.leb_spec (prec t) (prec x)); [|lia].
    by rewrite IH, <-app_assoc.
Qed.

Lemma pop_to_open_pending p pend out st :
  pending p pend →
  pop_to_open out (pend ++ TOpen :: st) = (out ++ pend, st).
Proof.
  intros Hpend. revert out.
  induction Hpend as [|x pend [Hop _] _ IH]; intros out; simpl.
  - by rewrite app_nil_r.
  - destruct (decide (x = TOpen)) as [->|_]; [done|].
    by rewrite IH, <-app_assoc.
Qed.

Lemma drain_pending p pend out :
  pending p pend → drain out pend = out ++ pend.
Proof.
  intros Hpend. revert out.
  induction Hpend as [|x pend [Hop _] _ IH]; intros out; simpl.
  - by rewrite app_nil_r.
  - destruct (decide (x ≠ TOpen ∧ x ≠ TClose)) as [_|Hn].
    + by rewrite IH, <-app_assoc.
    + destruct Hn. by destruct x.
Qed.

Lemma clear_mono p q st : p ≤ q → clear p st → clear q st.
Proof. intros Hle. destruct st as [|top st]; simpl; [done|]. intros H Hop. specialize (H Hop). lia. Qed.

Lemma pending_mono p q pend : p ≤ q → pending q pend → pending p pend.
Proof.
  intros Hle Hpend. eapply Forall_impl; [exact Hpend|].
  intros t [Hop Hp]. split; [done|lia].
Qed.

Lemma pending_high p pend : 2 < p → pending p pend → pend = [].
Proof.
  intros Hp Hpend. destruct Hpend as [|t pend' [Hop Ht] _]; [done|].
  destruct t; simpl in *; lia.
Qed.

(** What the main loop of [toRPN] does on a well-formed piece: its postfix
    form is written out, except for the operators that still wait on the
    stack. *)
Lemma rpn_parses p l e :
  parses p l e →
  ∀ out st, clear p st →
  ∃ body pend,
    foldl rpn_step (out, st) l = (out ++ body, pend ++ st) ∧
    body ++ pend = post e ∧ pending p pend.
Proof.
  induction 1 as [v|l e _ IH|l1 l2 a b _ IH1 _ IH2|l1 l2 a b _ IH1 _ IH2
                  |p l e _ IH]; intros out st Hclear.
  - exists [TPat v], []. by split_and!; [| |constructor].
  - destruct (IH out (TOpen :: st)) as (body & pend & Hrun & Hpost & Hpend);
      [by simpl|].
    exists (body ++ pend), []. split_and!; [| |constructor].
    + cbn [foldl rpn_step]. rewrite foldl_app, Hrun. cbn [foldl rpn_step].
      by rewrite (pop_to_open_pending 1), app_assoc.
    + by rewrite app_nil_r.
  - destruct (IH1 out st Hclear) as (body1 & pend1 & Hrun1 & Hpost1 & Hpend1).
    destruct (IH2 ((out ++ body1) ++ pend1) (TAnd :: st))
      as (body2 & pend2 & Hrun2 & Hpost2 & Hpend2); [simpl; lia|].
    apply pending_high in Hpend2 as ->; [|lia].
    rewrite app_nil_r in Hpost2. subst body2.
    exists (post a ++ post b), [TAnd]. split_and!.
    + rewrite foldl_app, Hrun1. cbn [foldl rpn_step].
      rewrite (pop_ops_pending TAnd) by done.
      rewrite Hrun2. rewrite <-Hpost1. by rewrite <-!app_assoc.
    + simpl. by rewrite <-app_assoc.
    + by repeat constructor.
  - destruct (IH1 out st Hclear) as (body1 & pend1 & Hrun1 & Hpost1 & Hpend1).
    destruct (IH2 ((out ++ body1) ++ pend1) (TOr :: st))
      as (body2 & pend2 & Hrun2 & Hpost2 & Hpend2); [simpl; lia|].
    exists (post a ++ body2), (pend2 ++ [TOr]). split_and!.
    + rewrite foldl_app, Hrun1. cbn [foldl rpn_step].
      rewrite (pop_ops_pending TOr) by done.
      rewrite Hrun2. rewrite <-Hpost1. by rewrite <-!app_assoc.
    + simpl. by rewrite <-Hpost2, <-!app_assoc.
    + apply Forall_app. split; [by eapply pending_mono; [|exact Hpend2]; lia|].
      by repeat constructor.
  - destruct (IH out st) as (body & pend & Hrun & Hpost & Hpend).
    { eapply clear_mono; [|exact Hclear]. lia. }
    exists body, pend. split_and!; [done..|].
    eapply pending_mono; [|exact Hpend]. lia.
Qed.

Lemma toRPN_parses l e : parses 1 l e → toRPN l = post e.
Proof.
  intros Hp. unfold toRPN.
  destruct (rpn_parses _ _ _ Hp [] []) as (body & pend & -> & Hpost & Hpend);
    [done|].
  rewrite app_nil_r. simpl. by rewrite (drain_pending 1), Hpost.
Qed.

Section tester_facts.
Variable regex_test : string → string → bool.

(** The predicate that a tree denotes. *)
Fixpoint eval (e : expr) : tester :=
  match e with
  | Pat v => λ w, regex_test (buildRegexFromMiniPattern v) w
  | And a b => λ w, eval a w && eval b w
  | Or a b => λ w, eval a w || eval b w
  end.

Lemma tester_post e st rest :
  foldl (tester_step regex_test) (Some st) (post e ++ rest)
  = foldl (tester_step regex_test) (Some (eval e :: st)) rest.
Proof.
  revert st rest. induction e as [v|a IHa b IHb|a IHa b IHb]; intros st rest.
  - done.
  - simpl. by rewrite <-!app_assoc, IHa, IHb.
  - simpl. by rewrite <-!app_assoc, IHa, IHb.
Qed.

Lemma buildTesterFromRPN_post e :
  buildTesterFromRPN regex_test (post e) = Some (eval e).
Proof.
  unfold buildTesterFromRPN.
  by rewrite <-(app_nil_r (post e)), tester_post.
Qed.
End tester_facts.

Lemma parses_has_pat p l e : parses p l e → existsb is_pat l = true.
Proof.
  induction 1 as [v|l e _ IH|l1 l2 a b _ IH1 _ IH2|l1 l2 a b _ IH1 _ IH2
                  |p l e _ IH]; simpl; [done| | | |done].
  - by rewrite existsb_app, IH.
  - by rewrite existsb_app, IH1.
  - by rewrite existsb_app, IH1.
Qed.

End SearchFacts.

Module TokenizeFacts.
Import Loader Search.

(** The text of a token, and a token list written out with one space
    between tokens. *)
Definition token_text (t : token) : string :=
  match t with
  | TOpen => "("
  | TClose => ")"
  | TAnd => "&"
  | TOr => "|"
  | TPat v => v
  end.

Definition unparse (toks : list token) : string :=
  String.concat " " (token_text <$> toks).

(** A pattern without upper-case letters, spaces, operators, parentheses
    and opening brackets; it is not empty. *)
Definition plain_char (c : ascii) : bool :=
  Ascii.eqb (lower_char c) c
  && negb (Ascii.eqb c " ") && negb (Ascii.eqb c "(") && negb (Ascii.eqb c ")")
  && negb (is_op_char c) && negb (Ascii.eqb c "[").

Definition plain (v : string) : bool :=
  negb (String.eqb v "") && forallb plain_char (list_ascii_of_string v).

Definition plain_token (t : token) : bool :=
  match t with
  | TPat v => plain v
  | _ => true
  end.

Lemma plain_char_spec c :
  plain_char c = true →
  lower_char c = c ∧ Ascii.eqb c " " = false ∧
  (Ascii.eqb c "(" || Ascii.eqb c ")" || is_op_char c) = false ∧
  Ascii.eqb c "[" = false.
Proof.
  unfold plain_char. rewrite !andb_true_iff, !negb_true_iff, Ascii.eqb_eq.
  intros (((((-> & ->) & ->) & ->) & ->) & ->). done.
Qed.

Lemma chars_app (s1 s2 : string) :
  list_ascii_of_string (s1 +:+ s2)
  = list_ascii_of_string s1 ++ list_ascii_of_string s2.
Proof. induction s1 as [|c s1 IH]; simpl; [done|]. by rewrite IH. Qed.

(** A token list as characters. *)
Fixpoint spell (toks : list token) : list ascii :=
  match toks with
  | [] => []
  | [t] => list_ascii_of_string (token_text t)
  | t :: toks' => list_ascii_of_string (token_text t) ++ " "%char :: spell toks'
  end.

Lemma chars_unparse toks : list_ascii_of_string (unparse toks) = spell toks.
Proof.
  unfold unparse. induction toks as [|t [|t' toks] IH]; [done..|].
  change (list_ascii_of_string
            (token_text t +:+ " " +:+ String.concat " " (token_text <$> t' :: toks))
          = list_ascii_of_string (token_text t) ++ " "%char :: spell (t' :: toks)).
  by rewrite !chars_app, IH.
Qed.

Lemma spell_lower toks :
  forallb plain_token toks = true → lower_char <$> spell toks = spell toks.
Proof.
  assert (∀ t, plain_token t = true →
            lower_char <$> list_ascii_of_string (token_text t)
            = list_ascii_of_string (token_text t)) as Hone.
  { intros [| | | |v]; [done..|]. simpl. unfold plain.
    rewrite andb_true_iff, forallb_forall. intros [_ Hall].
    rewrite <-(list_fmap_id (list_ascii_of_string v)) at 2.
    apply list_fmap_ext. intros _ ch Hch%list_elem_of_lookup_2.
    apply plain_char_spec, Hall. by apply list_elem_of_In. }
  induction toks as [|t [|t' toks] IH]; [done| |].
  - simpl. rewrite andb_true_r. apply Hone.
  - intros Hall. change (forallb plain_token (t :: t' :: toks))
      with (plain_token t && forallb plain_token (t' :: toks)) in Hall.
    apply andb_true_iff in Hall as [Ht Hall].
    change (spell (t :: t' :: toks))
      with (list_ascii_of_string (token_text t) ++ " "%char :: spell (t' :: toks)).
    rewrite fmap_app, fmap_cons, Hone, IH by done. done.
Qed.

(** Reading the characters of a plain pattern. *)
Lemma tokenize_go_plain v m rest :
  forallb plain_char v = true →
  v ≠ [] →
  match m with InBracket _ => False | _ => True end →
  tokenize_go m (v ++ rest) = tokenize_go (InPattern (rev v ++ buf_of m)) rest.
Proof.
  revert m. induction v as [|c v IH]; intros m Hall Hne Hm; [done|].
  simpl in Hall. apply andb_true_iff in Hall as [Hc Hall].
  apply plain_char_spec in Hc as (_ & Hsp & Hop & Hbr).
  assert (tokenize_go m ((c :: v) ++ rest)
          = tokenize_go (InPattern (c :: buf_of m)) (v ++ rest)) as ->.
  { destruct m; [| |done]; simpl; by rewrite Hsp, Hop, Hbr. }
  destruct v as [|c' v].
  - done.
  - rewrite IH by done. simpl. by rewrite <-!app_assoc.
Qed.

Lemma tokenize_go_token t rest :
  plain_token t = true →
  tokenize_go Between (list_ascii_of_string (token_text t) ++ " "%char :: rest)
  = t :: tokenize_go Between rest.
Proof.
  destruct t as [| | | |v]; [done..|]. simpl. unfold plain.
  rewrite andb_true_iff, negb_true_iff, String.eqb_neq. intros [Hne Hall].
  rewrite tokenize_go_plain; [|done| |done].
  - simpl. by rewrite app_nil_r, rev_involutive, string_of_list_ascii_of_string.
  - intros Hnil. apply Hne. by destruct v.
Qed.

Lemma tokenize_go_last t :
  plain_token t = true →
  tokenize_go Between (list_ascii_of_string (token_text t)) = [t].
Proof.
  destruct t as [| | | |v]; [done..|]. simpl. unfold plain.
  rewrite andb_true_iff, negb_true_iff, String.eqb_neq. intros [Hne Hall].
  rewrite <-(app_nil_r (list_ascii_of_string v)).
  rewrite tokenize_go_plain; [|done| |done].
  - simpl. by rewrite app_nil_r, rev_involutive, string_of_list_ascii_of_string.
  - intros Hnil. apply Hne. by destruct v.
Qed.

Lemma tokenize_go_spell toks :
  forallb plain_token toks = true → tokenize_go Between (spell toks) = toks.
Proof.
  induction toks as [|t [|t' toks] IH]; [done| |].
  - simpl. rewrite andb_true_r. apply tokenize_go_last.
  - intros Hall. change (forallb plain_token (t :: t' :: toks))
      with (plain_token t && forallb plain_token (t' :: toks)) in Hall.
    apply andb_true_iff in Hall as [Ht Hall].
    change (spell (t :: t' :: toks))
      with (list_ascii_of_string (token_text t) ++ " "%char :: spell (t' :: toks)).
    by rewrite tokenize_go_token, IH.
Qed.

Lemma tokenize_unparse toks :
  forallb plain_token toks = true → tokenize (unparse toks) = toks.
Proof.
  intros Hall. unfold tokenize, toLowerCase.
  rewrite list_ascii_of_string_of_list_ascii, chars_unparse, spell_lower by done.
  by apply tokenize_go_spell.
Qed.

End TokenizeFacts.

Module RpnShape.
Import Search.


















(** A tester is only built when the patterns are one more than the
    operators. *)
Section count.
Variable regex_test : string → string → bool.


End count.

End RpnShape.

Section search_properties.
Import Search SearchFacts TokenizeFacts RpnShape.




(** X22 (main.js, tokenize and buildSearchTester): a token list whose
    patterns are non-empty and free of upper-case letters, spaces,
    operators, parentheses and opening brackets is read back by tokenize
    from its text with one space between tokens; if it is well formed,
    buildSearchTester returns on that text the predicate that the
    expression denotes. *)
Theorem X22_search_text (regex_test : string → string → bool)
    (toks : list token) :
  forallb plain_token toks = true →
  tokenize (unparse toks) = toks ∧
  ∀ e, parses 1 toks e →
       buildSearchTester regex_test (unparse toks) = Some (eval regex_test e).
Proof.
  intros Hplain. pose proof (tokenize_unparse toks Hplain) as Htok.
  split; [done|]. intros e Hp. unfold buildSearchTester.
  rewrite Htok, (parses_has_pat _ _ _ Hp). simpl.
  rewrite (toRPN_parses _ _ Hp). apply buildTesterFromRPN_post.
Qed.

Lemma X22_search_text_witness :
  forallb plain_token [TPat "s*e"; TAnd; TOpen; TPat "?r"; TOr; TPat "a]"; TClose]
  = true ∧
  tokenize "s*e & ( ?r | a] )"
  = [TPat "s*e"; TAnd; TOpen; TPat "?r"; TOr; TPat "a]"; TClose] ∧
  ∀ e, parses 1 [TPat "s*e"; TAnd; TOpen; TPat "?r"; TOr; TPat "a]"; TClose] e →
       buildSearchTester String.eqb "s*e & ( ?r | a] )"
       = Some (eval String.eqb e).
Proof.
  split; [reflexivity|].
  exact (X22_search_text String.eqb
           [TPat "s*e"; TAnd; TOpen; TPat "?r"; TOr; TPat "a]"; TClose]
           eq_refl).
Defined.


Example buildSearchTester_two_patterns :
  buildSearchTester String.eqb "ab cd" = None.
Proof. reflexivity. Qed.

Example buildSearchTester_dangling :
  buildSearchTester String.eqb "ab &" = None.
Proof. reflexivity. Qed.

End search_properties.

(** ** The table generator: [bestExpected] and [evalStartingGuess]

    The generator works on the words themselves.  [Math.pow(k, 0.55)] is
    the parameter [pow055]; the depth is an integer. *)

Module TableGenerator.
Import Num Run Partition.
Local Open Scope num_scope.

(** The map [memo]. *)
Definition memo_t : Type := list (string * num).

(** The order of [Array.prototype.sort] without a comparator: strings by
    their code units. *)
Definition str_le (a b : string) : Prop := String.leb a b = true.

#[global] Instance str_le_dec a b : Decision (str_le a b).
Proof. unfold str_le. apply _. Defined.

(** [words.slice().sort()] *)
Definition sort_words (words : list string) : list string :=
  merge_sort str_le words.

(** [sorted.join(',') + '|' + depth] *)
Definition memo_key (sorted : list string) (depth : Z) : string :=
  String.concat "," sorted +:+ "|" +:+ pretty depth.

Definition partitionByPattern (words : list string) (guess : string)
    : buckets string :=
  partition_with (λ w, Feedback.TableGen.patternFor guess w) words.

Section generator.
Variable pow055 : nat → Qc.

Definition leafExtraGuesses (k : nat) : num :=
  if decide (k ≤ 1)%nat then 0
  else 1 + Fin (Q2Qc (1 # 5)) * Fin (pow055 k).

Fixpoint bestExpected (fuel : nat) (words : list string) (depth : Z)
    : M memo_t num :=
  let k := length words in
  if decide (k = 1%nat) then ret 1
  else if decide (depth ≤ 0)%Z then ret (leafExtraGuesses k)
  else
    let sorted := sort_words words in
    let key := memo_key sorted depth in
    let* hit := (λ memo, Some (JsMap.get key memo, memo)) in
    match hit with
    | Some v => ret v
    | None =>
        match fuel with
        | O => out_of_fuel
        | S fuel =>
            let N := k in
            let* best := for_of sorted Inf (λ best g,
              let parts := partitionByPattern sorted g in
              let* est := for_of parts 0 (λ est entry,
                let '(pat, bucket) := entry in
                let p := length bucket // N in
                if decide (pat = "22222") then ret (Continue (est + p * 1))
                else
                  let* sub := bestExpected fuel bucket (depth - 1) in
                  ret (Continue (est + p * (1 + sub)))) in
              if est <? best then ret (Continue est)
              else ret (Continue best)) in
            let* _ := update (JsMap.set key best) in
            ret best
        end
    end.

Definition evalStartingGuess (fuel : nat) (words : list string)
    (guess : string) (depth : Z) : M memo_t num :=
  let N := length words in
  let parts := partitionByPattern words guess in
  for_of parts 0 (λ est entry,
    let '(pat, bucket) := entry in
    let p := length bucket // N in
    if decide (pat = "22222") then ret (Continue (est + p * 1))
    else
      let* sub := bestExpected fuel bucket (depth - 1) in
      ret (Continue (est + p * (1 + sub)))).

(** *** The same recurrence without the memo

    [n] is the number of levels that are left: [Z.to_nat depth]. *)

Definition charge (sub : list string → num) (N : nat)
    (entry : string * list string) : num :=
  let p := length entry.2 // N in
  if decide (entry.1 = "22222") then p * 1 else p * (1 + sub entry.2).

Definition estimate (sub : list string → num) (words : list string)
    (g : string) : num :=
  foldl (λ est entry, est + charge sub (length words) entry) 0
    (partitionByPattern words g).

Definition keep_min (best est : num) : num := if est <? best then est else best.

Fixpoint best_value (n : nat) (words : list string) : num :=
  if decide (length words = 1%nat) then 1
  else
    match n with
    | O => leafExtraGuesses (length words)
    | S n =>
        let sorted := sort_words words in
        foldl (λ best g, keep_min best (estimate (best_value n) sorted g))
          Inf sorted
    end.

Definition start_value (n : nat) (words : list string) (guess : string) : num :=
  estimate (best_value (pred n)) words guess.
End generator.

Example evalStartingGuess_ex :
  let r := evalStartingGuess (λ _, 0%Qc) 3 ["crane"; "slate"; "plate"] "crane" 8 [] in
  fst <$> r = Some (Fin (Q2Qc 2)) ∧
  (λ x, x.2.*1) <$> r = Some ["plate,slate|7"].
Proof.
  split; vm_compute; [|reflexivity]. f_equal. by apply Bounds.Fin_eq.
Qed.

End TableGenerator.

Module TableGeneratorFacts.
Import Num NumFacts Run RunFacts Partition Loader.
Import TableGenerator.
Local Open Scope num_scope.

(** *** The key tells the sorted words and the depth *)

Definition clean (w : string) : Prop := is_word w = true.

Lemma str_app_cons x (a b : string) : String x a +:+ b = String x (a +:+ b).
Proof. reflexivity. Qed.

Lemma str_app_assoc (a b c : string) : (a +:+ b) +:+ c = a +:+ (b +:+ c).
Proof. induction a as [|x a IH]; [done|]. by rewrite !str_app_cons, IH. Qed.

Lemma str_app_inj (a a' b b' : string) :
  String.length a = String.length a' →
  a +:+ b = a' +:+ b' → a = a' ∧ b = b'.
Proof.
  revert a'. induction a as [|x a IH]; intros [|x' a'];
    rewrite ?str_app_cons; cbn [String.length]; try done.
  intros [= Hlen] [= -> Heq]. by destruct (IH a' Hlen Heq) as [-> ->].
Qed.

(** What follows the first word of a key. *)
Definition key_tail (ws : list string) (rest : string) : string :=
  match ws with
  | [] => rest
  | _ :: _ => "," +:+ String.concat "," ws +:+ rest
  end.

Lemma concat_key_tail w ws rest :
  String.concat "," (w :: ws) +:+ rest = w +:+ key_tail ws rest.
Proof.
  destruct ws as [|y l]; [done|].
  change (String.concat "," (w :: y :: l))
    with (w +:+ "," +:+ String.concat "," (y :: l)).
  by rewrite !str_app_assoc.
Qed.

Lemma clean_first w :
  clean w → ∃ c w', w = String c w' ∧ String.length w = 5%nat ∧ is_lower c = true.
Proof.
  unfold clean, is_word. rewrite andb_true_iff, Nat.eqb_eq. intros [Hlen Hall].
  destruct w as [|c w']; [done|]. exists c, w'. split_and!; [done..|].
  simpl in Hall. by apply andb_true_iff in Hall as [? _].
Qed.

Lemma key_words_inj ws ws' rest rest' :
  Forall clean ws → Forall clean ws' →
  String.concat "," ws +:+ "|" +:+ rest = String.concat "," ws' +:+ "|" +:+ rest' →
  ws = ws' ∧ rest = rest'.
Proof.
  assert (∀ r, String.concat "," [] +:+ "|" +:+ r = String "|" r) as Hnil by done.
  assert (∀ r, "|" +:+ r = String "|" r) as Hbar by done.
  assert (∀ r, "," +:+ r = String "," r) as Hcomma by done.
  intros Hws. revert ws'.
  induction Hws as [|w ws Hw Hws IH]; intros ws' Hws' Heq.
  - rewrite Hnil in Heq.
    destruct Hws' as [|w' ws' Hw' _]; [rewrite Hnil in Heq; by injection Heq as ->|].
    rewrite concat_key_tail in Heq.
    destruct (clean_first w' Hw') as (c & w'' & -> & _ & Hc).
    rewrite !str_app_cons in Heq. injection Heq as <- _. done.
  - destruct Hws' as [|w' ws' Hw' Hws'].
    { rewrite concat_key_tail, Hnil in Heq.
      destruct (clean_first w Hw) as (c & w'' & -> & _ & Hc).
      rewrite !str_app_cons in Heq. injection Heq as -> _. done. }
    rewrite !concat_key_tail in Heq.
    destruct (clean_first w Hw) as (_ & _ & _ & Hlen & _).
    destruct (clean_first w' Hw') as (_ & _ & _ & Hlen' & _).
    apply str_app_inj in Heq as [-> Heq]; [|congruence].
    destruct Hws as [|y l Hy Hl], Hws' as [|y' l' Hy' Hl'];
      cbn [key_tail] in Heq; rewrite ?Hbar, ?Hcomma in Heq.
    + by injection Heq as ->.
    + done.
    + done.
    + injection Heq as Heq.
      destruct (IH (y' :: l')) as [Hl0 ->]; [by constructor|done|].
      by rewrite Hl0.
Qed.

Lemma memo_key_inj sorted depth sorted' depth' :
  Forall clean sorted → Forall clean sorted' →
  memo_key sorted depth = memo_key sorted' depth' →
  sorted = sorted' ∧ depth = depth'.
Proof.
  intros Hs Hs' Heq. unfold memo_key in Heq.
  apply key_words_inj in Heq as [-> Heq]; [|done..].
  split; [done|]. by apply (inj pretty).
Qed.

(** *** Loops that never leave early *)

Lemma returns_for_of_fold {Σ X A} (I : Σ → Prop) (f : A → X → A)
    (body : A → X → M Σ (ctl A)) (xs : list X) (acc : A) :
  (∀ a x, x ∈ xs → returns I (body a x) (λ r, r = Continue (f a x))) →
  returns I (for_of xs acc body) (λ r, r = foldl f acc xs).
Proof.
  revert acc. induction xs as [|x xs IH]; intros acc Hbody; simpl.
  - by apply returns_ret.
  - eapply returns_bind; [apply Hbody; left|].
    intros r ->. apply IH. intros a y Hy. apply Hbody. by right.
Qed.

Lemma sort_words_perm words : sort_words words ≡ₚ words.
Proof. apply merge_sort_Permutation. Qed.

Lemma sort_words_length words : length (sort_words words) = length words.
Proof. by rewrite sort_words_perm. Qed.

Lemma sort_words_clean words : Forall clean words → Forall clean (sort_words words).
Proof. by rewrite sort_words_perm. Qed.

Lemma bucket_clean words g pat bucket :
  Forall clean words → (pat, bucket) ∈ partitionByPattern words g →
  Forall clean bucket.
Proof.
  intros Hw [-> _]%partition_with_elem. apply Forall_forall.
  intros w [_ Hin]%list_elem_of_filter.
  by eapply (proj1 (Forall_forall _ _)) in Hw.
Qed.

Section correct.
Variable pow055 : nat → Qc.

(** What the guess loop computes on a sorted list with [n] levels left
    below it. *)
Definition core (n : nat) (sorted : list string) : num :=
  foldl (λ best g, keep_min best (estimate (best_value pow055 n) sorted g))
    Inf sorted.

Lemma best_value_S n words :
  length words ≠ 1%nat →
  best_value pow055 (S n) words = core n (sort_words words).
Proof. intros Hk. cbn [best_value]. by rewrite decide_False. Qed.

(** The memo holds values of the recurrence. *)
Definition sound (memo : memo_t) : Prop :=
  ∀ key v, (key, v) ∈ memo →
  ∀ sorted depth, Forall clean sorted → key = memo_key sorted depth →
                  v = core (Z.to_nat depth - 1) sorted.

Lemma table_sound_nil : sound [].
Proof. by intros key v ?%elem_of_nil. Qed.

(** One round of the bucket loop, given what the recursive calls return. *)
Lemma bucket_round fuel N depth est entry :
  (entry.1 ≠ "22222" →
   returns sound (bestExpected pow055 fuel entry.2 (depth - 1))
     (λ v, v = best_value pow055 (Z.to_nat (depth - 1)) entry.2)) →
  returns sound
    (let '(pat, bucket) := entry in
     let p := length bucket // N in
     if decide (pat = "22222") then ret (Continue (est + p * 1))
     else
       let* sub := bestExpected pow055 fuel bucket (depth - 1) in
       ret (Continue (est + p * (1 + sub))))
    (λ r, r = Continue
                (est + charge (best_value pow055 (Z.to_nat (depth - 1))) N entry)).
Proof.
  destruct entry as [pat bucket]. simpl. intros Hsub. unfold charge. simpl.
  destruct (decide (pat = "22222")) as [Hpat|Hpat].
  - by apply returns_ret.
  - eapply returns_bind; [by apply Hsub|].
    intros sub ->. by apply returns_ret.
Qed.

Theorem bestExpected_returns : ∀ fuel words depth,
  Forall clean words → Z.to_nat depth ≤ fuel →
  returns sound (bestExpected pow055 fuel words depth)
    (λ v, v = best_value pow055 (Z.to_nat depth) words).
Proof.
  intros fuel. induction fuel as [|fuel IH]; intros words depth Hclean Hfuel;
    cbn [bestExpected].
  - destruct (decide (length words = 1%nat)) as [Hone|Hmore].
    { apply returns_ret. destruct (Z.to_nat depth); cbn [best_value];
        by rewrite decide_True. }
    destruct (decide (depth ≤ 0)%Z) as [Hd|Hd]; [|lia].
    apply returns_ret. assert (Z.to_nat depth = 0%nat) as -> by lia.
    cbn [best_value]. by rewrite decide_False.
  - destruct (decide (length words = 1%nat)) as [Hone|Hmore].
    { apply returns_ret. destruct (Z.to_nat depth); cbn [best_value];
        by rewrite decide_True. }
    destruct (decide (depth ≤ 0)%Z) as [Hd|Hd].
    { apply returns_ret. assert (Z.to_nat depth = 0%nat) as -> by lia.
      cbn [best_value]. by rewrite decide_False. }
    assert (Z.to_nat depth = S (Z.to_nat (depth - 1))) as Hn by lia.
    rewrite Hn, best_value_S by done.
    set (sorted := sort_words words).
    assert (Forall clean sorted) as Hsorted by by apply sort_words_clean.
    eapply (returns_bind _ _ _
      (λ hit, ∀ v, hit = Some v → v = core (Z.to_nat (depth - 1)) sorted)).
    { intros memo Hmemo. eexists _, memo. split_and!; [done..|].
      intros v Hget%JsMapFacts.get_elem.
      rewrite (Hmemo _ _ Hget sorted depth Hsorted eq_refl). f_equal. lia. }
    intros [v|] Hhit; [by apply returns_ret, Hhit|].
    eapply (returns_bind _ _ _ (λ best, best = core (Z.to_nat (depth - 1)) sorted)).
    + apply returns_for_of_fold. intros best g Hg.
      eapply (returns_bind _ _ _
        (λ est, est = estimate (best_value pow055 (Z.to_nat (depth - 1))) sorted g)).
      * unfold estimate.
        assert (length sorted = length words) as -> by apply sort_words_length.
        apply returns_for_of_fold. intros est entry Hentry.
        apply bucket_round. intros _. apply IH; [|lia].
        destruct entry as [pat bucket]. by eapply bucket_clean.
      * intros est ->. unfold keep_min.
        by destruct (_ <? _); apply returns_ret.
    + intros best ->.
      eapply (returns_bind _ _ _ (λ _, True)); [|intros; by apply returns_ret].
      apply returns_update. intros memo Hmemo key v.
      intros [[= -> ->]|Hin]%JsMapFacts.set_elem; [|by apply Hmemo].
      intros sorted' depth' Hclean' Hkey.
      apply memo_key_inj in Hkey as [<- <-]; [|done..]. f_equal. lia.
Qed.

Theorem evalStartingGuess_returns fuel words guess depth :
  Forall clean words → Z.to_nat depth ≤ S fuel →
  returns sound (evalStartingGuess pow055 fuel words guess depth)
    (λ v, v = start_value pow055 (Z.to_nat depth) words guess).
Proof.
  intros Hclean Hfuel. unfold evalStartingGuess, start_value, estimate.
  assert (pred (Z.to_nat depth) = Z.to_nat (depth - 1)) as -> by lia.
  apply returns_for_of_fold. intros est entry Hentry.
  apply bucket_round. intros _. apply bestExpected_returns; [|lia].
  destruct entry as [pat bucket]. by eapply bucket_clean.
Qed.
End correct.

End TableGeneratorFacts.

(** The loop of [main] over the starting words, with [MAX_START_WORDS]
    infinite: every word of the list is evaluated, on one shared memo. *)
Module TableMain.
Import Num Run TableGenerator.

Definition startTable (pow055 : nat → Qc) (fuel : nat) (words : list string)
    (MAX_DEPTH : Z) : M memo_t (list (string * num)) :=
  let startWords := take (length words) words in
  for_of startWords [] (λ results w,
    let* e := evalStartingGuess pow055 fuel words w MAX_DEPTH in
    ret (Continue (results ++ [(w, e)]))).

End TableMain.

Module TableExact.
Import Num NumFacts Run RunFacts Partition Loader.
Import TableGenerator TableGeneratorFacts TableMain.

Lemma foldl_snoc {X Y} (f : X → Y) (l : list X) (acc : list Y) :
  foldl (λ acc x, acc ++ [f x]) acc l = acc ++ (f <$> l).
Proof.
  revert acc. induction l as [|x l IH]; intros acc; simpl.
  - by rewrite app_nil_r.
  - by rewrite IH, <-app_assoc.
Qed.

Lemma startTable_returns pow055 fuel words depth :
  Forall clean words → Z.to_nat depth ≤ S fuel →
  returns (sound pow055) (startTable pow055 fuel words depth)
    (λ rows, rows = (λ w, (w, start_value pow055 (Z.to_nat depth) words w)) <$> words).
Proof.
  intros Hclean Hfuel. unfold startTable. rewrite firstn_all.
  eapply returns_weaken.
  - apply (returns_for_of_fold _
      (λ results w, results ++ [(w, start_value pow055 (Z.to_nat depth) words w)])).
    intros results w _. eapply returns_bind; [by apply evalStartingGuess_returns|].
    intros e ->. by apply returns_ret.
  - intros rows ->.
    by rewrite (foldl_snoc (λ w, (w, start_value pow055 (Z.to_nat depth) words w))).
Qed.

(** *** Enough depth: the leaf estimate is never asked *)

Definition proper (words : list string) : Prop :=
  NoDup words ∧ Forall clean words.

Lemma clean_length w : clean w → String.length w = 5%nat.
Proof.
  unfold clean, is_word. rewrite andb_true_iff, Nat.eqb_eq. by intros [? _].
Qed.

Lemma patternFor_self g : clean g → Feedback.TableGen.patternFor g g = "22222".
Proof.
  intros Hg%clean_length. rewrite Feedback.tablegen_patternFor_spec.
  by apply Feedback.spec_pattern_all_correct.
Qed.

Lemma bucket_proper words g pat bucket :
  proper words → (pat, bucket) ∈ partitionByPattern words g →
  proper bucket ∧ bucket ≠ [] ∧ length bucket ≤ length words ∧
  (g ∈ words → pat ≠ "22222" → length bucket < length words).
Proof.
  intros [Hnd Hclean] Hin. pose proof (bucket_clean _ _ _ _ Hclean Hin) as Hb.
  apply partition_with_elem in Hin as [-> Hne].
  split_and!; [split; [by apply NoDup_filter|done]|done|apply length_filter|].
  intros Hg Hpat. apply (length_filter_lt _ _ g); [done|].
  rewrite patternFor_self; [done|].
  by eapply (proj1 (Forall_forall _ _)) in Hclean.
Qed.

Lemma sort_words_proper words : proper words → proper (sort_words words).
Proof. intros [Hnd Hclean]. split; by rewrite sort_words_perm. Qed.

Section exact.
Variables pow1 pow2 : nat → Qc.

Lemma best_value_exact : ∀ m words n1 n2,
  length words ≤ m → proper words → words ≠ [] →
  length words - 1 ≤ n1 → length words - 1 ≤ n2 →
  best_value pow1 n1 words = best_value pow2 n2 words.
Proof.
  intros m. induction m as [|m IH]; intros words n1 n2 Hm Hproper Hne Hn1 Hn2.
  { destruct words; [done|simpl in Hm; lia]. }
  destruct (decide (length words = 1%nat)) as [Hone|Hmore].
  { destruct n1, n2; cbn [best_value]; by rewrite !decide_True. }
  assert (2 ≤ length words) as Hlen.
  { destruct words as [|? [|??]]; simpl in *; try done; lia. }
  destruct n1 as [|n1]; [lia|]. destruct n2 as [|n2]; [lia|].
  cbn [best_value]. rewrite !decide_False by done.
  pose proof (sort_words_proper _ Hproper) as Hsorted.
  pose proof (sort_words_length words) as Hslen.
  apply Recurrence.foldl_ext_in. intros best g Hg. f_equal.
  unfold estimate. apply Recurrence.foldl_ext_in. intros est [pat bucket] Hin.
  f_equal. unfold charge. cbn [fst snd].
  destruct (decide (pat = "22222")) as [Hpat|Hpat]; [done|].
  destruct (bucket_proper _ _ _ _ Hsorted Hin) as (Hb & Hbne & _ & Hlt).
  specialize (Hlt Hg Hpat).
  rewrite (IH bucket n1 n2); [done|lia|done|done|lia|lia].
Qed.

Lemma start_value_exact words g n1 n2 :
  proper words → length words ≤ n1 → length words ≤ n2 →
  start_value pow1 n1 words g = start_value pow2 n2 words g.
Proof.
  intros Hproper Hn1 Hn2. unfold start_value, estimate.
  apply Recurrence.foldl_ext_in. intros est [pat bucket] Hin.
  f_equal. unfold charge. cbn [fst snd].
  destruct (decide (pat = "22222")) as [Hpat|Hpat]; [done|].
  destruct (bucket_proper _ _ _ _ Hproper Hin) as (Hb & Hbne & Hle & _).
  rewrite (best_value_exact (length bucket) bucket (pred n1) (pred n2));
    [done|done|done|done|lia|lia].
Qed.
End exact.

End TableExact.

Section table_properties.
Import Num Run RunFacts Loader.
Import TableGenerator TableGeneratorFacts TableMain TableExact.

Definition table_words : list string := ["crane"; "slate"; "plate"].

Lemma table_words_proper : proper table_words.
Proof.
  split; [|by repeat constructor].
  unfold table_words.
  repeat (apply NoDup_cons; split;
    [rewrite ?elem_of_cons, elem_of_nil; intros H;
     repeat (destruct H as [H|H]; [discriminate H|]); done|]).
  apply NoDup_nil_2.
Qed.

(** X24 (table generator, bestExpected, evalStartingGuess and the loop of
    main): on a list of valid words, for every integer depth and every leaf
    estimate, the calls return within [depth] nested calls, and the memo
    shared by all starting words changes no result: bestExpected returns the
    value of the recurrence computed without a memo, and the table holds for
    every word of the list, in order, the value of that recurrence with the
    word as forced first guess. *)
Theorem X24_table_memo_is_transparent (pow055 : nat → Qc)
    (words : list string) (depth : Z) (fuel : nat) :
  Forall (λ w, is_word w = true) words →
  Z.to_nat depth ≤ fuel →
  (∃ memo', bestExpected pow055 fuel words depth []
            = Some (best_value pow055 (Z.to_nat depth) words, memo')) ∧
  (∃ memo', startTable pow055 fuel words depth []
            = Some ((λ w, (w, start_value pow055 (Z.to_nat depth) words w))
                      <$> words, memo')).
Proof.
  intros Hclean Hfuel. split.
  - destruct (bestExpected_returns pow055 fuel words depth Hclean Hfuel []
                (table_sound_nil pow055)) as (v & memo' & Hrun & _ & ->).
    by exists memo'.
  - assert (Z.to_nat depth ≤ S fuel) as Hfuel' by lia.
    destruct (startTable_returns pow055 fuel words depth Hclean Hfuel' []
                (table_sound_nil pow055)) as (v & memo' & Hrun & _ & ->).
    by exists memo'.
Qed.

Lemma X24_table_memo_is_transparent_witness :
  (Forall (λ w, is_word w = true) table_words ∧ Z.to_nat 8 ≤ 8) ∧
  (∃ memo', bestExpected (λ _, 0%Qc) 8 table_words 8 []
            = Some (best_value (λ _, 0%Qc) (Z.to_nat 8) table_words, memo')) ∧
  (∃ memo', startTable (λ _, 0%Qc) 8 table_words 8 []
            = Some ((λ w, (w, start_value (λ _, 0%Qc) (Z.to_nat 8) table_words w))
                      <$> table_words, memo')).
Proof.
  assert (Forall (λ w, is_word w = true) table_words) as H1
    by (by repeat constructor).
  assert (Z.to_nat 8 ≤ 8) as H2 by (vm_compute; lia).
  split; [done|].
  exact (X24_table_memo_is_transparent (λ _, 0%Qc) table_words 8 8 H1 H2).
Defined.

(** X25 (table generator, leafExtraGuesses, bestExpected and
    evalStartingGuess): on a list of distinct valid words, once the depth is
    at least the number of words the leaf estimate is never used: the table
    is the same for every leaf estimate and every such depth. *)
Theorem X25_table_exact_beyond_depth (words : list string) :
  NoDup words →
  Forall (λ w, is_word w = true) words →
  ∃ rows, ∀ (pow055 : nat → Qc) (depth : Z) (fuel : nat),
    (Z.of_nat (length words) ≤ depth)%Z → Z.to_nat depth ≤ fuel →
    ∃ memo', startTable pow055 fuel words depth [] = Some (rows, memo').
Proof.
  intros Hnd Hclean.
  exists ((λ w, (w, start_value (λ _, 0%Qc) (length words) words w)) <$> words).
  intros pow055 depth fuel Hdepth Hfuel.
  destruct (startTable_returns pow055 fuel words depth Hclean ltac:(lia) []
              (table_sound_nil pow055)) as (v & memo' & Hrun & _ & ->).
  exists memo'. rewrite Hrun. do 2 f_equal.
  apply list_fmap_ext. intros _ w _. f_equal.
  apply start_value_exact; [done|lia|lia].
Qed.

Lemma X25_table_exact_beyond_depth_witness :
  (NoDup table_words ∧ Forall (λ w, is_word w = true) table_words) ∧
  ∃ rows, ∀ (pow055 : nat → Qc) (depth : Z) (fuel : nat),
    (Z.of_nat (length table_words) ≤ depth)%Z → Z.to_nat depth ≤ fuel →
    ∃ memo', startTable pow055 fuel table_words depth [] = Some (rows, memo').
Proof.
  split; [exact table_words_proper|].
  exact (X25_table_exact_beyond_depth table_words
           (proj1 table_words_proper) (proj2 table_words_proper)).
Defined.

End table_properties.

(** ** The table generator against dp_solver.js *)

Module TableAgrees.
Import Num NumFacts Run RunFacts Partition Loader Recurrence Variants KeyFacts.
Import TableGenerator TableGeneratorFacts TableMain TableExact.

(** *** The order of the sort *)

Lemma compare_le_trans (s1 s2 s3 : string) :
  String.compare s1 s2 ≠ Gt → String.compare s2 s3 ≠ Gt →
  String.compare s1 s3 ≠ Gt.
Proof.
  revert s2 s3. induction s1 as [|c1 s1 IH]; intros [|c2 s2] [|c3 s3];
    simpl; try done.
  unfold Ascii.compare.
  destruct (N.compare_spec (N_of_ascii c1) (N_of_ascii c2)) as [H12|H12|H12],
    (N.compare_spec (N_of_ascii c2) (N_of_ascii c3)) as [H23|H23|H23],
    (N.compare_spec (N_of_ascii c1) (N_of_ascii c3)) as [H13|H13|H13];
    try done; try lia. apply IH.
Qed.

#[global] Instance str_le_trans : Transitive str_le.
Proof.
  intros s1 s2 s3. unfold str_le, String.leb. intros H12 H23.
  pose proof (compare_le_trans s1 s2 s3) as Ht.
  destruct (String.compare s1 s2), (String.compare s2 s3),
    (String.compare s1 s3); try done; by destruct Ht.
Qed.

#[global] Instance str_le_antisym : AntiSymm (=) str_le.
Proof. intros s1 s2. apply String.leb_antisym. Qed.

#[global] Instance str_le_total : Total str_le.
Proof. intros s1 s2. apply String.leb_total. Qed.



(** *** Partitioning words and partitioning their indices *)




Section agrees.
Variable WORDS : list string.
Hypothesis Hproper : proper WORDS.
Hypothesis Hsorted : StronglySorted str_le WORDS.
Variable pow055 : nat → Qc.

Local Abbreviation N := (length WORDS).
Local Abbreviation PAT := (pattern_table Feedback.TableGen.patternFor WORDS).
Local Abbreviation E := (expected PAT lead_branch charge_branch).





End agrees.

End TableAgrees.

Module TableRoot.
Import Num NumFacts Run RunFacts Partition Loader Recurrence Variants KeyFacts.
Import TableGenerator TableGeneratorFacts TableMain TableExact TableAgrees.





Section root.
Variable WORDS : list string.
Hypothesis Hproper : proper WORDS.
Hypothesis Hsorted : StronglySorted str_le WORDS.
Variable pow055 : nat → Qc.

Local Abbreviation N := (length WORDS).
Local Abbreviation PAT := (pattern_table Feedback.TableGen.patternFor WORDS).
Local Abbreviation PATfor := (pattern_table Feedback.patternFor WORDS).
Local Abbreviation E := (expected PAT lead_branch charge_branch).


End root.

End TableRoot.

Section table_agreement.
Import Num NumFacts Run RunFacts Partition Loader Recurrence Variants KeyFacts.
Import TableGenerator TableGeneratorFacts TableMain TableExact TableAgrees TableRoot.




End table_agreement.

(** ** main.js: [entropyAndExpectedSize]

    [p * Math.log2(p)] for [p = a / n] is the parameter [plog2 a n]. *)

Module Metrics.
Import Num Partition.
Local Open Scope num_scope.


Section metrics.
Variable plog2 : nat → nat → Qc.

End metrics.

End Metrics.

Module MetricsFacts.
Import Num NumFacts Partition Bounds Metrics.
Local Open Scope Qc_scope.


Section folds.
Variable plog2 : nat → nat → Qc.
Variable n : nat.



End folds.





End MetricsFacts.

Section metrics_properties.
Import Num NumFacts Partition Bounds Metrics MetricsFacts.
Local Open Scope Qc_scope.






End metrics_properties.

(** ** main.js: [loadWordsFromArray] *)

Module WordArray.
Import Loader LoaderFacts TableGenerator TableGeneratorFacts TableAgrees.

(** [state.all = a.filter(w => /^[a-z]{5}$/.test(w) && !seen.has(w)
    && seen.add(w)).sort()] *)
Definition loadWordsFromArray (a : list string) : list string :=
  let kept :=
    (foldl (λ st w, if is_word w then keep_new st w else st) (∅, []) a).2 in
  sort_words kept.

Example loadWordsFromArray_ex :
  loadWordsFromArray ["slate"; "Crane"; "crane"; "slate"; "abide"; "crane"]
  = ["abide"; "crane"; "slate"].
Proof. vm_compute. reflexivity. Qed.

Lemma foldl_valid_filter st (a : list string) :
  foldl (λ st w, if is_word w then keep_new st w else st) st a
  = foldl keep_new st (filter (λ w, is_word w = true) a).
Proof.
  revert st. induction a as [|w a IH]; intros st; simpl; [done|].
  rewrite filter_cons. destruct (is_word w) eqn:Hw.
  - rewrite decide_True by done. simpl. apply IH.
  - rewrite decide_False by done. apply IH.
Qed.

Lemma loadWordsFromArray_facts a :
  StronglySorted str_le (loadWordsFromArray a) ∧
  NoDup (loadWordsFromArray a) ∧
  ∀ w, w ∈ loadWordsFromArray a ↔ w ∈ a ∧ is_word w = true.
Proof.
  unfold loadWordsFromArray. rewrite foldl_valid_filter.
  set (ws := filter (λ w, is_word w = true) a).
  assert (Forall clean ws) as Hws.
  { apply Forall_forall. by intros w [? _]%list_elem_of_filter. }
  destruct (foldl_keep_new_kept clean (∅, []) ws Hws (kept_empty clean))
    as (Hnd & _ & _).
  split_and!.
  - apply StronglySorted_merge_sort; apply _.
  - by rewrite sort_words_perm.
  - intros w. rewrite sort_words_perm.
    rewrite (foldl_keep_new_elem clean) by (done || apply kept_empty).
    simpl. rewrite elem_of_nil. unfold ws. rewrite list_elem_of_filter.
    naive_solver.
Qed.

End WordArray.

Section word_array_properties.
Import Loader TableGenerator TableAgrees WordArray.

(** X28 (main.js, loadWordsFromArray): the list kept in state.all holds
    exactly the valid words of the array, each once, in the order of the
    sort; it depends only on which valid words the array holds, not on their
    order or their repeats, and loading it again leaves it as it is. *)
Theorem X28_loadWordsFromArray_canonical :
  (∀ a, Sorted str_le (loadWordsFromArray a) ∧ NoDup (loadWordsFromArray a) ∧
        ∀ w, w ∈ loadWordsFromArray a ↔ w ∈ a ∧ is_word w = true) ∧
  (∀ a b, (∀ w, is_word w = true → (w ∈ a ↔ w ∈ b)) →
          loadWordsFromArray a = loadWordsFromArray b) ∧
  (∀ a, loadWordsFromArray (loadWordsFromArray a) = loadWordsFromArray a).
Proof.
  assert (∀ a b, (∀ w, is_word w = true → (w ∈ a ↔ w ∈ b)) →
                 loadWordsFromArray a = loadWordsFromArray b) as Hsame.
  { intros a b Hab.
    destruct (loadWordsFromArray_facts a) as (Hsa & Hnda & Hina).
    destruct (loadWordsFromArray_facts b) as (Hsb & Hndb & Hinb).
    apply (StronglySorted_unique str_le); [done..|].
    apply NoDup_Permutation; [done..|].
    intros w. rewrite Hina, Hinb. specialize (Hab w). naive_solver. }
  split_and!; [|exact Hsame|].
  - intros a. destruct (loadWordsFromArray_facts a) as (Hs & Hnd & Hin).
    split_and!; [by apply StronglySorted_Sorted|done|done].
  - intros a. apply Hsame. intros w Hw.
    destruct (loadWordsFromArray_facts a) as (_ & _ & Hin).
    rewrite Hin. naive_solver.
Qed.

End word_array_properties.
